(** * proglog: the segmented commit log, its RPC facade, picker and membership loop

    A shallow embedding of the Go sources of ac0mz/proglog:
    - package [log]: [store] (length-prefixed payload file), [index]
      (memory-mapped table of 12-byte entries), [segment] and [Log];
    - package [server]: the loop body of [ConsumeStream];
    - package [loadbalance]: [Picker];
    - package [discovery]: [Membership.eventHandler].

    Machine integers are integers of [Z] with their wrap-around written out
    ([u64], [u32], [int64]).  A byte is a [Z] in [0, 256).  Go's [(value, error)]
    returns and run-time panics are the three outcomes of [result].  Disk
    input/output is taken to succeed: the only errors are the ones the
    program itself raises. *)

From stdpp Require Import base numbers list strings gmap pretty sorting.
From Stdlib Require Import ZArith Lia Ascii.

Local Open Scope Z_scope.

(** ** Machine integers *)

Definition u64 (z : Z) : Z := z mod 2 ^ 64.
Definition u32 (z : Z) : Z := z mod 2 ^ 32.

(** Conversion of a 64-bit pattern to the signed type [int64] (and [int]). *)
Definition int64 (z : Z) : Z :=
  let w := z mod 2 ^ 64 in if w <? 2 ^ 63 then w else w - 2 ^ 64.

(** [len(s)] as an integer. *)
Definition len {A : Type} (l : list A) : Z := Z.of_nat (length l).

(** ** Errors and outcomes *)

Inductive error : Type :=
| EOF                            (* io.EOF *)
| EINVAL                         (* syscall.EINVAL, from truncate and mmap *)
| ErrNegativeOffset              (* os: negative offset, from File.ReadAt *)
| Errorf (msg : string)          (* a value built by fmt.Errorf *)
| ErrOffsetOutOfRange (off : Z)  (* api.ErrOffsetOutOfRange{Offset: off} *)
| ErrNoSubConnAvailable          (* balancer.ErrNoSubConnAvailable *)
| ErrOther (msg : string).       (* any other error of a collaborator *)

Inductive result (A : Type) : Type :=
| Ok (a : A)
| Err (e : error)
| Panic (msg : string).

Arguments Ok {A} a.
Arguments Err {A} e.
Arguments Panic {A} msg.

Definition is_Ok {A : Type} (r : result A) : Prop :=
  match r with Ok _ => True | _ => False end.

(** ** Slices *)

(** [s[lo:hi]]: [None] stands for the run-time panic on bounds. *)
Definition slice (s : list Z) (lo hi : Z) : option (list Z) :=
  if (0 <=? lo) && (lo <=? hi) && (hi <=? len s)
  then Some (take (Z.to_nat (hi - lo)) (drop (Z.to_nat lo) s))
  else None.

(** Storing [bs] into the first bytes of [s[lo:hi]]; the stores panic when
    the window is out of bounds or shorter than [bs]. *)
Definition slice_put (s : list Z) (lo hi : Z) (bs : list Z) : option (list Z) :=
  if (0 <=? lo) && (lo <=? hi) && (hi <=? len s) && (len bs <=? hi - lo)
  then Some (take (Z.to_nat lo) s ++ bs ++ drop (Z.to_nat lo + length bs) s)
  else None.

(** A file cut or zero-extended to [n] bytes (truncate(2)). *)
Definition truncate_to (n : Z) (content : list Z) : list Z :=
  take (Z.to_nat n) content ++ replicate (Z.to_nat n - length content) 0.

(** [os.File.ReadAt(b, off)] with [n = len(b)]: a short read is [io.EOF]. *)
Definition File_ReadAt (content : list Z) (n off : Z) : result (list Z) :=
  if off <? 0 then Err ErrNegativeOffset
  else
    let got := take (Z.to_nat n) (drop (Z.to_nat off) content) in
    if len got <? n then Err EOF else Ok got.

(** ** encoding/binary, big endian *)

Module BigEndian.

(** The [n] low-order bytes of [v], most significant first. *)
Fixpoint put (n : nat) (v : Z) : list Z :=
  match n with
  | O => []
  | S k => put k (v / 256) ++ [v mod 256]
  end.

Definition get (bs : list Z) : Z :=
  fold_left (fun acc b => acc * 256 + b) bs 0.

Definition PutUint32 (v : Z) : list Z := put 4 v.
Definition PutUint64 (v : Z) : list Z := put 8 v.
Definition Uint32 (bs : list Z) : Z := get (take 4 bs).
Definition Uint64 (bs : list Z) : Z := get (take 8 bs).

End BigEndian.

(** ** package log: store *)

Definition lenWidth : Z := 8.

(** [File]: the bytes of the open file; [buf]: bytes accepted by the
    buffered writer and not yet flushed; [size]: the running size. *)
Record store : Type := mkStore {
  store_Name : string;
  store_File : list Z;
  store_buf : list Z;
  store_size : Z
}.

(** [newStore(f)] for a file named [name] whose content is [content]. *)
Definition newStore (name : string) (content : list Z) : store :=
  let size := u64 (len content) in
  mkStore name content [] size.

(** [s.buf.Write(p)] (and [binary.Write(s.buf, enc, v)] with [p] the
    encoding of [v]). *)
Definition buf_Write (s : store) (p : list Z) : store :=
  mkStore (store_Name s) (store_File s) (store_buf s ++ p) (store_size s).

(** [s.buf.Flush()]. *)
Definition buf_Flush (s : store) : store :=
  mkStore (store_Name s) (store_File s ++ store_buf s) [] (store_size s).

Definition store_Append (s : store) (p : list Z) : result (Z * Z) * store :=
  let pos := store_size s in
  let s := buf_Write s (BigEndian.PutUint64 (u64 (len p))) in
  let w := len p in
  let s := buf_Write s p in
  let w := int64 (w + lenWidth) in
  let s := mkStore (store_Name s) (store_File s) (store_buf s)
                   (u64 (store_size s + u64 w)) in
  (Ok (u64 w, pos), s).

Definition store_Read (s : store) (pos : Z) : result (list Z) * store :=
  let s := buf_Flush s in
  match File_ReadAt (store_File s) lenWidth (int64 pos) with
  | Ok size =>
      let n := BigEndian.Uint64 size in
      if 2 ^ 63 <=? n then (Panic "makeslice: len out of range", s)
      else
        match File_ReadAt (store_File s) n (int64 (u64 (pos + lenWidth))) with
        | Ok b => (Ok b, s)
        | Err e => (Err e, s)
        | Panic m => (Panic m, s)
        end
  | Err e => (Err e, s)
  | Panic m => (Panic m, s)
  end.

Definition store_ReadAt (s : store) (n off : Z) : result (list Z) * store :=
  let s := buf_Flush s in
  (File_ReadAt (store_File s) n off, s).

(** [Close]: flush, then close; the result is the file as left on disk. *)
Definition store_Close (s : store) : list Z * store :=
  let s := buf_Flush s in (store_File s, s).

(** Appending the payloads [ps] one after the other; the returned pairs are
    the [(n, pos)] of the calls, in order. *)
Fixpoint store_Appends (s : store) (ps : list (list Z)) : list (Z * Z) * store :=
  match ps with
  | [] => ([], s)
  | p :: ps' =>
      match store_Append s p with
      | (Ok np, s1) => let '(nps, s2) := store_Appends s1 ps' in (np :: nps, s2)
      | (_, s1) => ([], s1)
      end
  end.

(** The sum of the frame sizes [8 + len p] of the payloads. *)
Definition frames_size (ps : list (list Z)) : Z :=
  foldr (fun p acc => (lenWidth + len p) + acc) 0 ps.

(** ** package log: configuration *)

(** Modelled from the spec: the declaration of [Config] is not part of the
    sources; its segment options are the three the code reads
    ([Segment.MaxStoreBytes], [Segment.MaxIndexBytes], [Segment.InitialOffset],
    all [uint64]). *)
Record Config : Type := mkConfig {
  MaxStoreBytes : Z;
  MaxIndexBytes : Z;
  InitialOffset : Z
}.

(** ** package log: index *)

Definition offWidth : Z := 4.
Definition posWidth : Z := 8.
Definition entWidth : Z := offWidth + posWidth.

(** [mmap]: the bytes of the mapping; [size]: the bytes written so far. *)
Record index : Type := mkIndex {
  index_Name : string;
  index_mmap : list Z;
  index_size : Z
}.

(** [newIndex(f, c)] for a file named [name] whose content is [content];
    beside the outcome it returns the file as the call leaves it on disk
    ([os.Truncate] has resized it by the time [syscall.Mmap] is tried). *)
Definition newIndex (name : string) (content : list Z) (c : Config)
  : result index * list Z :=
  let size := u64 (len content) in
  let n := int64 (MaxIndexBytes c) in
  if n <? 0 then (Err EINVAL, content)    (* os.Truncate with a negative size *)
  else
    let content' := truncate_to n content in
    if n =? 0 then (Err EINVAL, content') (* mmap of length 0 *)
    else (Ok (mkIndex name content' size), content').

Definition index_isMaxed (i : index) : bool :=
  len (index_mmap i) <? u64 (index_size i + entWidth).

Definition index_Read (i : index) (in_ : Z) : result (Z * Z) :=
  if index_size i =? 0 then Err EOF
  else
    let out :=
      if in_ =? -1 then u32 (u64 (index_size i / entWidth - 1))
      else u32 in_ in
    let pos := u64 (out * entWidth) in
    if index_size i <? u64 (pos + entWidth) then Err EOF
    else
      match slice (index_mmap i) pos (u64 (pos + offWidth)),
            slice (index_mmap i) (u64 (pos + offWidth)) (u64 (pos + entWidth)) with
      | Some a, Some b => Ok (BigEndian.Uint32 a, BigEndian.Uint64 b)
      | _, _ => Panic "slice bounds out of range"
      end.

Definition index_Write (i : index) (off pos : Z) : result unit * index :=
  if index_isMaxed i then (Err EOF, i)
  else
    let size := index_size i in
    match slice_put (index_mmap i) size (u64 (size + offWidth))
                    (BigEndian.PutUint32 off) with
    | None => (Panic "slice bounds out of range", i)
    | Some m1 =>
        match slice_put m1 (u64 (size + offWidth)) (u64 (size + entWidth))
                        (BigEndian.PutUint64 pos) with
        | None => (Panic "slice bounds out of range", mkIndex (index_Name i) m1 size)
        | Some m2 => (Ok tt, mkIndex (index_Name i) m2 (u64 (size + entWidth)))
        end
    end.

(** [Close]: unmap, sync, cut the file back to [size]; the result is the
    file as left on disk. *)
Definition index_Close (i : index) : result (list Z) :=
  let n := int64 (index_size i) in
  if n <? 0 then Err EINVAL
  else Ok (truncate_to n (index_mmap i)).

(** Writing the entries [es] one after the other, stopping at the first
    failure. *)
Fixpoint index_Writes (i : index) (es : list (Z * Z)) : result unit * index :=
  match es with
  | [] => (Ok tt, i)
  | (off, pos) :: es' =>
      match index_Write i off pos with
      | (Ok _, i1) => index_Writes i1 es'
      | (r, i1) => (r, i1)
      end
  end.

(** ** package api: Record *)

(** Modelled from the spec: the generated declaration of [api.Record] is not
    part of the sources; the spec gives it as
    [{ offset: u64, term: u64, type: u32, value: bytes }]. *)
Record api_Record : Type := mkRecord {
  Value : list Z;
  Offset : Z;
  Term : Z;
  Type_ : Z
}.

(** The assignment [record.Offset = off]. *)
Definition set_Offset (record : api_Record) (off : Z) : api_Record :=
  mkRecord (Value record) off (Term record) (Type_ record).

(** ** package log: segment *)

Record segment : Type := mkSegment {
  seg_store : store;
  seg_index : index;
  baseOffset : Z;
  nextOffset : Z;
  seg_config : Config
}.

(** A directory: the content of each file, by file name. *)
Abbreviation directory := (gmap string (list Z)).

(** [fmt.Sprintf("%d%s", baseOffset, ext)]. *)
Definition file_name (baseOffset : Z) (ext : string) : string :=
  pretty baseOffset +:+ ext.

Definition segment_isMaxed (s : segment) : bool :=
  (MaxStoreBytes (seg_config s) <=? store_size (seg_store s))
  || (MaxIndexBytes (seg_config s) <=? index_size (seg_index s))
  || index_isMaxed (seg_index s).

(** [Close]: the index, then the store; each file is left in the directory
    as its [Close] leaves it. *)
Definition segment_Close (s : segment) (dir : directory)
  : result unit * segment * directory :=
  match index_Close (seg_index s) with
  | Ok content =>
      let dir := <[index_Name (seg_index s) := content]> dir in
      let '(content, st) := store_Close (seg_store s) in
      let dir := <[store_Name st := content]> dir in
      (Ok tt, mkSegment st (seg_index s) (baseOffset s) (nextOffset s) (seg_config s), dir)
  | Err e => (Err e, s, dir)
  | Panic m => (Panic m, s, dir)
  end.

Definition segment_Remove (s : segment) (dir : directory)
  : result unit * segment * directory :=
  match segment_Close s dir with
  | (Ok _, s, dir) =>
      let dir := delete (index_Name (seg_index s)) dir in
      let dir := delete (store_Name (seg_store s)) dir in
      (Ok tt, s, dir)
  | r => r
  end.

(** [newSegment(dir, baseOffset, c)]: both files are opened with O_CREATE,
    so a missing file is an empty one. *)
Definition newSegment (dir : directory) (baseOffset : Z) (c : Config)
  : result segment * directory :=
  let storeName := file_name baseOffset ".store" in
  let storeContent := default [] (dir !! storeName) in
  let dir := <[storeName := storeContent]> dir in
  let st := newStore storeName storeContent in
  let indexName := file_name baseOffset ".index" in
  let indexContent := default [] (dir !! indexName) in
  let '(r, indexContent) := newIndex indexName indexContent c in
  let dir := <[indexName := indexContent]> dir in
  match r with
  | Ok ix =>
      match index_Read ix (-1) with
      | Ok (off, _) =>
          (Ok (mkSegment st ix baseOffset (u64 (u64 (baseOffset + u64 off) + 1)) c), dir)
      | Err _ => (Ok (mkSegment st ix baseOffset baseOffset c), dir)
      | Panic m => (Panic m, dir)
      end
  | Err e => (Err e, dir)
  | Panic m => (Panic m, dir)
  end.

Section proto.

(** [proto.Marshal] and [proto.Unmarshal] for [api.Record], the protobuf
    codec the segment goes through.  [Unmarshal b] is the record that
    [proto.Unmarshal(b, &api.Record{})] leaves behind (its error is dropped
    by the caller). *)
Variable Marshal : api_Record -> result (list Z).
Variable Unmarshal : list Z -> api_Record.

(** [Append] writes through the pointer [record]: the third component is the
    caller's record after the call. *)
Definition segment_Append (s : segment) (record : api_Record)
  : result Z * segment * api_Record :=
  let cur := nextOffset s in
  let record := set_Offset record cur in
  match Marshal record with
  | Ok p =>
      match store_Append (seg_store s) p with
      | (Ok (_, pos), st) =>
          match index_Write (seg_index s)
                            (u32 (u64 (nextOffset s - baseOffset s))) pos with
          | (Ok _, ix) =>
              (Ok cur,
               mkSegment st ix (baseOffset s) (u64 (nextOffset s + 1)) (seg_config s),
               record)
          | (Err e, ix) =>
              (Err e, mkSegment st ix (baseOffset s) (nextOffset s) (seg_config s), record)
          | (Panic m, ix) =>
              (Panic m, mkSegment st ix (baseOffset s) (nextOffset s) (seg_config s), record)
          end
      | (Err e, st) =>
          (Err e, mkSegment st (seg_index s) (baseOffset s) (nextOffset s) (seg_config s), record)
      | (Panic m, st) =>
          (Panic m, mkSegment st (seg_index s) (baseOffset s) (nextOffset s) (seg_config s), record)
      end
  | Err e => (Err e, s, record)
  | Panic m => (Panic m, s, record)
  end.

Definition segment_Read (s : segment) (off : Z) : result api_Record * segment :=
  match index_Read (seg_index s) (int64 (u64 (off - baseOffset s))) with
  | Ok (_, pos) =>
      let '(r, st) := store_Read (seg_store s) pos in
      let s := mkSegment st (seg_index s) (baseOffset s) (nextOffset s) (seg_config s) in
      match r with
      | Ok b => (Ok (Unmarshal b), s)
      | Err e => (Err e, s)
      | Panic m => (Panic m, s)
      end
  | Err e => (Err e, s)
  | Panic m => (Panic m, s)
  end.

End proto.

(** ** Go library functions on file names *)

(** [strconv.ParseUint(s, 10, 0)], the value only (the caller drops the
    error): 0 on a syntax error, the largest [uint64] on a range error. *)
Definition digit (c : ascii) : option Z :=
  let n := Z.of_nat (nat_of_ascii c) in
  if (48 <=? n) && (n <=? 57) then Some (n - 48) else None.

Fixpoint ParseUint_from (s : string) (n : Z) : Z :=
  match s with
  | EmptyString => n
  | String c s' =>
      match digit c with
      | None => 0
      | Some d =>
          if 2 ^ 64 <=? n * 10 + d then 2 ^ 64 - 1
          else ParseUint_from s' (n * 10 + d)
      end
  end.

Definition ParseUint (s : string) : Z := ParseUint_from s 0.

(** [path.Ext(name)]: the suffix from the last dot of the last
    slash-separated element, empty when it has no dot. *)
Definition is_dot (c : ascii) : bool := Ascii.eqb c "."%char.
Definition is_slash (c : ascii) : bool := Ascii.eqb c "/"%char.

Fixpoint has_dot_or_slash (s : string) : bool :=
  match s with
  | EmptyString => false
  | String c s' => is_dot c || is_slash c || has_dot_or_slash s'
  end.

Fixpoint Ext (s : string) : string :=
  match s with
  | EmptyString => EmptyString
  | String c s' =>
      if has_dot_or_slash s' then Ext s'
      else if is_dot c then s else EmptyString
  end.

(** [strings.TrimSuffix(s, suffix)]. *)
Definition TrimSuffix (s suffix : string) : string :=
  let n := String.length s in
  let k := String.length suffix in
  if (k <=? n)%nat && String.eqb (String.substring (n - k) k s) suffix
  then String.substring 0 (n - k) s
  else s.

(** ** package log: Log *)

(** [Dir] is the content of the directory [l.Dir].  A [*segment] is an
    address in [heap]; [segments] and [activeSegment] hold such addresses,
    so the active segment and the last entry of [segments] are one
    object. *)
Record Log : Type := mkLog {
  Log_Dir : directory;
  Log_Config : Config;
  Log_heap : list segment;
  Log_segments : list nat;
  Log_activeSegment : option nat
}.

Definition nil_deref : string := "invalid memory address or nil pointer dereference".
Definition index_out_of_range : string := "index out of range".

(** [l.newSegment(off)]. *)
Definition Log_newSegment (l : Log) (off : Z) : result unit * Log :=
  match newSegment (Log_Dir l) off (Log_Config l) with
  | (Ok s, dir) =>
      let p := length (Log_heap l) in
      (Ok tt, mkLog dir (Log_Config l) (Log_heap l ++ [s])
                    (Log_segments l ++ [p]) (Some p))
  | (Err e, dir) =>
      (Err e, mkLog dir (Log_Config l) (Log_heap l) (Log_segments l) (Log_activeSegment l))
  | (Panic m, dir) =>
      (Panic m, mkLog dir (Log_Config l) (Log_heap l) (Log_segments l) (Log_activeSegment l))
  end.

(** The loop of [setup] over the sorted base offsets: [i] advances by two. *)
Fixpoint setup_loop (l : Log) (baseOffsets : list Z) : result unit * Log :=
  match baseOffsets with
  | [] => (Ok tt, l)
  | off :: rest =>
      match Log_newSegment l off with
      | (Ok _, l1) =>
          match rest with
          | [] => (Ok tt, l1)
          | _ :: rest' => setup_loop l1 rest'
          end
      | r => r
      end
  end.

Definition setup (l : Log) : result unit * Log :=
  let files := (map_to_list (Log_Dir l)).*1 in
  let baseOffsets := (fun name => ParseUint (TrimSuffix name (Ext name))) <$> files in
  let baseOffsets := merge_sort Z.le baseOffsets in
  match setup_loop l baseOffsets with
  | (Ok _, l) =>
      match Log_segments l with
      | [] => Log_newSegment l (InitialOffset (Log_Config l))
      | _ => (Ok tt, l)
      end
  | r => r
  end.

Definition NewLog (dir : directory) (c : Config) : result unit * Log :=
  let c := if MaxStoreBytes c =? 0
           then mkConfig 1024 (MaxIndexBytes c) (InitialOffset c) else c in
  let c := if MaxIndexBytes c =? 0
           then mkConfig (MaxStoreBytes c) 1024 (InitialOffset c) else c in
  setup (mkLog dir c [] [] None).

(** [l.segments[0].baseOffset]. *)
Definition Log_LowestOffset (l : Log) : result Z :=
  match Log_segments l with
  | [] => Panic index_out_of_range
  | p :: _ =>
      match Log_heap l !! p with
      | Some s => Ok (baseOffset s)
      | None => Panic nil_deref
      end
  end.

Definition Log_highestOffset (l : Log) : result Z :=
  match last (Log_segments l) with
  | None => Panic index_out_of_range
  | Some p =>
      match Log_heap l !! p with
      | Some s =>
          let off := nextOffset s in
          if off =? 0 then Ok 0 else Ok (u64 (off - 1))
      | None => Panic nil_deref
      end
  end.

Definition Log_HighestOffset (l : Log) : result Z := Log_highestOffset l.

(** The scan of [Read]: the first segment of [ptrs] whose range holds
    [off]. *)
Fixpoint find_segment (heap : list segment) (ptrs : list nat) (off : Z)
  : result (option nat) :=
  match ptrs with
  | [] => Ok None
  | p :: ptrs' =>
      match heap !! p with
      | Some s =>
          if (baseOffset s <=? off) && (off <? nextOffset s) then Ok (Some p)
          else find_segment heap ptrs' off
      | None => Panic nil_deref
      end
  end.

(** [Remove] on each segment of [ptrs] whose [nextOffset] is at most
    [bound]; the others are collected in order. *)
Fixpoint truncate_loop (heap : list segment) (dir : directory)
    (ptrs : list nat) (bound : Z) (kept : list nat)
  : result (list nat) * list segment * directory :=
  match ptrs with
  | [] => (Ok kept, heap, dir)
  | p :: ptrs' =>
      match heap !! p with
      | Some s =>
          if nextOffset s <=? bound then
            match segment_Remove s dir with
            | (Ok _, s', dir') => truncate_loop (<[p := s']> heap) dir' ptrs' bound kept
            | (Err e, s', dir') => (Err e, <[p := s']> heap, dir')
            | (Panic m, s', dir') => (Panic m, <[p := s']> heap, dir')
            end
          else truncate_loop heap dir ptrs' bound (kept ++ [p])
      | None => (Panic nil_deref, heap, dir)
      end
  end.

Definition Log_Truncate (l : Log) (lowest : Z) : result unit * Log :=
  match truncate_loop (Log_heap l) (Log_Dir l) (Log_segments l) (u64 (lowest + 1)) [] with
  | (Ok segments, heap, dir) =>
      (Ok tt, mkLog dir (Log_Config l) heap segments (Log_activeSegment l))
  | (Err e, heap, dir) =>
      (Err e, mkLog dir (Log_Config l) heap (Log_segments l) (Log_activeSegment l))
  | (Panic m, heap, dir) =>
      (Panic m, mkLog dir (Log_Config l) heap (Log_segments l) (Log_activeSegment l))
  end.

Section proto_log.

Variable Marshal : api_Record -> result (list Z).
Variable Unmarshal : list Z -> api_Record.

(** [Append] writes through the pointer [record]: the third component is the
    caller's record after the call. *)
Definition Log_Append (l : Log) (record : api_Record)
  : result Z * Log * api_Record :=
  match Log_highestOffset l with
  | Ok highestOffset =>
      match Log_activeSegment l ≫= (Log_heap l !!.) with
      | Some a =>
          let '(r, l) :=
            if segment_isMaxed a
            then Log_newSegment l (u64 (highestOffset + 1))
            else (Ok tt, l) in
          match r with
          | Ok _ =>
              match Log_activeSegment l with
              | Some p =>
                  match Log_heap l !! p with
                  | Some s =>
                      let '(r, s', record') := segment_Append Marshal s record in
                      (r, mkLog (Log_Dir l) (Log_Config l) (<[p := s']> (Log_heap l))
                                (Log_segments l) (Log_activeSegment l), record')
                  | None => (Panic nil_deref, l, record)
                  end
              | None => (Panic nil_deref, l, record)
              end
          | Err e => (Err e, l, record)
          | Panic m => (Panic m, l, record)
          end
      | None => (Panic nil_deref, l, record)
      end
  | Err e => (Err e, l, record)
  | Panic m => (Panic m, l, record)
  end.

Definition Log_Read (l : Log) (off : Z) : result api_Record * Log :=
  match find_segment (Log_heap l) (Log_segments l) off with
  | Ok (Some p) =>
      match Log_heap l !! p with
      | Some s =>
          if nextOffset s <=? off
          then (Err (Errorf ("offset out of range: " +:+ pretty off)), l)
          else
            let '(r, s') := segment_Read Unmarshal s off in
            (r, mkLog (Log_Dir l) (Log_Config l) (<[p := s']> (Log_heap l))
                      (Log_segments l) (Log_activeSegment l))
      | None => (Panic nil_deref, l)
      end
  | Ok None => (Err (Errorf ("offset out of range: " +:+ pretty off)), l)
  | Err e => (Err e, l)
  | Panic m => (Panic m, l)
  end.

End proto_log.

(** A fixed-width codec for [api.Record], used to run the log on concrete
    inputs: 8 bytes of offset, 8 of term, 4 of type, then the value.  It
    refuses a record whose fields do not fit their Go types, or whose value
    is longer than a protobuf message may be (2 GiB). *)
Definition Record_fits (r : api_Record) : bool :=
  (0 <=? Offset r) && (Offset r <? 2 ^ 64)
  && (0 <=? Term r) && (Term r <? 2 ^ 64)
  && (0 <=? Type_ r) && (Type_ r <? 2 ^ 32)
  && (len (Value r) <? 2 ^ 31).

Definition wire_Marshal (r : api_Record) : result (list Z) :=
  if Record_fits r
  then Ok (BigEndian.put 8 (Offset r) ++ BigEndian.put 8 (Term r)
           ++ BigEndian.put 4 (Type_ r) ++ Value r)
  else Err (ErrOther "proto: field out of range").

Definition wire_Unmarshal (b : list Z) : api_Record :=
  mkRecord (drop 20 b)
           (BigEndian.get (take 8 b))
           (BigEndian.get (take 8 (drop 8 b)))
           (BigEndian.get (take 4 (drop 16 b))).

(** ** package server: ConsumeStream *)

Module server.

(** What one pass of the [for] loop of [ConsumeStream] does next. *)
Inductive pass : Type :=
| Return (err : option error)   (* the method returns *)
| SleepAndRetry                 (* time.Sleep(time.Second); continue *)
| Sent (offset : Z).            (* stream.Send succeeded; req.Offset is now [offset] *)

(** [s.Consume(ctx, req)]: authorize, then read from the commit log; both
    errors are passed on as they are.  [read] is the outcome of
    [s.CommitLog.Read(req.Offset)]. *)
Definition Consume (authorize : option error) (read : result api_Record)
  : result api_Record :=
  match authorize with
  | Some e => Err e
  | None => read
  end.

(** One pass of the loop: [done] tells whether the stream's context is
    done, [consume] is the outcome of [s.Consume], [send] the error of
    [stream.Send] if it has one. *)
Definition ConsumeStream_pass (done : bool) (consume : result api_Record)
    (send : option error) (offset : Z) : result pass :=
  if done then Ok (Return None)
  else
    match consume with
    | Ok _ =>
        match send with
        | Some e => Ok (Return (Some e))
        | None => Ok (Sent (u64 (offset + 1)))
        end
    | Err (ErrOffsetOutOfRange _) => Ok SleepAndRetry
    | Err e => Ok (Return (Some e))
    | Panic m => Panic m
    end.

End server.

(** ** package loadbalance: Picker *)

Module loadbalance.

(** [strings.Contains(s, substr)]. *)
Fixpoint has_prefix (s p : string) : bool :=
  match p, s with
  | EmptyString, _ => true
  | String _ _, EmptyString => false
  | String c p', String d s' => Ascii.eqb c d && has_prefix s' p'
  end.

Fixpoint Contains (s substr : string) : bool :=
  has_prefix s substr
  || match s with
     | EmptyString => false
     | String _ s' => Contains s' substr
     end.

(** A [balancer.SubConn] is an interface value: [None] is [nil], [Some n]
    the sub-connection of identity [n]. *)
Definition SubConn : Type := option nat.

Record Picker : Type := mkPicker {
  leader : SubConn;
  followers : list SubConn;
  current : Z
}.

(** [Build] ranges over the map [buildInfo.ReadySCs]; [ready] lists its
    entries in the order of that iteration, each with the value of its
    ["is_leader"] attribute ([None] when the attribute is missing or is
    not a [bool], on which the type assertion panics). *)
Fixpoint Build_loop (ready : list (SubConn * option bool))
    (leader : SubConn) (followers : list SubConn) : result (SubConn * list SubConn) :=
  match ready with
  | [] => Ok (leader, followers)
  | (sc, Some true) :: ready' => Build_loop ready' sc followers
  | (sc, Some false) :: ready' => Build_loop ready' leader (followers ++ [sc])
  | (_, None) :: _ => Panic "interface conversion"
  end.

Definition Build (p : Picker) (ready : list (SubConn * option bool)) : result Picker :=
  match Build_loop ready (leader p) [] with
  | Ok (l, fs) => Ok (mkPicker l fs (current p))
  | Err e => Err e
  | Panic m => Panic m
  end.

(** [nextFollower]: the counter is bumped atomically and its new value
    taken modulo the number of followers. *)
Definition nextFollower (p : Picker) : result SubConn * Picker :=
  let cur := u64 (current p + 1) in
  let p := mkPicker (leader p) (followers p) cur in
  let n := u64 (len (followers p)) in
  if n =? 0 then (Panic "integer divide by zero", p)
  else
    let idx := int64 (cur mod n) in
    match followers p !! Z.to_nat idx with
    | Some sc => (Ok sc, p)
    | None => (Panic index_out_of_range, p)
    end.

(** [Pick]: the sub-connection of the result, the error, and the picker
    after the call. *)
Definition Pick (p : Picker) (FullMethodName : string)
  : result (SubConn * option error) * Picker :=
  let '(r, p) :=
    if Contains FullMethodName "Produce" || (len (followers p) =? 0)
    then (Ok (leader p), p)
    else if Contains FullMethodName "Consume"
    then nextFollower p
    else (Ok None, p) in
  match r with
  | Ok None => (Ok (None, Some ErrNoSubConnAvailable), p)
  | Ok (Some sc) => (Ok (Some sc, None), p)
  | Err e => (Err e, p)
  | Panic m => (Panic m, p)
  end.

End loadbalance.

(** ** package discovery: Membership *)

Module discovery.

(** A [serf.Member], with the fields the loop reads. *)
Record Member : Type := mkMember {
  Name : string;
  Tags : gmap string string
}.

(** A [serf.Event] by its [EventType()]; the member events carry their
    [Members]. *)
Inductive Event : Type :=
| EventMemberJoin (Members : list Member)
| EventMemberLeave (Members : list Member)
| EventMemberFailed (Members : list Member)
| EventOther.

(** A call received by the [Handler], with its arguments. *)
Inductive call : Type :=
| Join (name addr : string)
| Leave (name : string).

(** [m.isLocal(member)], [local] being [m.serf.LocalMember().Name]. *)
Definition isLocal (local : string) (member : Member) : bool :=
  String.eqb local (Name member).

(** [handleJoin]: the handler's error is only logged. *)
Definition handleJoin (member : Member) : call :=
  Join (Name member) (default EmptyString (Tags member !! "rpc_addr")).

Definition handleLeave (member : Member) : call :=
  Leave (Name member).

(** The inner loop of the join case: the handler calls it makes. *)
Fixpoint join_members (local : string) (members : list Member) : list call :=
  match members with
  | [] => []
  | member :: members' =>
      if isLocal local member then join_members local members'
      else handleJoin member :: join_members local members'
  end.

(** The inner loop of the leave and failed case: the calls it makes, and
    whether it left the function through [return]. *)
Fixpoint leave_members (local : string) (members : list Member) : list call * bool :=
  match members with
  | [] => ([], false)
  | member :: members' =>
      if isLocal local member then ([], true)
      else
        let '(calls, returned) := leave_members local members' in
        (handleLeave member :: calls, returned)
  end.

(** [eventHandler] over the events the channel delivers, in order: the
    calls the handler receives. *)
Fixpoint eventHandler (local : string) (events : list Event) : list call :=
  match events with
  | [] => []
  | e :: events' =>
      match e with
      | EventMemberJoin members =>
          join_members local members ++ eventHandler local events'
      | EventMemberLeave members | EventMemberFailed members =>
          let '(calls, returned) := leave_members local members in
          if returned then calls else calls ++ eventHandler local events'
      | EventOther => eventHandler local events'
      end
  end.

End discovery.

(** * Specification-side definitions *)

(** The bytes a store holds: on disk, then buffered. *)
Definition store_bytes (s : store) : list Z := store_File s ++ store_buf s.

(** The frame of a payload: its length on 8 bytes, then the payload. *)
Definition frame (p : list Z) : list Z :=
  BigEndian.PutUint64 (u64 (len p)) ++ p.

(** What the appends of [ps] return when the first one starts at [pos]:
    for each payload, the bytes written and the position of its frame. *)
Fixpoint frame_results (pos : Z) (ps : list (list Z)) : list (Z * Z) :=
  match ps with
  | [] => []
  | p :: ps' =>
      (lenWidth + len p, pos) :: frame_results (pos + (lenWidth + len p)) ps'
  end.

(** The 12 bytes of entry number [k] of a mapping hold the pair [e]. *)
Definition entry_at (m : list Z) (k : Z) (e : Z * Z) : Prop :=
  slice m (k * entWidth) (k * entWidth + offWidth) = Some (BigEndian.PutUint32 e.1)
  /\ slice m (k * entWidth + offWidth) (k * entWidth + entWidth)
     = Some (BigEndian.PutUint64 e.2).

(** A pair of a [uint32] relative offset and a [uint64] store position. *)
Definition entry_fits (e : Z * Z) : Prop :=
  0 <= e.1 < 2 ^ 32 /\ 0 <= e.2 < 2 ^ 64.

(** The index holds exactly the entries [es], in order, in a mapping whose
    length is an [int]. *)
Definition index_rep (i : index) (es : list (Z * Z)) : Prop :=
  index_size i = entWidth * len es
  /\ index_size i <= len (index_mmap i)
  /\ len (index_mmap i) < 2 ^ 63
  /\ Forall entry_fits es
  /\ forall k e, es !! k = Some e -> entry_at (index_mmap i) (Z.of_nat k) e.


(** What [Pick] returns for the sub-connection it chose: the
    sub-connection, or the no-sub-conn-available error when it is [nil]. *)
Definition pick_result (sc : loadbalance.SubConn)
  : result (loadbalance.SubConn * option error) :=
  match sc with
  | Some _ => Ok (sc, None)
  | None => Ok (None, Some ErrNoSubConnAvailable)
  end.

(** The frame of the payload [p] stands at position [pos] of [bytes]. *)
Definition frame_at (bytes : list Z) (pos : Z) (p : list Z) : Prop :=
  0 <= pos /\ slice bytes pos (pos + (lenWidth + len p)) = Some (frame p).

(** The options of a log that can hold records: a store cap that is not 0
    and an index of room for 1 to [2^32] entries (relative offsets are
    32-bit).  [NewLog] replaces a cap of 0 by 1024. *)
Definition config_ok (c : Config) : Prop :=
  0 < MaxStoreBytes c
  /\ entWidth <= MaxIndexBytes c <= entWidth * 2 ^ 32.

(** The files of a directory are segment files of base at most [B]. *)
Definition dir_below (dir : directory) (B : Z) : Prop :=
  forall name, is_Some (dir !! name) ->
    exists b ext, name = file_name b ext
      /\ (ext = ".store" \/ ext = ".index") /\ 0 <= b <= B.

Section representation.

Variable Marshal : api_Record -> result (list Z).

(** The store file of a segment, which grows to its cap and one frame more
    at most, stays below [2^63] bytes (file offsets are [int64]). *)
Definition store_fits (c : Config) : Prop :=
  forall r p, Marshal r = Ok p -> MaxStoreBytes c + (lenWidth + len p) < 2 ^ 63.

(** The segment [s], of configuration [c], holds the records [recs]: entry
    [k] of its index points to the frame of the marshalled record [k],
    whose offset is [baseOffset + k]. *)
Definition segment_rep (c : Config) (s : segment) (recs : list api_Record) : Prop :=
  seg_config s = c
  /\ 0 <= baseOffset s
  /\ nextOffset s = baseOffset s + len recs
  /\ nextOffset s < 2 ^ 64
  /\ store_size (seg_store s) = len (store_bytes (seg_store s))
  /\ store_size (seg_store s) < 2 ^ 63
  /\ (recs = [] -> store_size (seg_store s) = 0)
  /\ len (index_mmap (seg_index s)) = MaxIndexBytes c
  /\ exists es,
       length es = length recs
       /\ index_rep (seg_index s) es
       /\ forall k r e, recs !! k = Some r -> es !! k = Some e ->
            e.1 = Z.of_nat k
            /\ Offset r = baseOffset s + Z.of_nat k
            /\ exists p, Marshal r = Ok p
                 /\ frame_at (store_bytes (seg_store s)) e.2 p.

(** The log [l] holds the records of [chunks], one chunk per segment in
    the order of [l.segments], the first record at offset [first]; the
    active segment is the last one; the directory holds no file of a base
    beyond the active segment's. *)
Definition Log_rep (l : Log) (first : Z) (chunks : list (list api_Record)) : Prop :=
  config_ok (Log_Config l)
  /\ NoDup (Log_segments l)
  /\ Log_segments l <> []
  /\ Log_activeSegment l = last (Log_segments l)
  /\ length chunks = length (Log_segments l)
  /\ (forall i p recs, Log_segments l !! i = Some p -> chunks !! i = Some recs ->
        exists s, Log_heap l !! p = Some s
          /\ segment_rep (Log_Config l) s recs
          /\ baseOffset s = first + len (concat (take i chunks)))
  /\ dir_below (Log_Dir l)
       (first + len (concat (take (pred (length chunks)) chunks))).

End representation.

(** The offset of the first record of chunk [i]. *)
Definition chunk_base (first : Z) (chunks : list (list api_Record)) (i : nat) : Z :=
  first + len (concat (take i chunks)).

(** The configuration [NewLog] stores: a cap of 0 becomes 1024. *)
Definition defaulted (c : Config) : Config :=
  let c := if MaxStoreBytes c =? 0
           then mkConfig 1024 (MaxIndexBytes c) (InitialOffset c) else c in
  if MaxIndexBytes c =? 0
  then mkConfig (MaxStoreBytes c) 1024 (InitialOffset c) else c.


(** A call on a log other than [Truncate] and [Reset]. *)
Inductive log_op : Type :=
| OpAppend (record : api_Record)
| OpRead (off : Z).

Fixpoint count_appends (ops : list log_op) : Z :=
  match ops with
  | [] => 0
  | OpAppend _ :: ops' => 1 + count_appends ops'
  | OpRead _ :: ops' => count_appends ops'
  end.

Section runs.

Variable Marshal : api_Record -> result (list Z).
Variable Unmarshal : list Z -> api_Record.

(** [Append] called on each record of a list, in order: the outcome of
    each call and the log after the last.  A panic ends the run. *)
Fixpoint Log_Appends (l : Log) (records : list api_Record)
  : list (result Z) * Log :=
  match records with
  | [] => ([], l)
  | record :: records' =>
      match Log_Append Marshal l record with
      | (Panic m, l1, _) => ([Panic m], l1)
      | (r, l1, _) =>
          let '(results, l2) := Log_Appends l1 records' in (r :: results, l2)
      end
  end.

(** The calls of [ops] made in order, whatever they return: the log after
    the last one, or [None] if one panics. *)
Fixpoint Log_run (l : Log) (ops : list log_op) : option Log :=
  match ops with
  | [] => Some l
  | OpAppend record :: ops' =>
      match Log_Append Marshal l record with
      | (Panic _, _, _) => None
      | (_, l1, _) => Log_run l1 ops'
      end
  | OpRead off :: ops' =>
      match Log_Read Unmarshal l off with
      | (Panic _, _) => None
      | (_, l1) => Log_run l1 ops'
      end
  end.

End runs.


(** Whether the loop of [Truncate] keeps the segment at address [p]: its
    [nextOffset] is above [bound]. *)
Definition truncate_keeps (heap : list segment) (bound : Z) (p : nat) : bool :=
  match heap !! p with
  | Some s => bound <? nextOffset s
  | None => false
  end.

(** * Definitions for the properties beyond the specification *)

(** ** package discovery *)

(** The member a handler call is about. *)
Definition call_name (c : discovery.call) : string :=
  match c with
  | discovery.Join name _ => name
  | discovery.Leave name => name
  end.

(** The calls one event stands for: one per member other than the local
    node, in the order of the event. *)
Definition dispatch (local : string) (e : discovery.Event) : list discovery.call :=
  let others := filter (fun m => discovery.isLocal local m = false) in
  match e with
  | discovery.EventMemberJoin members => discovery.handleJoin <$> others members
  | discovery.EventMemberLeave members
  | discovery.EventMemberFailed members => discovery.handleLeave <$> others members
  | discovery.EventOther => []
  end.

(** No leave or failed event of [events] lists the local node. *)
Definition local_stays (local : string) (events : list discovery.Event) : Prop :=
  Forall (fun e =>
            match e with
            | discovery.EventMemberLeave members
            | discovery.EventMemberFailed members =>
                Forall (fun m => discovery.isLocal local m = false) members
            | _ => True
            end) events.

(** ** package loadbalance *)

(** [Pick] called once for each method name of [names], in order, on the
    same picker: the results, and the picker after the last call. *)
Fixpoint Picks (p : loadbalance.Picker) (names : list string)
  : list (result (loadbalance.SubConn * option error)) * loadbalance.Picker :=
  match names with
  | [] => ([], p)
  | name :: names' =>
      let '(r, p1) := loadbalance.Pick p name in
      let '(rs, p2) := Picks p1 names' in
      (r :: rs, p2)
  end.

(** A method name that [Pick] sends to a follower. *)
Definition consume_only (name : string) : Prop :=
  loadbalance.Contains name "Produce" = false
  /\ loadbalance.Contains name "Consume" = true.

(** ** package log *)

(** The records as a log stores them when the first one gets the offset
    [first]: record number [k] with its [Offset] field set to [first + k]. *)
Definition stamp (first : Z) (records : list api_Record) : list api_Record :=
  zip_with set_Offset records (seqZ first (len records)).

(** What [Read(off)] answers on a log that holds exactly [stored], the
    first of them at offset [first]. *)
Definition read_answer (first : Z) (stored : list api_Record) (off : Z)
  : result api_Record :=
  if (first <=? off) && (off <? first + len stored)
  then match stored !! Z.to_nat (off - first) with
       | Some r => Ok r
       | None => Err (Errorf ("offset out of range: " +:+ pretty off))
       end
  else Err (Errorf ("offset out of range: " +:+ pretty off)).

(** Every record of [records] can be marshalled, whatever [uint64] offset
    it is given. *)
Definition marshals (Marshal : api_Record -> result (list Z))
    (records : list api_Record) : Prop :=
  forall r off, r ∈ records -> 0 <= off < 2 ^ 64 -> is_Ok (Marshal (set_Offset r off)).

(** ** package server: the RPC handlers over a [Log] *)

Section grpc.

Variable Marshal : api_Record -> result (list Z).
Variable Unmarshal : list Z -> api_Record.

(** [s.Produce(ctx, req)], the [CommitLog] being the log [l]: [authorize]
    is the answer of [s.Authorizer.Authorize] for the subject of [ctx]
    ([None] for [nil]); the result is the [Offset] of the response. *)
Definition grpcServer_Produce (authorize : option error) (l : Log) (record : api_Record)
  : result Z * Log :=
  match authorize with
  | Some e => (Err e, l)
  | None => let '(r, l1, _) := Log_Append Marshal l record in (r, l1)
  end.

(** [s.Consume(ctx, req)]: the result is the [Record] of the response. *)
Definition grpcServer_Consume (authorize : option error) (l : Log) (offset : Z)
  : result api_Record * Log :=
  match authorize with
  | Some e => (Err e, l)
  | None => Log_Read Unmarshal l offset
  end.

(** [s.ProduceStream(stream)]: [reqs] are the records of the requests that
    [stream.Recv] delivers, in order, before it fails with [recv_err];
    [send off] is the error of [stream.Send] for the response of offset
    [off].  The method only returns with an error: the outcome is that
    error, beside the offsets of the responses sent. *)
Fixpoint grpcServer_ProduceStream (authorize : option error)
    (send : Z -> option error) (recv_err : error)
    (l : Log) (reqs : list api_Record) : list Z * result error * Log :=
  match reqs with
  | [] => ([], Ok recv_err, l)
  | record :: reqs' =>
      match grpcServer_Produce authorize l record with
      | (Ok off, l1) =>
          match send off with
          | Some e => ([], Ok e, l1)
          | None =>
              let '(sent, r, l2) :=
                grpcServer_ProduceStream authorize send recv_err l1 reqs' in
              (off :: sent, r, l2)
          end
      | (Err e, l1) => ([], Ok e, l1)
      | (Panic m, l1) => ([], Panic m, l1)
      end
  end.

(** [passes] turns of the loop of [s.ConsumeStream(req, stream)] from
    [req.Offset = offset]: [done off] tells whether the context is done when
    the turn for [off] starts, [send r] is the error of [stream.Send] for
    the record [r].  The outcome is [Some] of what the method returns, or
    [None] while it is still in its loop, beside the records sent and the
    value of [req.Offset]. *)
Fixpoint grpcServer_ConsumeStream (passes : nat) (authorize : option error)
    (done : Z -> bool) (send : api_Record -> option error)
    (l : Log) (offset : Z)
  : list api_Record * option (result (option error)) * Z * Log :=
  match passes with
  | O => ([], None, offset, l)
  | S passes' =>
      if done offset then ([], Some (Ok None), offset, l)
      else
        let '(consume, l1) := grpcServer_Consume authorize l offset in
        let sent := match consume with Ok r => send r | _ => None end in
        match server.ConsumeStream_pass false consume sent offset with
        | Ok (server.Return err) => ([], Some (Ok err), offset, l1)
        | Ok server.SleepAndRetry =>
            grpcServer_ConsumeStream passes' authorize done send l1 offset
        | Ok (server.Sent offset') =>
            let '(rs, out, off, l2) :=
              grpcServer_ConsumeStream passes' authorize done send l1 offset' in
            (match consume with Ok r => r :: rs | _ => rs end, out, off, l2)
        | Err e => ([], Some (Err e), offset, l1)
        | Panic m => ([], Some (Panic m), offset, l1)
        end
  end.

End grpc.

(** ** package log: the Raft log store *)

(** A [raft.Log] (of github.com/hashicorp/raft), with the fields the log
    store reads and writes; [Type] is a [raft.LogType], a [uint8]. *)
Record raft_Log : Type := mkRaftLog {
  raft_Index : Z;
  raft_Term : Z;
  raft_Type : Z;
  raft_Data : list Z
}.

Definition u8 (z : Z) : Z := z mod 2 ^ 8.

(** The [api.Record] that [StoreLogs] appends for a [raft.Log]: its
    [Offset] is left at zero. *)
Definition record_of (record : raft_Log) : api_Record :=
  mkRecord (raft_Data record) 0 (raft_Term record) (u32 (raft_Type record)).

Section raft_store.

Variable Marshal : api_Record -> result (list Z).
Variable Unmarshal : list Z -> api_Record.

Definition logStore_FirstIndex (l : Log) : result Z := Log_LowestOffset l.

Definition logStore_LastIndex (l : Log) : result Z := Log_HighestOffset l.

(** [GetLog(index, out)]: the second component is [*out] after the call. *)
Definition logStore_GetLog (l : Log) (index : Z) (out : raft_Log)
  : result unit * raft_Log * Log :=
  match Log_Read Unmarshal l index with
  | (Ok in_, l1) =>
      (Ok tt, mkRaftLog (Offset in_) (Term in_) (u8 (Type_ in_)) (Value in_), l1)
  | (Err e, l1) => (Err e, out, l1)
  | (Panic m, l1) => (Panic m, out, l1)
  end.

Fixpoint logStore_StoreLogs (l : Log) (records : list raft_Log) : result unit * Log :=
  match records with
  | [] => (Ok tt, l)
  | record :: records' =>
      match Log_Append Marshal l (record_of record) with
      | (Ok _, l1, _) => logStore_StoreLogs l1 records'
      | (Err e, l1, _) => (Err e, l1)
      | (Panic m, l1, _) => (Panic m, l1)
      end
  end.

Definition logStore_StoreLog (l : Log) (record : raft_Log) : result unit * Log :=
  logStore_StoreLogs l [record].

Definition logStore_DeleteRange (l : Log) (min max : Z) : result unit * Log :=
  Log_Truncate l max.

End raft_store.

(** ** package log: Replicator *)

(** A [chan struct{}] is an address in [chans], the channels made so far;
    the entry tells whether the channel has been closed.  [goroutines]
    lists the [go r.replicate(addr, leave)] statements executed, with
    their arguments.  [servers] and [close] are [None] while they are
    [nil].  The methods run under the mutex, one at a time. *)
Record Replicator : Type := mkReplicator {
  servers : option (gmap string nat);
  closed : bool;
  close : option nat;
  chans : list bool;
  goroutines : list (string * nat)
}.

(** The zero value [Replicator{}]. *)
Definition Replicator_zero : Replicator := mkReplicator None false None [] [].

(** [r.init()]. *)
Definition Replicator_init (r : Replicator) : Replicator :=
  let r := match servers r with
           | None => mkReplicator (Some ∅) (closed r) (close r) (chans r) (goroutines r)
           | Some _ => r
           end in
  match close r with
  | None => mkReplicator (servers r) (closed r) (Some (length (chans r)))
                         (chans r ++ [false]) (goroutines r)
  | Some _ => r
  end.

(** [close(ch)]: closing a closed channel panics. *)
Definition close_chan (chs : list bool) (ch : nat) : result (list bool) :=
  match chs !! ch with
  | Some false => Ok (<[ch := true]> chs)
  | Some true => Panic "close of closed channel"
  | None => Panic "close of nil channel"
  end.

Definition Replicator_Join (r : Replicator) (name addr : string)
  : result unit * Replicator :=
  let r := Replicator_init r in
  if closed r then (Ok tt, r)
  else
    match servers r with
    | None => (Panic "assignment to entry in nil map", r)
    | Some m =>
        match m !! name with
        | Some _ => (Ok tt, r)
        | None =>
            let ch := length (chans r) in
            (Ok tt, mkReplicator (Some (<[name := ch]> m)) (closed r) (close r)
                                 (chans r ++ [false]) (goroutines r ++ [(addr, ch)]))
        end
    end.

Definition Replicator_Leave (r : Replicator) (name : string)
  : result unit * Replicator :=
  let r := Replicator_init r in
  match servers r ≫= (.!! name) with
  | None => (Ok tt, r)
  | Some ch =>
      match close_chan (chans r) ch with
      | Ok chs =>
          (Ok tt, mkReplicator (delete name <$> servers r) (closed r) (close r)
                               chs (goroutines r))
      | Err e => (Err e, r)
      | Panic m => (Panic m, r)
      end
  end.

Definition Replicator_Close (r : Replicator) : result unit * Replicator :=
  let r := Replicator_init r in
  if closed r then (Ok tt, r)
  else
    let r := mkReplicator (servers r) true (close r) (chans r) (goroutines r) in
    match close r with
    | None => (Panic "close of nil channel", r)
    | Some ch =>
        match close_chan (chans r) ch with
        | Ok chs =>
            (Ok tt, mkReplicator (servers r) (closed r) (close r) chs (goroutines r))
        | Err e => (Err e, r)
        | Panic m => (Panic m, r)
        end
    end.

(** A call of one of the three methods. *)
Inductive Replicator_op : Type :=
| RJoin (name addr : string)
| RLeave (name : string)
| RClose.

Definition Replicator_step (r : Replicator) (op : Replicator_op)
  : result unit * Replicator :=
  match op with
  | RJoin name addr => Replicator_Join r name addr
  | RLeave name => Replicator_Leave r name
  | RClose => Replicator_Close r
  end.

(** The calls of [ops] in order; [None] if one panics. *)
Fixpoint Replicator_run (r : Replicator) (ops : list Replicator_op) : option Replicator :=
  match ops with
  | [] => Some r
  | op :: ops' =>
      match Replicator_step r op with
      | (Ok _, r1) => Replicator_run r1 ops'
      | _ => None
      end
  end.

(** The goroutines started for the channel [ch]. *)
Definition started_for (r : Replicator) (ch : nat) : list (string * nat) :=
  List.filter (fun g => Nat.eqb g.2 ch) (goroutines r).

(** What a replicator keeps at all times: a server being replicated has a
    channel of its own, which is open, is not the [close] channel, and was
    given to exactly one goroutine; the [close] channel is closed exactly
    when the replicator is. *)
Definition Replicator_ok (r : Replicator) : Prop :=
  (forall m name ch, servers r = Some m -> m !! name = Some ch ->
     chans r !! ch = Some false
     /\ close r <> Some ch
     /\ length (started_for r ch) = 1%nat
     /\ forall name', m !! name' = Some ch -> name' = name)
  /\ (forall ch, close r = Some ch -> chans r !! ch = Some (closed r))
  /\ (close r = None -> closed r = false)
  /\ (forall g, g ∈ goroutines r -> (g.2 < length (chans r))%nat).

(** ** package log: closing a log and opening it again *)

(** The loop of [Log.Close]: [Close] on each segment, in order, until one
    fails. *)
Fixpoint close_loop (heap : list segment) (dir : directory) (ptrs : list nat)
  : result unit * list segment * directory :=
  match ptrs with
  | [] => (Ok tt, heap, dir)
  | p :: ptrs' =>
      match heap !! p with
      | Some s =>
          match segment_Close s dir with
          | (Ok _, s', dir') => close_loop (<[p := s']> heap) dir' ptrs'
          | (Err e, s', dir') => (Err e, <[p := s']> heap, dir')
          | (Panic m, s', dir') => (Panic m, <[p := s']> heap, dir')
          end
      | None => (Panic nil_deref, heap, dir)
      end
  end.

Definition Log_Close (l : Log) : result unit * Log :=
  let '(r, heap, dir) := close_loop (Log_heap l) (Log_Dir l) (Log_segments l) in
  (r, mkLog dir (Log_Config l) heap (Log_segments l) (Log_activeSegment l)).

(** The files of a segment are named after its base offset. *)
Definition segment_files (s : segment) : Prop :=
  store_Name (seg_store s) = file_name (baseOffset s) ".store"
  /\ index_Name (seg_index s) = file_name (baseOffset s) ".index".

(** The base offsets of the segments of a log that holds the records of
    [chunks], one chunk per segment, from the offset [first]. *)
Definition bases_of (first : Z) (chunks : list (list api_Record)) : list Z :=
  chunk_base first chunks <$> seq 0 (length chunks).

(** The two files of each base offset of a list. *)
Definition files_of (bases : list Z) : list string :=
  bases ≫= fun b => [file_name b ".store"; file_name b ".index"].

(** The directory of the log holds the files of its segments and no
    other; the segments have their files named after their base offsets;
    only the last segment may be empty. *)
Definition Log_files (l : Log) : Prop :=
  (forall p s, p ∈ Log_segments l -> Log_heap l !! p = Some s -> segment_files s)
  /\ (forall name,
        is_Some (Log_Dir l !! name)
        <-> exists p s ext,
              p ∈ Log_segments l /\ Log_heap l !! p = Some s
              /\ (ext = ".store" \/ ext = ".index")
              /\ name = file_name (baseOffset s) ext)
  /\ (forall i p s,
        (S i < length (Log_segments l))%nat ->
        Log_segments l !! i = Some p -> Log_heap l !! p = Some s ->
        baseOffset s < nextOffset s).

(** The directory holds the two files of the segment as [Close] leaves
    them: every byte of the store, and the index cut back to its entries. *)
Definition closed_files (dir : directory) (s : segment) : Prop :=
  dir !! file_name (baseOffset s) ".store" = Some (store_bytes (seg_store s))
  /\ dir !! file_name (baseOffset s) ".index"
     = Some (truncate_to (index_size (seg_index s)) (index_mmap (seg_index s))).

(** The base offsets that [setup] reads off the names of the files of
    [bases]: each one twice. *)
Definition twice (bases : list Z) : list Z := bases ≫= fun b => [b; b].

(** ** package log: the replicated log and its state machine *)

(** What [fsm.Apply] returns, an [interface{}]: [nil], an [error], or a
    [*api.ProduceResponse] with its [Offset]. *)
Inductive fsm_response : Type :=
| RespNil
| RespError (e : error)
| RespProduce (offset : Z).

(** A [raft.ApplyFuture], by what [Error()] and [Response()] return. *)
Record ApplyFuture : Type := mkFuture {
  future_Error : option error;
  future_Response : fsm_response
}.

Definition AppendRequestType : Z := 0.

Definition interface_is_nil : string :=
  "interface conversion: interface {} is nil, not *api.ProduceResponse".
Definition interface_is_error : string :=
  "interface conversion: interface {} is error, not *api.ProduceResponse".

Section distributed.

Variable Marshal : api_Record -> result (list Z).
(** [proto.Marshal] of the [api.ProduceRequest] that holds a record, and
    [proto.Unmarshal] into an [api.ProduceRequest], read at its [Record]
    field, for the requests that carry a record. *)
Variable MarshalReq : api_Record -> result (list Z).
Variable UnmarshalReq : list Z -> result api_Record.

(** [f.applyAppend(b)], the log of the state machine being [l]. *)
Definition fsm_applyAppend (l : Log) (b : list Z) : result fsm_response * Log :=
  match UnmarshalReq b with
  | Ok record =>
      match Log_Append Marshal l record with
      | (Ok offset, l1, _) => (Ok (RespProduce offset), l1)
      | (Err e, l1, _) => (Ok (RespError e), l1)
      | (Panic m, l1, _) => (Panic m, l1)
      end
  | Err e => (Ok (RespError e), l)
  | Panic m => (Panic m, l)
  end.

(** [f.Apply(record)]: the first byte of the data is the request type. *)
Definition fsm_Apply (l : Log) (record : raft_Log) : result fsm_response * Log :=
  match raft_Data record with
  | [] => (Panic index_out_of_range, l)
  | reqType :: b =>
      if reqType =? AppendRequestType then fsm_applyAppend l b
      else (Ok RespNil, l)
  end.

(** [Apply] called on each entry of a list, in order, as raft does with
    the entries it commits: the answer to each call and the log after the
    last.  A panic ends the run. *)
Fixpoint fsm_Applies (l : Log) (entries : list raft_Log)
  : list (result fsm_response) * Log :=
  match entries with
  | [] => ([], l)
  | record :: entries' =>
      match fsm_Apply l record with
      | (Panic m, l1) => ([Panic m], l1)
      | (r, l1) =>
          let '(answers, l2) := fsm_Applies l1 entries' in (r :: answers, l2)
      end
  end.

(** The bytes that [apply] hands to [raft.Apply]: the request type, then
    the marshalled request [b]. *)
Definition apply_data (reqType : Z) (b : list Z) : list Z := u8 reqType :: b.

(** [l.apply(reqType, req)] for a request that holds [record];
    [raft_Apply data] is the future that [l.raft.Apply(data, timeout)]
    returns.  [Ok res] stands for [(res, nil)] and [Err e] for
    [(nil, e)].  With an error in the future the method returns its
    variable [err], which holds the [nil] of [proto.Marshal]. *)
Definition DistributedLog_apply (raft_Apply : list Z -> ApplyFuture)
    (reqType : Z) (record : api_Record) : result fsm_response :=
  match MarshalReq record with
  | Ok b =>
      let future := raft_Apply (apply_data reqType b) in
      match future_Error future with
      | Some _ => Ok RespNil
      | None =>
          match future_Response future with
          | RespError err => Err err
          | res => Ok res
          end
      end
  | Err e => Err e
  | Panic m => Panic m
  end.

(** [l.Append(record)] of the replicated log: the response is asserted to
    be a [*api.ProduceResponse]. *)
Definition DistributedLog_Append (raft_Apply : list Z -> ApplyFuture)
    (record : api_Record) : result Z :=
  match DistributedLog_apply raft_Apply AppendRequestType record with
  | Ok (RespProduce offset) => Ok offset
  | Ok RespNil => Panic interface_is_nil
  | Ok (RespError _) => Panic interface_is_error
  | Err e => Err e
  | Panic m => Panic m
  end.

(** The entry is one that raft commits for [Append(record)]: its data are
    the bytes that [apply] builds for the request of [record]. *)
Definition committed_for (record : api_Record) (entry : raft_Log) : Prop :=
  exists b, MarshalReq record = Ok b
    /\ raft_Data entry = apply_data AppendRequestType b.

End distributed.

(** The answer of [Apply] for the outcome of [Append] on the log. *)
Definition answer_of (r : result Z) : result fsm_response :=
  match r with
  | Ok offset => Ok (RespProduce offset)
  | Err e => Ok (RespError e)
  | Panic m => Panic m
  end.

(** ** package log: runs of a segment *)

Section segment_runs.

Variable Marshal : api_Record -> result (list Z).

(** [s.Append] called on each record of a list, in order: the outcome of
    each call and the segment after the last.  A panic ends the run. *)
Fixpoint segment_Appends (s : segment) (records : list api_Record)
  : list (result Z) * segment :=
  match records with
  | [] => ([], s)
  | record :: records' =>
      match segment_Append Marshal s record with
      | (Panic m, s1, _) => ([Panic m], s1)
      | (r, s1, _) =>
          let '(results, s2) := segment_Appends s1 records' in (r :: results, s2)
      end
  end.

End segment_runs.
(** * Proofs *)

(** ** Machine integers and lengths *)

Lemma u64_small z : 0 <= z < 2 ^ 64 -> u64 z = z.
Proof. intros H. unfold u64. apply Z.mod_small. exact H. Qed.

Lemma u32_small z : 0 <= z < 2 ^ 32 -> u32 z = z.
Proof. intros H. unfold u32. apply Z.mod_small. exact H. Qed.

Lemma int64_small z : 0 <= z < 2 ^ 63 -> int64 z = z.
Proof.
  intros H. unfold int64. rewrite Z.mod_small by lia.
  destruct (Z.ltb_spec z (2 ^ 63)); lia.
Qed.

Lemma u64_int64 z : u64 (int64 z) = u64 z.
Proof.
  unfold u64, int64. cbv zeta.
  destruct (Z.ltb_spec (z mod 2 ^ 64) (2 ^ 63)).
  - apply Z.mod_mod. lia.
  - replace (z mod 2 ^ 64 - 2 ^ 64) with (z mod 2 ^ 64 + (-1) * 2 ^ 64) by lia.
    rewrite Z.mod_add by lia. apply Z.mod_mod. lia.
Qed.

Lemma len_nonneg {A} (l : list A) : 0 <= len l.
Proof. unfold len. lia. Qed.

Lemma len_app {A} (l k : list A) : len (l ++ k) = len l + len k.
Proof. unfold len. rewrite length_app. lia. Qed.

Lemma len_nil {A} : len (@nil A) = 0.
Proof. reflexivity. Qed.

Lemma len_take {A} (l : list A) n :
  0 <= n <= len l -> len (take (Z.to_nat n) l) = n.
Proof. unfold len. intros H. rewrite length_take. lia. Qed.

Lemma len_drop {A} (l : list A) n :
  0 <= n <= len l -> len (drop (Z.to_nat n) l) = len l - n.
Proof. unfold len. intros H. rewrite length_drop. lia. Qed.

(** ** Big-endian encoding *)

Lemma put_length n v : length (BigEndian.put n v) = n.
Proof.
  revert v. induction n as [|n IH]; intros v; simpl; [reflexivity|].
  rewrite length_app, IH. simpl. lia.
Qed.

Lemma get_snoc bs b : BigEndian.get (bs ++ [b]) = BigEndian.get bs * 256 + b.
Proof. unfold BigEndian.get. rewrite fold_left_app. reflexivity. Qed.

Lemma get_put n v : 0 <= v < 256 ^ Z.of_nat n -> BigEndian.get (BigEndian.put n v) = v.
Proof.
  revert v. induction n as [|n IH]; intros v Hv.
  - simpl in *. unfold BigEndian.get. simpl. lia.
  - cbn [BigEndian.put]. rewrite get_snoc, IH.
    + pose proof (Z.div_mod v 256). lia.
    + rewrite Nat2Z.inj_succ, Z.pow_succ_r in Hv by lia.
      split; [apply Z.div_pos; lia | apply Z.div_lt_upper_bound; lia].
Qed.

Lemma Uint32_PutUint32 v :
  0 <= v < 2 ^ 32 -> BigEndian.Uint32 (BigEndian.PutUint32 v) = v.
Proof.
  intros Hv. unfold BigEndian.Uint32, BigEndian.PutUint32.
  rewrite take_ge by (rewrite put_length; lia).
  apply get_put. change (256 ^ Z.of_nat 4) with (2 ^ 32). exact Hv.
Qed.

Lemma Uint64_PutUint64 v :
  0 <= v < 2 ^ 64 -> BigEndian.Uint64 (BigEndian.PutUint64 v) = v.
Proof.
  intros Hv. unfold BigEndian.Uint64, BigEndian.PutUint64.
  rewrite take_ge by (rewrite put_length; lia).
  apply get_put. change (256 ^ Z.of_nat 8) with (2 ^ 64). exact Hv.
Qed.

Lemma len_PutUint32 v : len (BigEndian.PutUint32 v) = 4.
Proof. unfold len, BigEndian.PutUint32. rewrite put_length. reflexivity. Qed.

Lemma len_PutUint64 v : len (BigEndian.PutUint64 v) = 8.
Proof. unfold len, BigEndian.PutUint64. rewrite put_length. reflexivity. Qed.

(** ** store *)

Lemma len_frame p : len (frame p) = lenWidth + len p.
Proof. unfold frame. rewrite len_app, len_PutUint64. reflexivity. Qed.

Lemma frames_size_nonneg ps : 0 <= frames_size ps.
Proof.
  induction ps as [|p ps IH]; simpl; [lia|].
  pose proof (len_nonneg p). unfold lenWidth. lia.
Qed.

Lemma store_Append_step (s : store) (p : list Z) :
  store_size s = len (store_bytes s) ->
  store_size s + (lenWidth + len p) < 2 ^ 64 ->
  exists s',
    store_Append s p = (Ok (lenWidth + len p, store_size s), s')
    /\ store_Name s' = store_Name s
    /\ store_File s' = store_File s
    /\ store_buf s' = store_buf s ++ frame p
    /\ store_size s' = store_size s + (lenWidth + len p).
Proof.
  intros Hinv Hfit.
  pose proof (len_nonneg p) as Hp. pose proof (len_nonneg (store_bytes s)) as Hs.
  unfold lenWidth in *.
  exists (mkStore (store_Name s) (store_File s) (store_buf s ++ frame p)
                  (store_size s + (8 + len p))).
  cbn [store_Name store_File store_buf store_size].
  split; [|auto].
  unfold store_Append, buf_Write, lenWidth, frame.
  cbn [store_Name store_File store_buf store_size].
  rewrite u64_int64. rewrite (u64_small (len p + 8)) by lia.
  rewrite (u64_small (store_size s + (len p + 8))) by lia.
  rewrite <- app_assoc.
  replace (len p + 8) with (8 + len p) by lia. reflexivity.
Qed.

Lemma store_Appends_all (ps : list (list Z)) : forall s : store,
  store_size s = len (store_bytes s) ->
  store_size s + frames_size ps < 2 ^ 64 ->
  exists s',
    store_Appends s ps = (frame_results (store_size s) ps, s')
    /\ store_size s' = store_size s + frames_size ps
    /\ store_size s' = len (store_bytes s')
    /\ store_bytes s' = store_bytes s ++ concat (frame <$> ps).
Proof.
  induction ps as [|p ps IH]; intros s Hinv Hfit.
  - exists s. cbn. rewrite app_nil_r. repeat split; [lia | exact Hinv].
  - cbn [frames_size foldr] in Hfit. fold (frames_size ps) in Hfit.
    pose proof (frames_size_nonneg ps) as Hps.
    destruct (store_Append_step s p Hinv) as (s1 & Happ & _ & Hfile & Hbuf & Hsize); [lia|].
    assert (Hinv1 : store_size s1 = len (store_bytes s1)).
    { unfold store_bytes in *. rewrite Hfile, Hbuf, Hsize, Hinv.
      rewrite !len_app, len_frame. lia. }
    destruct (IH s1 Hinv1) as (s' & Happs & Hsz & Hinv' & Hbytes); [lia|].
    exists s'. cbn [store_Appends frame_results]. rewrite Happ, Happs, Hsize.
    repeat split.
    + rewrite Hsz, Hsize. cbn [frames_size foldr]. fold (frames_size ps). lia.
    + exact Hinv'.
    + rewrite Hbytes. unfold store_bytes. rewrite Hfile, Hbuf.
      cbn [fmap list_fmap concat]. rewrite <- !app_assoc. reflexivity.
Qed.

(** C5.  Store append postcondition and size invariant.  For a store whose
    [size] counts its bytes (on disk plus buffered) and every payload [p],
    [Append(p)] returns [(8 + len p, size before the call)]; and the appends
    of any sequence [p :: ps] all succeed, return these pairs in order, and
    leave [size] equal to the size before plus the sum of [8 + len] over the
    appended frames, which is again the number of bytes held (on disk plus
    buffered).  The bound says that this sum is a [uint64]. *)
Theorem store_Append_size_invariant (s : store) (p : list Z) (ps : list (list Z)) :
  store_size s = len (store_bytes s) ->
  store_size s + frames_size (p :: ps) < 2 ^ 64 ->
  (exists s1,
      store_Append s p = (Ok (lenWidth + len p, store_size s), s1)
      /\ store_size s1 = store_size s + (lenWidth + len p))
  /\ (exists s',
      store_Appends s (p :: ps) = (frame_results (store_size s) (p :: ps), s')
      /\ store_size s' = store_size s + frames_size (p :: ps)
      /\ store_size s' = len (store_bytes s')
      /\ store_bytes s' = store_bytes s ++ concat (frame <$> p :: ps)).
Proof.
  intros Hinv Hfit. split.
  - pose proof (frames_size_nonneg ps) as Hps.
    cbn [frames_size foldr] in Hfit. fold (frames_size ps) in Hfit.
    destruct (store_Append_step s p Hinv) as (s1 & Happ & _ & _ & _ & Hsize); [lia|].
    exists s1. split; assumption.
  - apply store_Appends_all; assumption.
Qed.

(** A store opened on an empty file, with two payloads. *)
Lemma store_Append_size_invariant_witness :
  let s := newStore "0.store" [] in
  let p := [104; 105] in
  let ps := [[]] in
  (exists s1,
      store_Append s p = (Ok (lenWidth + len p, store_size s), s1)
      /\ store_size s1 = store_size s + (lenWidth + len p))
  /\ (exists s',
      store_Appends s (p :: ps) = (frame_results (store_size s) (p :: ps), s')
      /\ store_size s' = store_size s + frames_size (p :: ps)
      /\ store_size s' = len (store_bytes s')
      /\ store_bytes s' = store_bytes s ++ concat (frame <$> p :: ps)).
Proof.
  cbv zeta. apply store_Append_size_invariant.
  - reflexivity.
  - vm_compute. reflexivity.
Defined.

(** ** Slices *)

Lemma slice_Some s lo hi :
  0 <= lo <= hi -> hi <= len s ->
  slice s lo hi = Some (take (Z.to_nat (hi - lo)) (drop (Z.to_nat lo) s)).
Proof.
  intros [H0 H1] H2. unfold slice.
  destruct (Z.leb_spec 0 lo); [|lia].
  destruct (Z.leb_spec lo hi); [|lia].
  destruct (Z.leb_spec hi (len s)); [|lia].
  reflexivity.
Qed.

Lemma slice_None_hi s lo hi : len s < hi -> slice s lo hi = None.
Proof.
  intros H. unfold slice.
  destruct (Z.leb_spec hi (len s)); [lia|].
  rewrite andb_false_r. reflexivity.
Qed.

Lemma slice_len s lo hi w : slice s lo hi = Some w -> len w = hi - lo.
Proof.
  unfold slice. intros H.
  destruct (Z.leb_spec 0 lo); [|discriminate].
  destruct (Z.leb_spec lo hi); [|discriminate].
  destruct (Z.leb_spec hi (len s)); [|discriminate].
  cbn in H. injection H as <-. unfold len in *.
  rewrite length_take, length_drop. lia.
Qed.

Lemma slice_app_l a b lo hi :
  hi <= len a -> slice (a ++ b) lo hi = slice a lo hi.
Proof.
  intros H. unfold slice. rewrite len_app.
  pose proof (len_nonneg b) as Hb.
  destruct (Z.leb_spec 0 lo); [|reflexivity].
  destruct (Z.leb_spec lo hi); [|reflexivity].
  destruct (Z.leb_spec hi (len a)); [|lia].
  destruct (Z.leb_spec hi (len a + len b)); [|lia].
  cbn. f_equal. unfold len in *.
  rewrite drop_app_le by lia. rewrite take_app_le; [reflexivity|].
  rewrite length_drop. lia.
Qed.

Lemma slice_take s n lo hi :
  hi <= n -> n <= len s -> slice (take (Z.to_nat n) s) lo hi = slice s lo hi.
Proof.
  intros H1 H2.
  rewrite <- (take_drop (Z.to_nat n) s) at 2.
  symmetry. apply slice_app_l. unfold len in *. rewrite length_take. lia.
Qed.

Lemma slice_app_mid a w c :
  slice (a ++ w ++ c) (len a) (len a + len w) = Some w.
Proof.
  pose proof (len_nonneg a). pose proof (len_nonneg w). pose proof (len_nonneg c).
  rewrite slice_Some by (rewrite ?len_app; lia).
  f_equal. unfold len.
  replace (Z.to_nat (Z.of_nat (length a) + Z.of_nat (length w) - Z.of_nat (length a)))
    with (length w) by lia.
  rewrite Nat2Z.id, drop_app_length, take_app_length. reflexivity.
Qed.

Lemma slice_put_Some s lo hi bs :
  0 <= lo <= hi -> hi <= len s -> len bs <= hi - lo ->
  slice_put s lo hi bs
  = Some (take (Z.to_nat lo) s ++ bs ++ drop (Z.to_nat lo + length bs) s).
Proof.
  intros [H0 H1] H2 H3. unfold slice_put.
  destruct (Z.leb_spec 0 lo); [|lia].
  destruct (Z.leb_spec lo hi); [|lia].
  destruct (Z.leb_spec hi (len s)); [|lia].
  destruct (Z.leb_spec (len bs) (hi - lo)); [|lia].
  reflexivity.
Qed.

Lemma len_slice_put s lo hi bs s' :
  slice_put s lo hi bs = Some s' -> len s' = len s.
Proof.
  unfold slice_put. intros H.
  destruct (Z.leb_spec 0 lo); [|discriminate].
  destruct (Z.leb_spec lo hi); [|discriminate].
  destruct (Z.leb_spec hi (len s)); [|discriminate].
  destruct (Z.leb_spec (len bs) (hi - lo)); [|discriminate].
  cbn in H. injection H as <-. unfold len in *.
  rewrite !length_app, length_take, length_drop. lia.
Qed.

(** A store into a window leaves every window below it as it was. *)
Lemma slice_put_below s lo hi bs s' l h :
  slice_put s lo hi bs = Some s' -> h <= lo ->
  slice s' l h = slice s l h.
Proof.
  unfold slice_put. intros H Hh.
  destruct (Z.leb_spec 0 lo); [|discriminate].
  destruct (Z.leb_spec lo hi); [|discriminate].
  destruct (Z.leb_spec hi (len s)); [|discriminate].
  destruct (Z.leb_spec (len bs) (hi - lo)); [|discriminate].
  cbn in H. injection H as <-.
  rewrite slice_app_l by (rewrite len_take; lia).
  apply slice_take; lia.
Qed.

(** A store that fills its window is read back from it. *)
Lemma slice_put_same s lo hi bs s' :
  slice_put s lo hi bs = Some s' -> len bs = hi - lo ->
  slice s' lo hi = Some bs.
Proof.
  unfold slice_put. intros H Hlen.
  destruct (Z.leb_spec 0 lo); [|discriminate].
  destruct (Z.leb_spec lo hi); [|discriminate].
  destruct (Z.leb_spec hi (len s)); [|discriminate].
  destruct (Z.leb_spec (len bs) (hi - lo)); [|discriminate].
  cbn in H. injection H as <-.
  pose proof (slice_app_mid (take (Z.to_nat lo) s) bs
                (drop (Z.to_nat lo + length bs) s)) as Hmid.
  rewrite len_take in Hmid by lia.
  replace (lo + len bs) with hi in Hmid by lia. exact Hmid.
Qed.

(** ** index *)

Lemma index_rep_empty name m : len m < 2 ^ 63 -> index_rep (mkIndex name m 0) [].
Proof.
  intros H. unfold index_rep. cbn. pose proof (len_nonneg m).
  split; [reflexivity|]. split; [lia|]. split; [lia|].
  split; [apply List.Forall_nil|].
  intros k e Hk. rewrite lookup_nil in Hk. discriminate.
Qed.

Lemma index_isMaxed_spec (i : index) :
  0 <= index_size i < 2 ^ 63 ->
  index_isMaxed i = true <-> len (index_mmap i) < index_size i + entWidth.
Proof.
  intros H. unfold index_isMaxed, entWidth, offWidth, posWidth in *.
  rewrite u64_small by lia. apply Z.ltb_lt.
Qed.

Lemma index_Write_maxed (i : index) off pos :
  0 <= index_size i < 2 ^ 63 ->
  len (index_mmap i) < index_size i + entWidth ->
  index_Write i off pos = (Err EOF, i).
Proof.
  intros H Hmax. unfold index_Write.
  apply index_isMaxed_spec in Hmax; [|exact H]. rewrite Hmax. reflexivity.
Qed.

Lemma index_Write_room (i : index) off pos :
  0 <= index_size i < 2 ^ 63 ->
  index_size i + entWidth <= len (index_mmap i) ->
  exists m1 m2,
    slice_put (index_mmap i) (index_size i) (index_size i + offWidth)
              (BigEndian.PutUint32 off) = Some m1
    /\ slice_put m1 (index_size i + offWidth) (index_size i + entWidth)
                 (BigEndian.PutUint64 pos) = Some m2
    /\ index_Write i off pos
       = (Ok tt, mkIndex (index_Name i) m2 (index_size i + entWidth)).
Proof.
  intros H Hroom. unfold index_Write.
  assert (Hnm : index_isMaxed i = false).
  { destruct (index_isMaxed i) eqn:E; [|reflexivity].
    apply index_isMaxed_spec in E; [lia|exact H]. }
  rewrite Hnm. unfold entWidth, offWidth, posWidth in *.
  rewrite !u64_small by lia.
  pose proof (len_PutUint32 off) as H32. pose proof (len_PutUint64 pos) as H64.
  destruct (slice_put (index_mmap i) (index_size i) (index_size i + 4)
                      (BigEndian.PutUint32 off)) as [m1|] eqn:E1.
  2: { rewrite slice_put_Some in E1 by lia. discriminate. }
  pose proof (len_slice_put _ _ _ _ _ E1) as Hm1.
  destruct (slice_put m1 (index_size i + 4) (index_size i + (4 + 8))
                      (BigEndian.PutUint64 pos)) as [m2|] eqn:E2.
  2: { rewrite slice_put_Some in E2 by lia. discriminate. }
  exists m1, m2. rewrite ?E2. repeat split; assumption.
Qed.

Lemma index_Write_rep (i : index) es off pos :
  index_rep i es -> entry_fits (off, pos) ->
  index_size i + entWidth <= len (index_mmap i) ->
  exists i',
    index_Write i off pos = (Ok tt, i')
    /\ index_rep i' (es ++ [(off, pos)])
    /\ index_Name i' = index_Name i
    /\ len (index_mmap i') = len (index_mmap i).
Proof.
  intros (Hsize & Hle & Hint & Hfits & Hent) Hfit Hroom.
  pose proof (len_nonneg es) as Hes.
  assert (H0 : 0 <= index_size i < 2 ^ 63) by (unfold entWidth, offWidth, posWidth in *; lia).
  destruct (index_Write_room i off pos H0 Hroom) as (m1 & m2 & Hp1 & Hp2 & HW).
  pose proof (len_slice_put _ _ _ _ _ Hp1) as Hl1.
  pose proof (len_slice_put _ _ _ _ _ Hp2) as Hl2.
  eexists. split; [exact HW|]. cbn [index_Name index_mmap index_size].
  split; [|split; [reflexivity|lia]].
  unfold index_rep. cbn [index_Name index_mmap index_size].
  rewrite len_app. change (len [(off, pos)]) with 1.
  split; [unfold entWidth, offWidth, posWidth in *; lia|].
  split; [lia|]. split; [lia|]. split.
  - apply Forall_app. split; [exact Hfits|]. constructor; [exact Hfit|constructor].
  - intros k e Hk.
    assert (Hoff : len (BigEndian.PutUint32 off) = index_size i + offWidth - index_size i)
      by (rewrite len_PutUint32; unfold offWidth; lia).
    assert (Hpos : len (BigEndian.PutUint64 pos)
                   = index_size i + entWidth - (index_size i + offWidth))
      by (rewrite len_PutUint64; unfold entWidth, offWidth, posWidth; lia).
    destruct (decide (k < length es)%nat) as [Hlt|Hge].
    + rewrite lookup_app_l in Hk by exact Hlt.
      destruct (Hent k e Hk) as [He1 He2]. unfold entry_at.
      assert (Hk12 : Z.of_nat k * entWidth + entWidth <= index_size i).
      { rewrite Hsize. unfold len, entWidth, offWidth, posWidth. lia. }
      unfold entWidth, offWidth, posWidth in *.
      rewrite !(slice_put_below _ _ _ _ _ _ _ Hp2) by lia.
      rewrite !(slice_put_below _ _ _ _ _ _ _ Hp1) by lia.
      split; assumption.
    + apply lookup_app_Some in Hk as [Hk|[_ Hk]].
      { apply lookup_lt_Some in Hk. lia. }
      apply list_lookup_singleton_Some in Hk as [Hk0 <-].
      assert (Hkz : Z.of_nat k * entWidth = index_size i).
      { assert (k = length es) by lia. subst k.
        rewrite Hsize. unfold len, entWidth, offWidth, posWidth. lia. }
      unfold entry_at. cbn [fst snd]. rewrite Hkz. split.
      * rewrite (slice_put_below _ _ _ _ _ _ _ Hp2) by lia.
        apply (slice_put_same _ _ _ _ _ Hp1 Hoff).
      * apply (slice_put_same _ _ _ _ _ Hp2 Hpos).
Qed.

Lemma index_Read_rep (i : index) es in_ :
  index_rep i es -> len es <= 2 ^ 32 -> -1 <= in_ < 2 ^ 32 ->
  index_Read i in_
  = match es !! Z.to_nat (if in_ =? -1 then len es - 1 else in_) with
    | Some e => Ok e
    | None => Err EOF
    end.
Proof.
  intros (Hsize & Hle & Hint & Hfits & Hent) Hn Hin.
  pose proof (len_nonneg es) as Hes.
  unfold index_Read. rewrite Hsize.
  destruct (Z.eqb_spec (entWidth * len es) 0) as [Hz|Hnz].
  { assert (Hl : length es = 0%nat) by (unfold len, entWidth, offWidth, posWidth in *; lia).
    destruct es; [|discriminate]. rewrite lookup_nil. reflexivity. }
  assert (Hpos : 1 <= len es) by (unfold entWidth, offWidth, posWidth in *; lia).
  set (k := if in_ =? -1 then len es - 1 else in_).
  assert (Hk : 0 <= k < 2 ^ 32) by (unfold k; destruct (Z.eqb_spec in_ (-1)); lia).
  assert (Hout : (if in_ =? -1 then u32 (u64 (entWidth * len es / entWidth - 1))
                  else u32 in_) = k).
  { unfold k. destruct (Z.eqb_spec in_ (-1)).
    - rewrite (Z.mul_comm entWidth), Z.div_mul by (unfold entWidth, offWidth, posWidth; lia).
      rewrite u64_small by lia. apply u32_small. lia.
    - apply u32_small. lia. }
  rewrite Hout. unfold entWidth, offWidth, posWidth in *.
  rewrite !(u64_small (k * (4 + 8))) by lia.
  rewrite !u64_small by lia.
  destruct (Z.ltb_spec ((4 + 8) * len es) (k * (4 + 8) + (4 + 8))) as [Hbeyond|Hin_range].
  - rewrite lookup_ge_None_2; [reflexivity|]. unfold len in *. lia.
  - destruct (lookup_lt_is_Some_2 es (Z.to_nat k)) as [e He]; [unfold len in *; lia|].
    rewrite He. destruct (Hent _ _ He) as [H1 H2].
    rewrite Z2Nat.id in H1, H2 by lia.
    unfold entWidth, offWidth, posWidth in *.
    rewrite H1, H2.
    pose proof (Forall_lookup_1 _ _ _ _ Hfits He) as Hfe.
    destruct e as [off pos]. destruct Hfe as [Hf1 Hf2]. cbn [fst snd] in *.
    rewrite Uint32_PutUint32, Uint64_PutUint64 by lia. reflexivity.
Qed.

Lemma index_Writes_rep es : forall (i i' : index) es0,
  index_rep i es0 -> Forall entry_fits es ->
  index_Writes i es = (Ok tt, i') ->
  index_rep i' (es0 ++ es)
  /\ index_Name i' = index_Name i
  /\ len (index_mmap i') = len (index_mmap i).
Proof.
  induction es as [|[off pos] es IH]; intros i i' es0 Hrep Hfits HW.
  - cbn in HW. injection HW as <-. rewrite app_nil_r. auto.
  - apply Forall_cons in Hfits as [Hfit Hfits]. cbn [index_Writes] in HW.
    destruct (Z_lt_le_dec (len (index_mmap i)) (index_size i + entWidth)) as [Hmax|Hroom].
    + rewrite index_Write_maxed in HW; [discriminate| |exact Hmax].
      destruct Hrep as (Hs & Hl & Hi & _). pose proof (len_nonneg es0).
      unfold entWidth, offWidth, posWidth in *. lia.
    + destruct (index_Write_rep i es0 off pos Hrep Hfit Hroom) as (i1 & HW1 & Hrep1 & Hn1 & Hl1).
      rewrite HW1 in HW.
      destruct (IH i1 i' _ Hrep1 Hfits HW) as (Hrep' & Hn' & Hl').
      rewrite <- app_assoc in Hrep'. cbn in Hrep'.
      split; [exact Hrep'|]. split; congruence.
Qed.





(** ** segment *)

(** C10.  [segment.Append] writes through its argument: whatever the
    outcome, the caller's record afterwards is the record it passed with
    [Offset] set to the segment's [nextOffset] at the call and no other
    field changed; the bytes appended to the store are the marshalling of
    that record; and the offset returned on success is that field. *)
Theorem segment_Append_sets_Offset
    (Marshal : api_Record -> result (list Z)) (s : segment) (record : api_Record) :
  let '(r, s', record') := segment_Append Marshal s record in
  record' = set_Offset record (nextOffset s)
  /\ Offset record' = nextOffset s
  /\ Value record' = Value record
  /\ Term record' = Term record
  /\ Type_ record' = Type_ record
  /\ (forall off, r = Ok off ->
        off = Offset record'
        /\ exists p, Marshal record' = Ok p
             /\ store_bytes (seg_store s') = store_bytes (seg_store s) ++ frame p).
Proof.
  unfold segment_Append.
  destruct (Marshal (set_Offset record (nextOffset s))) as [p| |] eqn:EM.
  2,3: do 5 (split; [reflexivity|]); intros off [=].
  unfold store_Append at 1. cbv zeta.
  match goal with |- context [index_Write ?i ?o ?q] =>
    destruct (index_Write i o q) as [[[]| |] ix] end.
  2,3: do 5 (split; [reflexivity|]); intros off [=].
  do 5 (split; [reflexivity|]). intros off [= <-]. split; [reflexivity|].
  exists p. split; [exact EM|].
  unfold store_bytes, buf_Write, frame. cbn [seg_store store_File store_buf].
  rewrite <- !app_assoc. reflexivity.
Qed.

Lemma string_app_inv_head (s a b : string) : s +:+ a = s +:+ b -> a = b.
Proof.
  induction s as [|c s IH]; cbn; intros H; [exact H|].
  injection H as H. apply IH, H.
Qed.

Lemma store_index_names_differ base :
  file_name base ".store" <> file_name base ".index".
Proof.
  unfold file_name. intros H. apply string_app_inv_head in H. discriminate.
Qed.

Lemma len_truncate_to n content : 0 <= n -> len (truncate_to n content) = n.
Proof.
  intros H. unfold truncate_to, len.
  rewrite length_app, length_take, length_replicate. lia.
Qed.

(** Below the smaller of the two lengths, a resized file reads as the
    file. *)
Lemma slice_truncate_to n content lo hi :
  0 <= n -> hi <= n -> hi <= len content ->
  slice (truncate_to n content) lo hi = slice content lo hi.
Proof.
  intros Hn H1 H2. unfold truncate_to.
  destruct (Z_le_gt_dec n (len content)) as [Hle|Hgt].
  - rewrite slice_app_l by (rewrite len_take; lia).
    apply slice_take; lia.
  - rewrite take_ge by (unfold len in *; lia).
    apply slice_app_l. lia.
Qed.







Example newSegment_reopened_at_18 :
  nextOffset <$> match (newSegment
     {[ "16.index" := BigEndian.PutUint32 0 ++ BigEndian.PutUint64 0
                      ++ BigEndian.PutUint32 1 ++ BigEndian.PutUint64 23 ]}
     16 (mkConfig 1024 1024 0)).1 with Ok s => Some s | _ => None end
  = Some 18.
Proof. vm_compute. reflexivity. Qed.

(** ** Picker *)

(** C8.  Picker routing, the cases read in the order of the code: a method
    name that contains "Produce", or an empty follower list, gives the
    leader; otherwise a name that contains "Consume" gives the follower at
    the bumped counter modulo the number of followers; otherwise nothing is
    chosen.  In each case a [nil] choice is answered with
    [ErrNoSubConnAvailable].  The length of the follower list is an
    [int]. *)
Theorem Pick_routing (p : loadbalance.Picker) (FullMethodName : string) :
  len (loadbalance.followers p) < 2 ^ 63 ->
  let produce := loadbalance.Contains FullMethodName "Produce" in
  let consume := loadbalance.Contains FullMethodName "Consume" in
  let cur := u64 (loadbalance.current p + 1) in
  (produce = true \/ loadbalance.followers p = [] ->
     loadbalance.Pick p FullMethodName = (pick_result (loadbalance.leader p), p))
  /\ (produce = false -> loadbalance.followers p <> [] -> consume = true ->
      exists sc,
        loadbalance.followers p !! Z.to_nat (cur mod len (loadbalance.followers p)) = Some sc
        /\ loadbalance.Pick p FullMethodName
           = (pick_result sc,
              loadbalance.mkPicker (loadbalance.leader p) (loadbalance.followers p) cur))
  /\ (produce = false -> loadbalance.followers p <> [] -> consume = false ->
      loadbalance.Pick p FullMethodName = (Ok (None, Some ErrNoSubConnAvailable), p)).
Proof.
  intros Hlen produce consume cur.
  pose proof (len_nonneg (loadbalance.followers p)) as H0.
  assert (Hnil : loadbalance.followers p = [] <-> len (loadbalance.followers p) = 0).
  { unfold len. destruct (loadbalance.followers p); cbn; split; intros; try lia; congruence. }
  unfold loadbalance.Pick. fold produce. fold consume.
  split; [|split].
  - intros [Hp|Hf].
    + rewrite Hp. cbn [orb]. destruct (loadbalance.leader p); reflexivity.
    + apply Hnil in Hf. rewrite Hf, orb_true_r.
      destruct (loadbalance.leader p); reflexivity.
  - intros Hp Hf Hc. rewrite Hp, Hc. cbn [orb].
    assert (Hpos : 0 < len (loadbalance.followers p)) by (rewrite Hnil in Hf; lia).
    destruct (Z.eqb_spec (len (loadbalance.followers p)) 0); [lia|].
    unfold loadbalance.nextFollower. cbn [loadbalance.followers loadbalance.current].
    fold cur. rewrite (u64_small (len _)) by lia.
    destruct (Z.eqb_spec (len (loadbalance.followers p)) 0); [lia|].
    pose proof (Z.mod_pos_bound cur (len (loadbalance.followers p)) Hpos) as Hidx.
    rewrite int64_small by lia.
    destruct (lookup_lt_is_Some_2 (loadbalance.followers p)
                (Z.to_nat (cur mod len (loadbalance.followers p)))) as [sc Hsc];
      [unfold len in *; lia|].
    exists sc. split; [exact Hsc|]. rewrite Hsc. destruct sc; reflexivity.
  - intros Hp Hf Hc. rewrite Hp, Hc. cbn [orb].
    destruct (Z.eqb_spec (len (loadbalance.followers p)) 0); [|reflexivity].
    apply Hnil in e. contradiction.
Qed.

(** The picker of the tests: leader 0, followers 1 and 2. *)
Lemma Pick_routing_witness :
  let p := loadbalance.mkPicker (Some 0%nat) [Some 1%nat; Some 2%nat] 0 in
  let FullMethodName := "/log.vX.Log/Consume" in
  let produce := loadbalance.Contains FullMethodName "Produce" in
  let consume := loadbalance.Contains FullMethodName "Consume" in
  let cur := u64 (loadbalance.current p + 1) in
  (produce = true \/ loadbalance.followers p = [] ->
     loadbalance.Pick p FullMethodName = (pick_result (loadbalance.leader p), p))
  /\ (produce = false -> loadbalance.followers p <> [] -> consume = true ->
      exists sc,
        loadbalance.followers p !! Z.to_nat (cur mod len (loadbalance.followers p)) = Some sc
        /\ loadbalance.Pick p FullMethodName
           = (pick_result sc,
              loadbalance.mkPicker (loadbalance.leader p) (loadbalance.followers p) cur))
  /\ (produce = false -> loadbalance.followers p <> [] -> consume = false ->
      loadbalance.Pick p FullMethodName = (Ok (None, Some ErrNoSubConnAvailable), p)).
Proof.
  cbv zeta. apply Pick_routing. vm_compute. reflexivity.
Defined.

(** [Consume] picks alternate between two followers, starting with the one
    at index 1: the counter is bumped before it is used. *)
Example Pick_round_robin :
  let p0 := loadbalance.mkPicker (Some 0%nat) [Some 1%nat; Some 2%nat] 0 in
  let pick p := loadbalance.Pick p "/log.vX.Log/Consume" in
  let p1 := (pick p0).2 in let p2 := (pick p1).2 in let p3 := (pick p2).2 in
  [(pick p0).1; (pick p1).1; (pick p2).1; (pick p3).1]
  = [Ok (Some 2%nat, None); Ok (Some 1%nat, None);
     Ok (Some 2%nat, None); Ok (Some 1%nat, None)].
Proof. vm_compute. reflexivity. Qed.

(** ** Membership *)

Lemma join_members_spec local members :
  discovery.join_members local members
  = discovery.handleJoin <$> filter (fun m => discovery.isLocal local m = false) members.
Proof.
  induction members as [|m ms IH]; [reflexivity|].
  cbn [discovery.join_members]. rewrite filter_cons.
  destruct (discovery.isLocal local m) eqn:E.
  - rewrite decide_False by discriminate. exact IH.
  - rewrite decide_True by reflexivity. cbn. f_equal. exact IH.
Qed.

(** A leave or failed event without the local node reaches the handler for
    each of its members, like a join event. *)
Lemma leave_members_no_local local members :
  Forall (fun m => discovery.isLocal local m = false) members ->
  discovery.leave_members local members = (discovery.handleLeave <$> members, false).
Proof.
  induction 1 as [|m ms Hm _ IH]; [reflexivity|].
  cbn [discovery.leave_members]. rewrite Hm, IH. reflexivity.
Qed.


(** ** File names *)

Lemma string_app_inj_suffix (s1 s2 e1 e2 : string) :
  String.length e1 = String.length e2 -> s1 +:+ e1 = s2 +:+ e2 -> s1 = s2.
Proof.
  assert (Hlen : forall s t, String.length (s +:+ t) = (String.length s + String.length t)%nat).
  { induction s as [|c s IH]; intros t; simpl; [reflexivity|]. f_equal. apply IH. }
  revert s2. induction s1 as [|c s1 IH]; intros [|d s2] He H.
  - reflexivity.
  - exfalso. apply (f_equal String.length) in H. rewrite !Hlen in H. simpl in H. lia.
  - exfalso. apply (f_equal String.length) in H. rewrite !Hlen in H. simpl in H. lia.
  - simpl in H. injection H as -> H. f_equal. apply IH; assumption.
Qed.

Lemma file_name_inj b1 b2 e1 e2 :
  (e1 = ".store" \/ e1 = ".index") -> (e2 = ".store" \/ e2 = ".index") ->
  file_name b1 e1 = file_name b2 e2 -> b1 = b2.
Proof.
  intros H1 H2 H. unfold file_name in H.
  apply string_app_inj_suffix in H.
  - apply (inj pretty) in H. exact H.
  - destruct H1 as [-> | ->], H2 as [-> | ->]; reflexivity.
Qed.

Lemma dir_below_fresh dir B b ext :
  dir_below dir B -> B < b -> (ext = ".store" \/ ext = ".index") ->
  dir !! file_name b ext = None.
Proof.
  intros Hd Hb He. destruct (dir !! file_name b ext) eqn:E; [|reflexivity].
  destruct (Hd (file_name b ext)) as (b' & e' & Hn & He' & Hb'); [eauto|].
  apply file_name_inj in Hn; [lia|assumption..].
Qed.

(** ** Reading a frame back from the store *)

Lemma frame_at_app bytes more pos p :
  frame_at bytes pos p -> frame_at (bytes ++ more) pos p.
Proof.
  intros [H0 H]. split; [exact H0|].
  rewrite slice_app_l; [exact H|].
  destruct (Z_le_gt_dec (pos + (lenWidth + len p)) (len bytes)); [assumption|].
  rewrite slice_None_hi in H by lia. discriminate.
Qed.

Lemma frame_at_end bytes p : frame_at (bytes ++ frame p) (len bytes) p.
Proof.
  split; [apply len_nonneg|].
  pose proof (slice_app_mid bytes (frame p) []) as H.
  rewrite app_nil_r, len_frame in H. exact H.
Qed.

Lemma frame_at_bound bytes pos p :
  frame_at bytes pos p -> pos + (lenWidth + len p) <= len bytes.
Proof.
  intros [H0 H].
  destruct (Z_le_gt_dec (pos + (lenWidth + len p)) (len bytes)); [assumption|].
  rewrite slice_None_hi in H by lia. discriminate.
Qed.

Lemma store_Read_frame (st : store) pos p :
  frame_at (store_bytes st) pos p ->
  len (store_bytes st) < 2 ^ 63 ->
  store_Read st pos = (Ok p, buf_Flush st).
Proof.
  intros Hf Hlen. pose proof (frame_at_bound _ _ _ Hf) as Hb.
  destruct Hf as [H0 Hs]. pose proof (len_nonneg p) as Hp.
  unfold lenWidth in *.
  rewrite slice_Some in Hs by lia. apply (inj Some) in Hs.
  unfold store_Read. cbn [buf_Flush store_File]. fold (store_bytes st).
  unfold File_ReadAt, lenWidth.
  rewrite int64_small by lia.
  destruct (Z.ltb_spec pos 0); [lia|].
  assert (Hhead : take (Z.to_nat 8) (drop (Z.to_nat pos) (store_bytes st))
                  = BigEndian.PutUint64 (u64 (len p))).
  { replace (take (Z.to_nat 8) (drop (Z.to_nat pos) (store_bytes st)))
      with (take (Z.to_nat 8) (take (Z.to_nat (pos + (8 + len p) - pos))
                                 (drop (Z.to_nat pos) (store_bytes st))))
      by (rewrite take_take; f_equal; lia).
    rewrite Hs. unfold frame. apply take_app_length'.
    unfold BigEndian.PutUint64. rewrite put_length. reflexivity. }
  rewrite Hhead, len_PutUint64. cbn [Z.ltb Z.compare Pos.compare Pos.compare_cont].
  rewrite Uint64_PutUint64 by (unfold u64; apply Z.mod_pos_bound; lia).
  rewrite (u64_small (len p)) by lia.
  destruct (Z.leb_spec (2 ^ 63) (len p)); [lia|].
  rewrite (u64_small (pos + 8)) by lia. rewrite int64_small by lia.
  destruct (Z.ltb_spec (pos + 8) 0); [lia|].
  assert (Hbody : take (Z.to_nat (len p)) (drop (Z.to_nat (pos + 8)) (store_bytes st)) = p).
  { replace (Z.to_nat (pos + 8)) with (Z.to_nat pos + 8)%nat by lia.
    rewrite <- drop_drop, take_drop_commute.
    replace (8 + Z.to_nat (len p))%nat with (Z.to_nat (pos + (8 + len p) - pos)) by lia.
    rewrite Hs. unfold frame. apply drop_app_length'.
    unfold BigEndian.PutUint64. rewrite put_length. reflexivity. }
  rewrite Hbody. destruct (Z.ltb_spec (len p) (len p)); [lia|]. reflexivity.
Qed.

(** ** Segments that hold records *)

Section log_proofs.

Variable Marshal : api_Record -> result (list Z).
Variable Unmarshal : list Z -> api_Record.

(** The codec law: what was marshalled is unmarshalled to the same
    record. *)
Hypothesis Unmarshal_Marshal : forall r p, Marshal r = Ok p -> Unmarshal p = r.

Lemma segment_isMaxed_false c s recs :
  config_ok c -> segment_rep Marshal c s recs ->
  segment_isMaxed s = false
  <-> store_size (seg_store s) < MaxStoreBytes c
      /\ entWidth * (len recs + 1) <= MaxIndexBytes c.
Proof.
  intros [Hst Hix] (Hc & Hb & Hn & Hn64 & Hsz & Hsz63 & Hemp & Hmm & es & Hes & Hrep & Hk).
  destruct Hrep as (Hisz & Hile & Hi63 & _ & _).
  assert (Hlen : len es = len recs) by (unfold len; lia).
  pose proof (len_nonneg recs) as Hr.
  unfold segment_isMaxed, index_isMaxed. rewrite Hc, Hisz, Hmm, Hlen.
  unfold entWidth, offWidth, posWidth in *.
  rewrite u64_small by lia.
  rewrite !orb_false_iff, !Z.leb_gt, Z.ltb_ge. lia.
Qed.

Lemma segment_isMaxed_empty c s :
  config_ok c -> segment_rep Marshal c s [] -> segment_isMaxed s = false.
Proof.
  intros Hc Hs. apply (segment_isMaxed_false c s [] Hc Hs).
  destruct Hc as [Hst Hix].
  destruct Hs as (_ & _ & _ & _ & _ & _ & Hemp & _).
  rewrite (Hemp eq_refl). change (len (@nil api_Record)) with 0. lia.
Qed.

Lemma newSegment_fresh (dir : directory) base c :
  config_ok c -> 0 <= base < 2 ^ 64 ->
  dir !! file_name base ".store" = None ->
  dir !! file_name base ".index" = None ->
  exists s,
    newSegment dir base c
    = (Ok s, <[file_name base ".index" := truncate_to (MaxIndexBytes c) []]>
               (<[file_name base ".store" := []]> dir))
    /\ segment_rep Marshal c s []
    /\ baseOffset s = base.
Proof.
  intros [Hst Hix] Hb Hs Hi.
  unfold entWidth, offWidth, posWidth in *.
  unfold newSegment, newIndex.
  rewrite lookup_insert_ne by apply store_index_names_differ.
  rewrite Hs, Hi. cbn [default].
  rewrite int64_small by lia.
  destruct (Z.ltb_spec (MaxIndexBytes c) 0); [lia|].
  destruct (Z.eqb_spec (MaxIndexBytes c) 0); [lia|].
  change (u64 (len (@nil Z))) with 0.
  unfold index_Read at 1. cbn [index_size Z.eqb].
  eexists. split; [reflexivity|]. split; [|reflexivity].
  unfold segment_rep, newStore, store_bytes.
  cbn [seg_config baseOffset nextOffset seg_store seg_index store_size store_File
       store_buf index_mmap app].
  change (len (@nil api_Record)) with 0. change (u64 (len (@nil Z))) with 0.
  change (len (@nil Z)) with 0.
  rewrite len_truncate_to by lia.
  repeat (split; [first [reflexivity | lia]|]).
  exists []. split; [reflexivity|]. split.
  - apply index_rep_empty. rewrite len_truncate_to; lia.
  - intros k r e Hk. rewrite lookup_nil in Hk. discriminate.
Qed.

Lemma segment_Append_rep c s recs record p :
  config_ok c -> store_fits Marshal c ->
  segment_rep Marshal c s recs ->
  segment_isMaxed s = false ->
  Marshal (set_Offset record (nextOffset s)) = Ok p ->
  exists s',
    segment_Append Marshal s record
    = (Ok (nextOffset s), s', set_Offset record (nextOffset s))
    /\ baseOffset s' = baseOffset s
    /\ (nextOffset s + 1 < 2 ^ 64 ->
        segment_rep Marshal c s' (recs ++ [set_Offset record (nextOffset s)])).
Proof.
  intros Hcfg Hfits Hrep Hmax HM.
  pose proof (proj1 (segment_isMaxed_false c s recs Hcfg Hrep) Hmax) as [Hroom_st Hroom_ix].
  destruct Hcfg as [Hst Hix].
  destruct Hrep as (Hc & Hb & Hn & Hn64 & Hsz & Hsz63 & Hemp & Hmm & es & Hes & Hirep & Hk).
  pose proof (Hfits _ _ HM) as Hp63. pose proof (len_nonneg p) as Hp.
  pose proof (len_nonneg recs) as Hr.
  assert (Hlen : len es = len recs) by (unfold len; lia).
  destruct (store_Append_step (seg_store s) p Hsz) as (st' & HSA & _ & HF & HB & HS);
    [unfold lenWidth in *; lia|].
  assert (Hrel : u32 (u64 (nextOffset s - baseOffset s)) = len recs).
  { rewrite Hn. replace (baseOffset s + len recs - baseOffset s) with (len recs) by lia.
    unfold entWidth, offWidth, posWidth in *.
    rewrite u64_small by lia. apply u32_small. lia. }
  destruct (index_Write_rep (seg_index s) es (len recs) (store_size (seg_store s)) Hirep)
    as (ix' & HW & Hirep' & _ & Hmm').
  { split; cbn [fst snd]; unfold entWidth, offWidth, posWidth in *; [lia|].
    pose proof (len_nonneg (store_bytes (seg_store s))). lia. }
  { destruct Hirep as (Hisz & _). rewrite Hisz, Hlen, Hmm.
    unfold entWidth, offWidth, posWidth in *. lia. }
  eexists. unfold segment_Append. rewrite HM, HSA, Hrel, HW.
  split; [reflexivity|]. split; [reflexivity|]. intros Hnext.
  unfold segment_rep.
  cbn [seg_config baseOffset nextOffset seg_store seg_index].
  assert (Hbytes : store_bytes st' = store_bytes (seg_store s) ++ frame p).
  { unfold store_bytes. rewrite HF, HB, app_assoc. reflexivity. }
  rewrite Hbytes, HS, !len_app, len_frame, Hmm'.
  rewrite (u64_small (nextOffset s + 1)) by lia.
  change (len [set_Offset record (nextOffset s)]) with 1.
  unfold lenWidth in *.
  split; [exact Hc|]. split; [exact Hb|]. split; [lia|]. split; [lia|].
  split; [lia|]. split; [lia|]. split.
  { intros Hnil. apply app_eq_nil in Hnil as [_ Hnil]. discriminate. }
  split; [exact Hmm|].
  exists (es ++ [(len recs, store_size (seg_store s))]).
  split; [rewrite !length_app; cbn; lia|]. split; [exact Hirep'|].
  intros k r e Hkr Hke.
  destruct (decide (k < length recs)%nat) as [Hlt|Hge].
  - rewrite lookup_app_l in Hkr by exact Hlt.
    rewrite lookup_app_l in Hke by lia.
    destruct (Hk k r e Hkr Hke) as (H1 & H2 & q & Hq & Hfr).
    split; [exact H1|]. split; [exact H2|].
    exists q. split; [exact Hq|]. apply frame_at_app, Hfr.
  - apply lookup_app_Some in Hkr as [Hkr|[_ Hkr]].
    { apply lookup_lt_Some in Hkr. lia. }
    apply lookup_app_Some in Hke as [Hke|[_ Hke]].
    { apply lookup_lt_Some in Hke. lia. }
    apply list_lookup_singleton_Some in Hkr as [Hk0 <-].
    apply list_lookup_singleton_Some in Hke as [_ <-].
    assert (k = length recs) by lia. subst k.
    cbn [fst snd Offset set_Offset]. split; [reflexivity|].
    split; [rewrite Hn; reflexivity|].
    exists p. split; [exact HM|]. rewrite Hsz. apply frame_at_end.
Qed.

Lemma segment_rep_flush c s recs :
  segment_rep Marshal c s recs ->
  segment_rep Marshal c
    (mkSegment (buf_Flush (seg_store s)) (seg_index s) (baseOffset s) (nextOffset s)
               (seg_config s)) recs.
Proof.
  unfold segment_rep, store_bytes.
  cbn [seg_config baseOffset nextOffset seg_store seg_index buf_Flush
       store_File store_buf store_size].
  rewrite app_nil_r. auto.
Qed.

Lemma segment_Read_rep c s recs k r :
  segment_rep Marshal c s recs -> config_ok c ->
  recs !! k = Some r ->
  segment_Read Unmarshal s (baseOffset s + Z.of_nat k)
  = (Ok r, mkSegment (buf_Flush (seg_store s)) (seg_index s) (baseOffset s)
                     (nextOffset s) (seg_config s)).
Proof.
  intros Hrep [Hst Hix] Hkr.
  destruct Hrep as (Hc & Hb & Hn & Hn64 & Hsz & Hsz63 & Hemp & Hmm & es & Hes & Hirep & Hk).
  pose proof (lookup_lt_Some _ _ _ Hkr) as Hklt.
  destruct (lookup_lt_is_Some_2 es k) as [e Hke]; [lia|].
  destruct (Hk k r e Hkr Hke) as (He1 & Hoff & p & HM & Hfr).
  assert (Hcap : len es <= 2 ^ 32).
  { destruct Hirep as (Hisz & Hile & _). rewrite Hisz, Hmm in Hile.
    unfold entWidth, offWidth, posWidth in *. lia. }
  assert (Hk32 : 0 <= Z.of_nat k < 2 ^ 32) by (unfold len in *; lia).
  unfold segment_Read.
  replace (baseOffset s + Z.of_nat k - baseOffset s) with (Z.of_nat k) by lia.
  rewrite u64_small by lia. rewrite int64_small by lia.
  rewrite (index_Read_rep (seg_index s) es (Z.of_nat k) Hirep Hcap) by lia.
  destruct (Z.eqb_spec (Z.of_nat k) (-1)); [lia|].
  rewrite Nat2Z.id, Hke. destruct e as [off pos]. cbn [fst snd] in *.
  rewrite (store_Read_frame (seg_store s) pos p Hfr) by lia.
  rewrite (Unmarshal_Marshal _ _ HM). reflexivity.
Qed.

(** ** Logs that hold records *)

Lemma chunk_base_S first chunks i recs :
  chunks !! i = Some recs ->
  chunk_base first chunks (S i) = chunk_base first chunks i + len recs.
Proof.
  intros H. unfold chunk_base. rewrite (take_S_r _ _ _ H), concat_app, len_app.
  cbn. rewrite app_nil_r. lia.
Qed.

Lemma chunk_base_all first chunks i :
  (length chunks <= i)%nat -> chunk_base first chunks i = first + len (concat chunks).
Proof. intros H. unfold chunk_base. rewrite take_ge by exact H. reflexivity. Qed.

Lemma chunk_base_mono first chunks i j :
  (i <= j)%nat -> chunk_base first chunks i <= chunk_base first chunks j.
Proof.
  intros H. unfold chunk_base.
  replace j with (i + (j - i))%nat by lia.
  rewrite <- take_take_drop, concat_app, len_app.
  pose proof (len_nonneg (concat (take (j - i) (drop i chunks)))). lia.
Qed.

Lemma chunk_base_snoc first pre recs :
  chunk_base first (pre ++ [recs]) (length pre) = first + len (concat pre).
Proof. unfold chunk_base. rewrite take_app_length. reflexivity. Qed.

Lemma Log_rep_lookup l first chunks i p :
  Log_rep Marshal l first chunks -> Log_segments l !! i = Some p ->
  exists recs s,
    chunks !! i = Some recs /\ Log_heap l !! p = Some s
    /\ segment_rep Marshal (Log_Config l) s recs
    /\ baseOffset s = chunk_base first chunks i.
Proof.
  intros (_ & _ & _ & _ & Hlen & Hseg & _) Hp.
  destruct (lookup_lt_is_Some_2 chunks i) as [recs Hr].
  { rewrite Hlen. eapply lookup_lt_Some, Hp. }
  destruct (Hseg i p recs Hp Hr) as (s & Hs & Hrep & Hb). eauto 6.
Qed.

Lemma list_snoc_cases {A} (l : list A) : l <> [] -> exists l' x, l = l' ++ [x].
Proof.
  induction l as [|x l' _] using rev_ind; [contradiction|]. intros _. eauto.
Qed.

(** The active segment is the last one, and holds the last chunk. *)
Lemma Log_rep_active l first chunks :
  Log_rep Marshal l first chunks ->
  exists ptrs pa pre recs a,
    Log_segments l = ptrs ++ [pa] /\ chunks = pre ++ [recs]
    /\ length pre = length ptrs
    /\ Log_activeSegment l = Some pa
    /\ Log_heap l !! pa = Some a
    /\ segment_rep Marshal (Log_Config l) a recs
    /\ baseOffset a = first + len (concat pre)
    /\ nextOffset a = first + len (concat chunks).
Proof.
  intros Hrep. pose proof Hrep as (_ & _ & Hne & Hact & Hlen & _ & _).
  destruct (list_snoc_cases _ Hne) as (ps & p0 & Eseg).
  assert (Hcne : chunks <> []).
  { intros ->. rewrite Eseg, length_app in Hlen. cbn in Hlen. lia. }
  destruct (list_snoc_cases _ Hcne) as (pre & recs & ->).
  rewrite Eseg, !length_app in Hlen. cbn in Hlen.
  destruct (Log_rep_lookup l first (pre ++ [recs]) (length ps) p0 Hrep)
    as (recs' & a & Hr & Ha & Hsr & Hb).
  { rewrite Eseg. apply list_lookup_middle. reflexivity. }
  assert (Hlp : length pre = length ps) by lia.
  rewrite <- Hlp in Hr, Hb. rewrite list_lookup_middle in Hr by reflexivity.
  injection Hr as <-. rewrite chunk_base_snoc in Hb.
  exists ps, p0, pre, recs, a. rewrite Eseg, last_snoc in Hact.
  repeat (split; [first [reflexivity | assumption]|]).
  destruct Hsr as (_ & _ & Hn & _). rewrite Hn, Hb, concat_app, len_app.
  cbn. rewrite app_nil_r. lia.
Qed.

(** Replacing the object of segment [i] by one that holds [recs'] at the
    same base, when this moves no chunk. *)
Lemma Log_rep_update l first chunks i p recs' s' :
  Log_rep Marshal l first chunks ->
  Log_segments l !! i = Some p ->
  segment_rep Marshal (Log_Config l) s' recs' ->
  baseOffset s' = chunk_base first chunks i ->
  (forall k, (k < length chunks)%nat ->
     chunk_base first (<[i := recs']> chunks) k = chunk_base first chunks k) ->
  Log_rep Marshal
    (mkLog (Log_Dir l) (Log_Config l) (<[p := s']> (Log_heap l))
           (Log_segments l) (Log_activeSegment l))
    first (<[i := recs']> chunks).
Proof.
  intros Hrep Hp Hs' Hb' Hsame.
  destruct (Log_rep_lookup l first chunks i p Hrep Hp) as (recs & s & Hr & Hs & _ & _).
  destruct Hrep as (Hcfg & Hnd & Hne & Hact & Hlen & Hseg & Hdir).
  pose proof (lookup_lt_Some _ _ _ Hr) as Hi.
  unfold Log_rep. cbn [Log_Dir Log_Config Log_heap Log_segments Log_activeSegment].
  rewrite length_insert.
  repeat (split; [assumption|]). split.
  - intros j q recs_j Hq Hrj.
    destruct (decide (j = i)) as [->|Hji].
    + rewrite Hp in Hq. injection Hq as <-.
      rewrite list_lookup_insert_eq in Hrj by exact Hi. injection Hrj as <-.
      exists s'. split; [apply list_lookup_insert_eq; eapply lookup_lt_Some, Hs|].
      split; [exact Hs'|].
      fold (chunk_base first (<[i:=recs']> chunks) i).
      rewrite Hsame by exact Hi. exact Hb'.
    + rewrite list_lookup_insert_ne in Hrj by congruence.
      destruct (Hseg j q recs_j Hq Hrj) as (t & Ht & Htr & Htb).
      exists t. split.
      * rewrite list_lookup_insert_ne; [exact Ht|].
        intros ->. apply Hji. symmetry. eapply NoDup_lookup; eassumption.
      * split; [exact Htr|]. fold (chunk_base first chunks j) in Htb.
        fold (chunk_base first (<[i:=recs']> chunks) j).
        rewrite Hsame by (eapply lookup_lt_Some, Hrj). exact Htb.
  - fold (chunk_base first (<[i:=recs']> chunks) (pred (length chunks))).
    fold (chunk_base first chunks (pred (length chunks))) in Hdir.
    rewrite Hsame by lia. exact Hdir.
Qed.

(** A read flushes the store of segment [i] and changes nothing else. *)
Lemma Log_rep_flush l first chunks i p s :
  Log_rep Marshal l first chunks ->
  Log_segments l !! i = Some p -> Log_heap l !! p = Some s ->
  Log_rep Marshal
    (mkLog (Log_Dir l) (Log_Config l)
       (<[p := mkSegment (buf_Flush (seg_store s)) (seg_index s) (baseOffset s)
                         (nextOffset s) (seg_config s)]> (Log_heap l))
       (Log_segments l) (Log_activeSegment l))
    first chunks.
Proof.
  intros Hrep Hp Hs.
  destruct (Log_rep_lookup l first chunks i p Hrep Hp) as (recs & s0 & Hr & Hs0 & Hsr & Hb).
  rewrite Hs in Hs0. injection Hs0 as <-.
  rewrite <- (list_insert_id chunks i recs Hr).
  apply Log_rep_update; try assumption.
  - apply segment_rep_flush, Hsr.
  - intros k _. rewrite list_insert_id by exact Hr. reflexivity.
Qed.

(** An append to the active segment that needs no new segment. *)
Lemma Log_rep_append_active l first pre recs ptrs pa s' r :
  Log_rep Marshal l first (pre ++ [recs]) ->
  Log_segments l = ptrs ++ [pa] -> length pre = length ptrs ->
  segment_rep Marshal (Log_Config l) s' (recs ++ [r]) ->
  baseOffset s' = first + len (concat pre) ->
  Log_rep Marshal
    (mkLog (Log_Dir l) (Log_Config l) (<[pa := s']> (Log_heap l))
           (Log_segments l) (Log_activeSegment l))
    first (pre ++ [recs ++ [r]]).
Proof.
  intros Hrep Hseg Hlen Hs' Hb'.
  replace (pre ++ [recs ++ [r]]) with (<[length pre := recs ++ [r]]> (pre ++ [recs])).
  2: { replace (length pre) with (length pre + 0)%nat at 1 by lia.
       rewrite insert_app_r. reflexivity. }
  apply Log_rep_update; try assumption.
  - rewrite Hseg, Hlen. apply list_lookup_middle. reflexivity.
  - rewrite chunk_base_snoc. exact Hb'.
  - intros k Hk. rewrite length_app in Hk. cbn in Hk.
    unfold chunk_base. rewrite take_insert_ge by lia. reflexivity.
Qed.

Lemma dir_below_newSegment dir B base content1 content2 :
  dir_below dir B -> B <= base -> 0 <= base ->
  dir_below (<[file_name base ".index" := content1]>
               (<[file_name base ".store" := content2]> dir)) base.
Proof.
  intros Hd HB H0 name Hname.
  destruct (decide (file_name base ".index" = name)) as [<-|Hn1].
  { exists base, ".index". split; [reflexivity|]. split; [right; reflexivity|lia]. }
  rewrite lookup_insert_ne in Hname by exact Hn1.
  destruct (decide (file_name base ".store" = name)) as [<-|Hn2].
  { exists base, ".store". split; [reflexivity|]. split; [left; reflexivity|lia]. }
  rewrite lookup_insert_ne in Hname by exact Hn2.
  destruct (Hd name Hname) as (b & ext & -> & He & Hb).
  exists b, ext. split; [reflexivity|]. split; [exact He|lia].
Qed.

(** Rotation: the active segment holds a record, so the files of the next
    base do not exist yet, and the new segment is empty. *)
Lemma Log_rep_rotate l first chunks recs :
  Log_rep Marshal l first chunks ->
  last chunks = Some recs -> recs <> [] ->
  first + len (concat chunks) < 2 ^ 64 ->
  exists l',
    Log_newSegment l (first + len (concat chunks)) = (Ok tt, l')
    /\ Log_rep Marshal l' first (chunks ++ [[]])
    /\ Log_Config l' = Log_Config l.
Proof.
  intros Hrep Hlast Hne Hnext.
  destruct (Log_rep_active l first chunks Hrep)
    as (ptrs & pa & pre & recs' & a & Eseg & -> & Hlp & Hact & Ha & Har & Hab & Han).
  rewrite last_snoc in Hlast. injection Hlast as ->.
  destruct Hrep as (Hcfg & Hnd & Hsne & Hact' & Hlen & Hseg & Hdir).
  rewrite length_app in Hdir. cbn [length] in Hdir.
  replace (pred (length pre + 1)) with (length pre) in Hdir by lia.
  rewrite take_app_length in Hdir.
  assert (Hrecs : 0 < len recs).
  { unfold len. destruct recs; [contradiction|]. cbn. lia. }
  assert (Hbase : 0 <= first + len (concat pre))
    by (destruct Har as (_ & H0 & _); lia).
  rewrite concat_app, len_app in Hnext |- *. cbn [concat] in Hnext |- *.
  rewrite app_nil_r in Hnext |- *.
  set (next := first + (len (concat pre) + len recs)) in *.
  destruct (newSegment_fresh (Log_Dir l) next (Log_Config l) Hcfg) as (s & HN & Hsr & Hsb).
  { lia. }
  { eapply dir_below_fresh; [exact Hdir|unfold next; lia|left; reflexivity]. }
  { eapply dir_below_fresh; [exact Hdir|unfold next; lia|right; reflexivity]. }
  eexists. unfold Log_newSegment. rewrite HN. split; [reflexivity|].
  split; [|reflexivity].
  unfold Log_rep. cbn [Log_Dir Log_Config Log_heap Log_segments Log_activeSegment].
  assert (Hvalid : forall q, q ∈ Log_segments l -> (q < length (Log_heap l))%nat).
  { intros q Hq. apply list_elem_of_lookup in Hq as [j Hj].
    destruct (lookup_lt_is_Some_2 (pre ++ [recs]) j) as [rj Hrj].
    { rewrite Hlen. eapply lookup_lt_Some, Hj. }
    destruct (Hseg j q rj Hj Hrj) as (t & Ht & _). eapply lookup_lt_Some, Ht. }
  split; [exact Hcfg|]. split.
  { apply NoDup_app. split; [exact Hnd|]. split; [|apply NoDup_singleton].
    intros q Hq Hq'. apply list_elem_of_singleton in Hq'. apply Hvalid in Hq. lia. }
  split; [destruct (Log_segments l); discriminate|].
  split; [rewrite last_snoc; reflexivity|].
  split; [rewrite !length_app; cbn; rewrite !length_app in Hlen; cbn in Hlen; lia|].
  split.
  - intros j q rj Hq Hrj.
    destruct (decide (j < length (Log_segments l))%nat) as [Hlt|Hge].
    + rewrite lookup_app_l in Hq by exact Hlt.
      rewrite lookup_app_l in Hrj by lia.
      destruct (Hseg j q rj Hq Hrj) as (t & Ht & Htr & Htb).
      exists t. split; [apply lookup_app_l_Some, Ht|]. split; [exact Htr|].
      rewrite take_app_le by lia. exact Htb.
    + apply lookup_app_Some in Hq as [Hq|[_ Hq]].
      { apply lookup_lt_Some in Hq. lia. }
      apply list_lookup_singleton_Some in Hq as [Hj0 <-].
      assert (j = length (pre ++ [recs])) by lia. subst j.
      rewrite list_lookup_middle in Hrj by reflexivity. injection Hrj as <-.
      exists s. split; [apply list_lookup_middle; reflexivity|].
      split; [exact Hsr|]. rewrite take_app_length, Hsb.
      unfold next. rewrite concat_app, len_app. cbn. rewrite app_nil_r. reflexivity.
  - rewrite length_app. cbn [length].
    replace (pred (length (pre ++ [recs]) + 1)) with (length (pre ++ [recs])) by lia.
    rewrite take_app_length, concat_app, len_app. cbn [concat]. rewrite app_nil_r.
    fold next. eapply dir_below_newSegment; [exact Hdir|unfold next; lia|lia].
Qed.

Lemma Log_highestOffset_rep l first chunks :
  Log_rep Marshal l first chunks ->
  Log_highestOffset l
  = Ok (if first + len (concat chunks) =? 0 then 0
        else u64 (first + len (concat chunks) - 1)).
Proof.
  intros Hrep.
  destruct (Log_rep_active l first chunks Hrep)
    as (ptrs & pa & pre & recs & a & Eseg & -> & Hlp & Hact & Ha & Har & Hab & Han).
  unfold Log_highestOffset. rewrite Eseg, last_snoc, Ha, Han.
  destruct (_ =? 0); reflexivity.
Qed.

(** The first half of [Append]: after the new segment is made, if one is
    needed, the log holds the same records, its active segment has room,
    and what is left is the append to that segment. *)
Lemma Log_Append_prepare l first chunks record :
  Log_rep Marshal l first chunks ->
  exists l1 ptrs pa pre recs a,
    Log_rep Marshal l1 first (pre ++ [recs])
    /\ concat (pre ++ [recs]) = concat chunks
    /\ Log_Config l1 = Log_Config l
    /\ Log_segments l1 = ptrs ++ [pa] /\ length pre = length ptrs
    /\ Log_activeSegment l1 = Some pa
    /\ Log_heap l1 !! pa = Some a
    /\ segment_rep Marshal (Log_Config l1) a recs
    /\ baseOffset a = first + len (concat pre)
    /\ nextOffset a = first + len (concat chunks)
    /\ segment_isMaxed a = false
    /\ Log_Append Marshal l record
       = (let '(r, s', record') := segment_Append Marshal a record in
          (r, mkLog (Log_Dir l1) (Log_Config l1) (<[pa := s']> (Log_heap l1))
                    (Log_segments l1) (Log_activeSegment l1), record')).
Proof.
  intros Hrep.
  pose proof (Log_highestOffset_rep l first chunks Hrep) as Hhi.
  destruct (Log_rep_active l first chunks Hrep)
    as (ptrs & pa & pre & recs & a & Eseg & Echunks & Hlp & Hact & Ha & Har & Hab & Han).
  pose proof Hrep as (Hcfg & _).
  set (next := first + len (concat chunks)) in *.
  assert (Hn64 : next < 2 ^ 64) by (destruct Har as (_ & _ & _ & H & _); lia).
  unfold Log_Append. rewrite Hhi, Hact. cbn [mbind option_bind]. rewrite Ha.
  destruct (segment_isMaxed a) eqn:Emax.
  - (* the active segment is full: a new one is made *)
    assert (Hne : recs <> []).
    { intros ->. rewrite (segment_isMaxed_empty _ _ Hcfg Har) in Emax. discriminate. }
    assert (Hpos : 1 <= next).
    { destruct Har as (_ & H0 & Hn & _). rewrite Han in Hn.
      assert (0 < len recs) by (unfold len; destruct recs; [contradiction|cbn; lia]).
      lia. }
    destruct (Z.eqb_spec next 0); [lia|].
    rewrite (u64_small (next - 1)) by lia.
    replace (next - 1 + 1) with next by lia. rewrite (u64_small next) by lia.
    destruct (Log_rep_rotate l first chunks recs Hrep) as (l1 & HN & Hrep1 & Hc1);
      [rewrite Echunks; apply last_snoc|exact Hne|fold next; lia|].
    fold next in HN. rewrite HN.
    destruct (Log_rep_active l1 first _ Hrep1)
      as (ptrs1 & pa1 & pre1 & recs1 & a1 & Eseg1 & Ech1 & Hlp1 & Hact1 & Ha1 & Har1 & Hab1 & Han1).
    apply app_inj_tail in Ech1 as [<- <-].
    rewrite concat_app in Han1. cbn [concat] in Han1. rewrite !app_nil_r in Han1.
    fold next in Han1.
    exists l1, ptrs1, pa1, chunks, [], a1.
    split; [exact Hrep1|].
    split; [rewrite concat_app; cbn; rewrite !app_nil_r; reflexivity|].
    do 8 (split; [assumption|]).
    split; [apply (segment_isMaxed_empty (Log_Config l1)); [rewrite Hc1|]; assumption|].
    rewrite Hact1, Ha1. destruct (segment_Append Marshal a1 record) as [[r s'] record'].
    reflexivity.
  - (* there is room in the active segment *)
    exists l, ptrs, pa, pre, recs, a. rewrite <- Echunks.
    split; [exact Hrep|]. split; [reflexivity|]. split; [reflexivity|].
    do 7 (split; [assumption|]). split; [exact Emax|].
    rewrite Hact, Ha. destruct (segment_Append Marshal a record) as [[r s'] record'].
    reflexivity.
Qed.

(** An append on a log that holds [chunks], by the outcome of the
    marshalling.  On success the offset returned is the next one, and the
    log then holds the record as well (as long as the next offset after it
    is a [uint64]); on an error the log holds what it held. *)
Lemma Log_Append_cases l first chunks record :
  Log_rep Marshal l first chunks -> store_fits Marshal (Log_Config l) ->
  let next := first + len (concat chunks) in
  let record' := set_Offset record next in
  match Marshal record' with
  | Ok _ =>
      exists l',
        Log_Append Marshal l record = (Ok next, l', record')
        /\ (next + 1 < 2 ^ 64 ->
            exists chunks',
              Log_rep Marshal l' first chunks'
              /\ concat chunks' = concat chunks ++ [record']
              /\ Log_Config l' = Log_Config l)
  | Err e =>
      exists l' chunks',
        Log_Append Marshal l record = (Err e, l', record')
        /\ Log_rep Marshal l' first chunks'
        /\ concat chunks' = concat chunks
        /\ Log_Config l' = Log_Config l
  | Panic m =>
      exists l', Log_Append Marshal l record = (Panic m, l', record')
  end.
Proof.
  intros Hrep Hfits next record'.
  destruct (Log_Append_prepare l first chunks record Hrep)
    as (l1 & ptrs & pa & pre & recs & a & Hrep1 & Hcat & Hc1 & Eseg & Hlp & Hact & Ha
        & Har & Hab & Han & Hmax & HA).
  fold next in Han. pose proof Hrep1 as (Hcfg1 & _).
  destruct (Marshal record') as [p|e|m] eqn:HM.
  - destruct (segment_Append_rep (Log_Config l1) a recs record p) as (s' & HSA & Hsb & Hsr);
      try assumption; [rewrite Hc1; exact Hfits|rewrite Han; exact HM|].
    rewrite Han in HSA, Hsr. rewrite HA, HSA.
    eexists. split; [reflexivity|]. intros Hnext.
    exists (pre ++ [recs ++ [record']]). split; [|split; [|exact Hc1]].
    + apply (Log_rep_append_active l1 first pre recs ptrs pa); try assumption.
      * apply Hsr, Hnext.
      * rewrite Hsb. exact Hab.
    + rewrite <- Hcat, !concat_app. cbn. rewrite !app_nil_r, app_assoc. reflexivity.
  - rewrite HA. unfold segment_Append. rewrite Han. fold record'. rewrite HM.
    rewrite (list_insert_id _ _ _ Ha).
    eexists. exists (pre ++ [recs]). split; [reflexivity|].
    split; [|split; [exact Hcat|exact Hc1]].
    destruct l1; exact Hrep1.
  - rewrite HA. unfold segment_Append. rewrite Han. fold record'. rewrite HM.
    eexists. reflexivity.
Qed.

Lemma concat_lookup_chunk {A} (chunks : list (list A)) : forall n x,
  concat chunks !! n = Some x ->
  exists i recs k,
    chunks !! i = Some recs /\ recs !! k = Some x
    /\ n = (length (concat (take i chunks)) + k)%nat.
Proof.
  induction chunks as [|c cs IH]; intros n x Hn; cbn in Hn.
  - rewrite lookup_nil in Hn. discriminate.
  - apply lookup_app_Some in Hn as [Hn|[Hge Hn]].
    + exists 0%nat, c, n. split; [reflexivity|]. split; [exact Hn|reflexivity].
    + destruct (IH _ _ Hn) as (i & recs & k & Hi & Hk & Heq).
      exists (S i), recs, k. split; [exact Hi|]. split; [exact Hk|].
      cbn. rewrite length_app. lia.
Qed.

Lemma find_segment_rep l first chunks i p recs k :
  Log_rep Marshal l first chunks ->
  Log_segments l !! i = Some p -> chunks !! i = Some recs ->
  (k < length recs)%nat ->
  find_segment (Log_heap l) (Log_segments l) (chunk_base first chunks i + Z.of_nat k)
  = Ok (Some p).
Proof.
  intros Hrep Hp Hr Hk.
  assert (Haux : forall rest done,
    Log_segments l = done ++ rest -> (length done <= i)%nat ->
    find_segment (Log_heap l) rest (chunk_base first chunks i + Z.of_nat k) = Ok (Some p)).
  { induction rest as [|q rest IH]; intros done Hsplit Hdone.
    - exfalso. apply lookup_lt_Some in Hp. rewrite Hsplit, app_nil_r in Hp. lia.
    - assert (Hq : Log_segments l !! length done = Some q)
        by (rewrite Hsplit; apply list_lookup_middle; reflexivity).
      destruct (Log_rep_lookup l first chunks _ q Hrep Hq) as (rj & sj & Hrj & Hsj & Hsr & Hbj).
      destruct Hsr as (_ & _ & Hnj & _).
      cbn [find_segment]. rewrite Hsj.
      destruct (decide (length done = i)) as [Hdi|Hdi].
      + rewrite Hdi in Hq, Hrj, Hbj. rewrite Hp in Hq. injection Hq as <-.
        rewrite Hr in Hrj. injection Hrj as <-.
        rewrite Hnj, Hbj.
        destruct (Z.leb_spec (chunk_base first chunks i)
                    (chunk_base first chunks i + Z.of_nat k)); [|lia].
        destruct (Z.ltb_spec (chunk_base first chunks i + Z.of_nat k)
                    (chunk_base first chunks i + len recs)); [reflexivity|].
        unfold len in *. lia.
      + pose proof (chunk_base_S first chunks _ _ Hrj) as HS.
        pose proof (chunk_base_mono first chunks (S (length done)) i ltac:(lia)) as Hmono.
        rewrite Hnj, Hbj.
        destruct (Z.ltb_spec (chunk_base first chunks i + Z.of_nat k)
                    (chunk_base first chunks (length done) + len rj)); [lia|].
        rewrite andb_false_r.
        apply (IH (done ++ [q])).
        * rewrite <- app_assoc. exact Hsplit.
        * rewrite length_app. cbn. lia. }
  apply (Haux (Log_segments l) []); [reflexivity|cbn; lia].
Qed.

(** A read of the offset of a record the log holds returns the record. *)
Lemma Log_Read_rep l first chunks n r :
  Log_rep Marshal l first chunks ->
  concat chunks !! n = Some r ->
  exists l',
    Log_Read Unmarshal l (first + Z.of_nat n) = (Ok r, l')
    /\ Log_rep Marshal l' first chunks
    /\ Log_Config l' = Log_Config l.
Proof.
  intros Hrep Hn.
  destruct (concat_lookup_chunk chunks n r Hn) as (i & recs & k & Hi & Hk & ->).
  pose proof Hrep as (Hcfg & _ & _ & _ & Hlen & _).
  destruct (lookup_lt_is_Some_2 (Log_segments l) i) as [p Hp].
  { rewrite <- Hlen. eapply lookup_lt_Some, Hi. }
  destruct (Log_rep_lookup l first chunks i p Hrep Hp) as (recs' & s & Hr' & Hs & Hsr & Hb).
  rewrite Hi in Hr'. injection Hr' as <-.
  pose proof (lookup_lt_Some _ _ _ Hk) as Hklt.
  replace (first + Z.of_nat (length (concat (take i chunks)) + k))
    with (chunk_base first chunks i + Z.of_nat k) by (unfold chunk_base, len; lia).
  unfold Log_Read.
  rewrite (find_segment_rep l first chunks i p recs k Hrep Hp Hi Hklt), Hs.
  pose proof Hsr as (_ & _ & Hnx & _).
  destruct (Z.leb_spec (nextOffset s) (chunk_base first chunks i + Z.of_nat k)) as [Hle|_].
  { unfold len in *. lia. }
  rewrite <- Hb.
  rewrite (segment_Read_rep (Log_Config l) s recs k r Hsr Hcfg Hk).
  eexists. split; [reflexivity|]. split; [|reflexivity].
  eapply Log_rep_flush; eassumption.
Qed.

Lemma InitialOffset_defaulted c : InitialOffset (defaulted c) = InitialOffset c.
Proof.
  unfold defaulted.
  destruct (MaxStoreBytes c =? 0); cbn; destruct (_ =? 0); reflexivity.
Qed.

(** A log made on an empty directory holds no record, in one segment at
    the initial offset. *)
Lemma NewLog_fresh c :
  config_ok (defaulted c) -> 0 <= InitialOffset c < 2 ^ 64 ->
  exists l,
    NewLog ∅ c = (Ok tt, l)
    /\ Log_rep Marshal l (InitialOffset c) [[]]
    /\ Log_Config l = defaulted c.
Proof.
  intros Hcfg Hinit.
  change (NewLog ∅ c) with (setup (mkLog ∅ (defaulted c) [] [] None)).
  unfold setup. cbn [Log_Dir]. rewrite map_to_list_empty.
  cbn [fmap list_fmap]. change (merge_sort Z.le []) with (@nil Z).
  cbn [setup_loop Log_segments Log_Config]. rewrite InitialOffset_defaulted.
  destruct (newSegment_fresh ∅ (InitialOffset c) (defaulted c) Hcfg Hinit)
    as (s & HN & Hsr & Hsb); [apply lookup_empty..|].
  unfold Log_newSegment. cbn [Log_Dir Log_Config Log_heap Log_segments]. rewrite HN.
  eexists. split; [reflexivity|]. split; [|reflexivity].
  unfold Log_rep. cbn [Log_Dir Log_Config Log_heap Log_segments Log_activeSegment app length].
  split; [exact Hcfg|]. split; [apply NoDup_singleton|]. split; [discriminate|].
  split; [reflexivity|]. split; [reflexivity|]. split.
  - intros i p recs Hp Hr.
    apply list_lookup_singleton_Some in Hp as [-> <-].
    cbn in Hr. injection Hr as <-.
    exists s. split; [reflexivity|]. split; [exact Hsr|].
    cbn. rewrite Hsb. change (len (@nil api_Record)) with 0. lia.
  - cbn [pred take concat]. change (len (@nil api_Record)) with 0.
    rewrite Z.add_0_r.
    eapply dir_below_newSegment; [|reflexivity|lia].
    intros name Hname. rewrite lookup_empty in Hname. destruct Hname as [? [=]].
Qed.

(** ** Reads out of range *)

Lemma find_segment_None heap ptrs off :
  (forall p, p ∈ ptrs ->
     exists s, heap !! p = Some s /\ ~ (baseOffset s <= off < nextOffset s)) ->
  find_segment heap ptrs off = Ok None.
Proof.
  induction ptrs as [|p ptrs IH]; intros H; [reflexivity|].
  destruct (H p) as (s & Hs & Hout); [left|].
  cbn [find_segment]. rewrite Hs.
  destruct (Z.leb_spec (baseOffset s) off), (Z.ltb_spec off (nextOffset s));
    cbn [andb]; try lia.
  all: apply IH; intros q Hq; apply H; right; exact Hq.
Qed.

(** When no segment of the log holds [off], [Read(off)] fails with the
    error built by [fmt.Errorf], and the log is as it was. *)
Lemma Log_Read_out_of_range l off :
  (forall p, p ∈ Log_segments l ->
     exists s, Log_heap l !! p = Some s /\ ~ (baseOffset s <= off < nextOffset s)) ->
  Log_Read Unmarshal l off
  = (Err (Errorf ("offset out of range: " +:+ pretty off)), l).
Proof.
  intros H. unfold Log_Read. rewrite (find_segment_None _ _ _ H). reflexivity.
Qed.

Lemma Log_rep_covers l first chunks p s off :
  Log_rep Marshal l first chunks ->
  p ∈ Log_segments l -> Log_heap l !! p = Some s ->
  baseOffset s <= off < nextOffset s ->
  first <= off < first + len (concat chunks).
Proof.
  intros Hrep Hp Hs Hoff. apply list_elem_of_lookup in Hp as [i Hi].
  destruct (Log_rep_lookup l first chunks i p Hrep Hi) as (recs & s' & Hr & Hs' & Hsr & Hb).
  rewrite Hs in Hs'. injection Hs' as <-.
  destruct Hsr as (_ & _ & Hn & _).
  pose proof (chunk_base_S first chunks i recs Hr) as HS.
  pose proof (chunk_base_mono first chunks 0 i ltac:(lia)) as H0.
  pose proof (chunk_base_mono first chunks (S i) (length chunks) ltac:(apply lookup_lt_Some in Hr; lia)) as H1.
  rewrite (chunk_base_all first chunks (length chunks)) in H1 by lia.
  unfold chunk_base at 1 in H0. rewrite take_0 in H0.
  change (len (concat (@nil (list api_Record)))) with 0 in H0.
  lia.
Qed.

(** A read, of any offset, leaves the log holding what it held, and does
    not panic. *)
Lemma Log_Read_any l first chunks off :
  Log_rep Marshal l first chunks ->
  exists res l',
    Log_Read Unmarshal l off = (res, l')
    /\ Log_rep Marshal l' first chunks
    /\ Log_Config l' = Log_Config l
    /\ (forall m, res <> Panic m).
Proof.
  intros Hrep.
  destruct (decide (first <= off < first + len (concat chunks))) as [Hin|Hout].
  - destruct (lookup_lt_is_Some_2 (concat chunks) (Z.to_nat (off - first))) as [r Hr];
      [unfold len in *; lia|].
    destruct (Log_Read_rep l first chunks _ r Hrep Hr) as (l' & HR & Hrep' & Hc).
    replace (first + Z.of_nat (Z.to_nat (off - first))) with off in HR by lia.
    exists (Ok r), l'. split; [exact HR|]. split; [exact Hrep'|].
    split; [exact Hc|]. intros m. discriminate.
  - exists (Err (Errorf ("offset out of range: " +:+ pretty off))), l.
    split; [|split; [exact Hrep|split; [reflexivity|intros m; discriminate]]].
    apply Log_Read_out_of_range. intros p Hp.
    apply list_elem_of_lookup in Hp as [i Hi].
    destruct (Log_rep_lookup l first chunks i p Hrep Hi) as (recs & s & Hr & Hs & Hsr & Hb).
    exists s. split; [exact Hs|]. intros Hoff. apply Hout.
    eapply Log_rep_covers; [exact Hrep| |exact Hs|exact Hoff].
    eapply list_elem_of_lookup_2, Hi.
Qed.

(** ** Runs of appends *)

Lemma seqZ_cons_succ m n : 0 <= n -> seqZ m (1 + n) = m :: seqZ (m + 1) n.
Proof.
  intros H. rewrite seqZ_cons by lia. f_equal. f_equal; lia.
Qed.



Lemma count_appends_nonneg ops : 0 <= count_appends ops.
Proof. induction ops as [|[r|off] ops IH]; cbn [count_appends]; lia. Qed.

(** Appends and reads keep what the log holds, and add to it. *)
Lemma Log_run_rep ops : forall l first chunks l',
  Log_rep Marshal l first chunks -> store_fits Marshal (Log_Config l) ->
  first + len (concat chunks) + count_appends ops < 2 ^ 64 ->
  Log_run Marshal Unmarshal l ops = Some l' ->
  exists chunks' more,
    Log_rep Marshal l' first chunks'
    /\ concat chunks' = concat chunks ++ more
    /\ len more <= count_appends ops
    /\ Log_Config l' = Log_Config l.
Proof.
  induction ops as [|[r|off] ops IH]; intros l first chunks l' Hrep Hfits Hbound Hrun.
  - cbn in Hrun. injection Hrun as <-. exists chunks, [].
    rewrite app_nil_r. split; [exact Hrep|]. split; [reflexivity|].
    split; [unfold len; cbn; lia|reflexivity].
  - cbn [Log_run count_appends] in *. pose proof (count_appends_nonneg ops) as Hops.
    pose proof (Log_Append_cases l first chunks r Hrep Hfits) as Hcase.
    cbv zeta in Hcase.
    destruct (Marshal (set_Offset r (first + len (concat chunks)))) as [p|e|m].
    + destruct Hcase as (l1 & HA & Hnext). rewrite HA in Hrun.
      destruct Hnext as (chunks1 & Hrep1 & Hcat1 & Hc1); [lia|].
      destruct (IH l1 first chunks1 l' Hrep1) as (chunks' & more & Hrep' & Hcat' & Hlen' & Hc');
        [rewrite Hc1; exact Hfits|rewrite Hcat1, len_app; change (len [_]) with 1; lia|exact Hrun|].
      exists chunks', ([set_Offset r (first + len (concat chunks))] ++ more).
      split; [exact Hrep'|]. split; [rewrite Hcat', Hcat1, <- app_assoc; reflexivity|].
      split; [rewrite len_app; change (len [_]) with 1; lia|congruence].
    + destruct Hcase as (l1 & chunks1 & HA & Hrep1 & Hcat1 & Hc1). rewrite HA in Hrun.
      destruct (IH l1 first chunks1 l' Hrep1) as (chunks' & more & Hrep' & Hcat' & Hlen' & Hc');
        [rewrite Hc1; exact Hfits|rewrite Hcat1; lia|exact Hrun|].
      exists chunks', more.
      split; [exact Hrep'|]. split; [rewrite Hcat', Hcat1; reflexivity|].
      split; [lia|congruence].
    + destruct Hcase as (l1 & HA). rewrite HA in Hrun. discriminate.
  - cbn [Log_run count_appends] in *.
    destruct (Log_Read_any l first chunks off Hrep) as (res & l1 & HR & Hrep1 & Hc1 & Hnp).
    rewrite HR in Hrun.
    assert (Hrun1 : Log_run Marshal Unmarshal l1 ops = Some l').
    { destruct res; [exact Hrun|exact Hrun|]. exfalso. eapply Hnp. reflexivity. }
    destruct (IH l1 first chunks l' Hrep1) as (chunks' & more & Hrep' & Hcat' & Hlen' & Hc');
      [rewrite Hc1; exact Hfits|exact Hbound|exact Hrun1|].
    exists chunks', more. split; [exact Hrep'|]. split; [exact Hcat'|].
    split; [exact Hlen'|congruence].
Qed.

(** C1 (as amended).  Append/Read round-trip.  Take a log made on an empty
    directory and used through [Append] and [Read] only.  For every record
    [R] that [Append] accepts and gives the offset [o], any later [Read(o)]
    returns [R] with its [Offset] field set to [o]: the same value bytes,
    and [o] as offset.  This holds as long as the initial offset plus the
    number of [Append] calls made on the log up to that [Read], those
    before [R], the one of [R] and those after it, is below [2^64]: no
    offset assigned up to the [Read] is the last [uint64], so that no
    [nextOffset] has wrapped to 0.  The codec unmarshals what it
    marshalled; the index of a segment has room for 1 to [2^32] entries and
    a store file stays below [2^63] bytes. *)
Theorem Log_Append_Read_roundtrip
    (c : Config) (before after : list log_op) (R R' : api_Record)
    (l0 l1 l2 l3 : Log) (o : Z) :
  config_ok (defaulted c) -> store_fits Marshal (defaulted c) ->
  0 <= InitialOffset c ->
  InitialOffset c + count_appends before + 1 + count_appends after < 2 ^ 64 ->
  NewLog ∅ c = (Ok tt, l0) ->
  Log_run Marshal Unmarshal l0 before = Some l1 ->
  Log_Append Marshal l1 R = (Ok o, l2, R') ->
  Log_run Marshal Unmarshal l2 after = Some l3 ->
  exists l4,
    Log_Read Unmarshal l3 o = (Ok (set_Offset R o), l4)
    /\ Value (set_Offset R o) = Value R
    /\ Offset (set_Offset R o) = o
    /\ R' = set_Offset R o.
Proof.
  intros Hcfg Hfits Hinit Hbound HN Hrun1 HA Hrun2.
  pose proof (count_appends_nonneg before) as Hb.
  pose proof (count_appends_nonneg after) as Ha.
  destruct (NewLog_fresh c Hcfg ltac:(lia)) as (l0' & HN' & Hrep0 & Hc0).
  rewrite HN in HN'. injection HN' as <-.
  destruct (Log_run_rep before l0 _ _ l1 Hrep0) as (chunks1 & more1 & Hrep1 & Hcat1 & Hlen1 & Hc1);
    [rewrite Hc0; exact Hfits|cbn; change (len (@nil api_Record)) with 0; lia|exact Hrun1|].
  cbn [concat app] in Hcat1.
  assert (Hfits1 : store_fits Marshal (Log_Config l1)) by (rewrite Hc1, Hc0; exact Hfits).
  pose proof (Log_Append_cases l1 _ _ R Hrep1 Hfits1) as Hcase. cbv zeta in Hcase.
  rewrite Hcat1 in Hcase.
  destruct (Marshal (set_Offset R (InitialOffset c + len more1))) as [p|e|m].
  2: { destruct Hcase as (l' & ? & Hcase & _). rewrite HA in Hcase. discriminate. }
  2: { destruct Hcase as (l' & Hcase). rewrite HA in Hcase. discriminate. }
  destruct Hcase as (l2' & HA' & Hnext).
  rewrite HA in HA'. injection HA' as -> <- ->.
  destruct Hnext as (chunks2 & Hrep2 & Hcat2 & Hc2); [lia|].
  destruct (Log_run_rep after l2 _ _ l3 Hrep2) as (chunks3 & more3 & Hrep3 & Hcat3 & Hlen3 & Hc3);
    [rewrite Hc2; exact Hfits1|rewrite Hcat2, len_app; change (len [_]) with 1; lia
    |exact Hrun2|].
  destruct (Log_Read_rep l3 (InitialOffset c) chunks3 (length more1)
              (set_Offset R (InitialOffset c + len more1)) Hrep3) as (l4 & HR & _).
  { rewrite Hcat3, Hcat2, <- app_assoc. apply list_lookup_middle. reflexivity. }
  exists l4. split; [exact HR|]. repeat split.
Qed.

End log_proofs.

(** ** The fixed-width codec *)

Lemma Record_fits_spec r :
  Record_fits r = true ->
  0 <= Offset r < 2 ^ 64 /\ 0 <= Term r < 2 ^ 64 /\ 0 <= Type_ r < 2 ^ 32
  /\ len (Value r) < 2 ^ 31.
Proof.
  unfold Record_fits. rewrite !andb_true_iff, !Z.leb_le, !Z.ltb_lt. lia.
Qed.

Lemma wire_Unmarshal_Marshal r p : wire_Marshal r = Ok p -> wire_Unmarshal p = r.
Proof.
  unfold wire_Marshal. destruct (Record_fits r) eqn:E; [|discriminate].
  apply Record_fits_spec in E as (Ho & Ht & Hy & _). intros H.
  destruct r as [v o t y]. cbn [Value Offset Term Type_] in *.
  assert (Hp : p = BigEndian.put 8 o ++ BigEndian.put 8 t ++ BigEndian.put 4 y ++ v)
    by congruence.
  clear H. subst p. unfold wire_Unmarshal.
  set (a := BigEndian.put 8 o). set (b := BigEndian.put 8 t).
  set (d := BigEndian.put 4 y).
  assert (Ha : length a = 8%nat) by apply put_length.
  assert (Hb : length b = 8%nat) by apply put_length.
  assert (Hd : length d = 4%nat) by apply put_length.
  f_equal.
  - rewrite take_app_length' by exact Ha.
    apply get_put. change (256 ^ Z.of_nat 8) with (2 ^ 64). exact Ho.
  - rewrite drop_app_length' by exact Ha.
    rewrite take_app_length' by exact Hb.
    apply get_put. change (256 ^ Z.of_nat 8) with (2 ^ 64). exact Ht.
  - rewrite (app_assoc a).
    rewrite drop_app_length' by (rewrite length_app; lia).
    rewrite take_app_length' by exact Hd.
    apply get_put. change (256 ^ Z.of_nat 4) with (2 ^ 32). exact Hy.
Qed.

Lemma wire_store_fits c : MaxStoreBytes c <= 2 ^ 62 -> store_fits wire_Marshal c.
Proof.
  intros Hc r p. unfold wire_Marshal.
  destruct (Record_fits r) eqn:E; [|discriminate].
  apply Record_fits_spec in E as (_ & _ & _ & Hv). intros H.
  assert (Hp : p = BigEndian.put 8 (Offset r) ++ BigEndian.put 8 (Term r)
                   ++ BigEndian.put 4 (Type_ r) ++ Value r) by congruence.
  subst p. rewrite !len_app.
  unfold len at 1 2 3. rewrite !put_length. unfold lenWidth. lia.
Qed.

(** The fixed-width codec marshals every record whose fields fit. *)
Lemma wire_marshals records :
  Forall (fun r => Record_fits r = true) records -> marshals wire_Marshal records.
Proof.
  intros H r off Hr Hoff. rewrite Forall_forall in H. specialize (H r Hr).
  apply Record_fits_spec in H as (_ & Ht & Hy & Hv).
  unfold wire_Marshal.
  assert (Hf : Record_fits (set_Offset r off) = true).
  { unfold Record_fits. destruct r; cbn [set_Offset Offset Term Type_ Value] in *.
    rewrite !andb_true_iff, !Z.leb_le, !Z.ltb_lt. lia. }
  rewrite Hf. exact I.
Qed.

(** ** Runs of the log with the fixed-width codec *)

(** A log whose index holds three entries per segment: one append, a read
    past the end, the append of [R] (offset 1), then two more appends, the
    second of them into a new segment, and a read. *)
Lemma Log_Append_Read_roundtrip_witness :
  let c := mkConfig 0 36 0 in
  let R := mkRecord [104; 105] 7 2 1 in
  let before := [OpAppend (mkRecord [1] 0 0 0); OpRead 5] in
  let after := [OpAppend (mkRecord [2] 0 0 0); OpAppend (mkRecord [3] 0 0 0);
                OpRead 0] in
  let l0 := (NewLog ∅ c).2 in
  let l1 := default l0 (Log_run wire_Marshal wire_Unmarshal l0 before) in
  let l2 := (Log_Append wire_Marshal l1 R).1.2 in
  let l3 := default l2 (Log_run wire_Marshal wire_Unmarshal l2 after) in
  exists l4,
    Log_Read wire_Unmarshal l3 1 = (Ok (set_Offset R 1), l4)
    /\ Value (set_Offset R 1) = Value R
    /\ Offset (set_Offset R 1) = 1
    /\ (Log_Append wire_Marshal l1 R).2 = set_Offset R 1.
Proof.
  intros c R before after l0 l1 l2 l3.
  apply (Log_Append_Read_roundtrip wire_Marshal wire_Unmarshal
           wire_Unmarshal_Marshal c before after R
           (Log_Append wire_Marshal l1 R).2 l0 l1 l2 l3 1).
  - unfold config_ok. vm_compute. repeat split; discriminate.
  - apply wire_store_fits. vm_compute. discriminate.
  - vm_compute. discriminate.
  - vm_compute. reflexivity.
  - vm_compute. reflexivity.
  - vm_compute. reflexivity.
  - vm_compute. reflexivity.
  - vm_compute. reflexivity.
Defined.

(** A log that starts at the last [uint64]: [Append] returns the offset
    [2^64 - 1] and [nextOffset] wraps to 0, so no segment holds that offset
    any more and [Read] refuses it. *)
Lemma Log_Read_fails_at_last_uint64 :
  let c := mkConfig 0 0 (2 ^ 64 - 1) in
  let R := mkRecord [104; 105] 0 0 0 in
  let l0 := (NewLog ∅ c).2 in
  (NewLog ∅ c).1 = Ok tt
  /\ (Log_Append wire_Marshal l0 R).1.1 = Ok (2 ^ 64 - 1)
  /\ (Log_Read wire_Unmarshal (Log_Append wire_Marshal l0 R).1.2 (2 ^ 64 - 1)).1
     = Err (Errorf "offset out of range: 18446744073709551615").
Proof. vm_compute. repeat split; reflexivity. Qed.

(** The bound counts the appends made after [R]'s: on a log that starts at
    [2^64 - 2], [R] gets the offset [2^64 - 2], which is not the last
    [uint64], and [Read] returns it; the next [Append] gets [2^64 - 1] and
    wraps [nextOffset] to 0, and [Read(2^64 - 2)] then fails. *)
Example Log_Read_fails_after_later_append :
  let c := mkConfig 0 0 (2 ^ 64 - 2) in
  let R := mkRecord [104; 105] 0 0 0 in
  let l1 := (Log_Append wire_Marshal (NewLog ∅ c).2 R).1.2 in
  let l2 := (Log_Append wire_Marshal l1 (mkRecord [1] 0 0 0)).1.2 in
  (Log_Append wire_Marshal (NewLog ∅ c).2 R).1.1 = Ok (2 ^ 64 - 2)
  /\ (Log_Read wire_Unmarshal l1 (2 ^ 64 - 2)).1 = Ok (set_Offset R (2 ^ 64 - 2))
  /\ (Log_Append wire_Marshal l1 (mkRecord [1] 0 0 0)).1.1 = Ok (2 ^ 64 - 1)
  /\ (Log_Read wire_Unmarshal l2 (2 ^ 64 - 2)).1
     = Err (Errorf "offset out of range: 18446744073709551614").
Proof. vm_compute. repeat split; reflexivity. Qed.



Example Log_Appends_rotates :
  let l0 := (NewLog ∅ (mkConfig 0 36 7)).2 in
  let run := Log_Appends wire_Marshal l0
               ((fun v => mkRecord [v] 0 0 0) <$> [1; 2; 3; 4; 5]) in
  run.1 = [Ok 7; Ok 8; Ok 9; Ok 10; Ok 11]
  /\ (fun s => (baseOffset s, nextOffset s)) <$> Log_heap run.2
     = [(7, 10); (10, 12)].
Proof. vm_compute. split; reflexivity. Qed.

(** ** Reads out of range and ConsumeStream *)

(** C3.  When no segment of the log holds [off] (none has
    [baseOffset <= off < nextOffset]), [Log.Read(off)] fails with the value
    built by [fmt.Errorf("offset out of range: %d", off)], which is not an
    [api.ErrOffsetOutOfRange]: a pass of [ConsumeStream] that gets it from
    [Consume] returns it and ends the stream, where the same pass with an
    [api.ErrOffsetOutOfRange] sleeps and tries again. *)
Theorem Log_Read_out_of_range_ends_ConsumeStream
    (Unmarshal : list Z -> api_Record) (l : Log) (off : Z) :
  (forall p, p ∈ Log_segments l ->
     exists s, Log_heap l !! p = Some s /\ ~ (baseOffset s <= off < nextOffset s)) ->
  let err := Errorf ("offset out of range: " +:+ pretty off) in
  Log_Read Unmarshal l off = (Err err, l)
  /\ (forall e, err <> ErrOffsetOutOfRange e)
  /\ (forall send,
        server.ConsumeStream_pass false
          (server.Consume None (Log_Read Unmarshal l off).1) send off
        = Ok (server.Return (Some err)))
  /\ (forall send,
        server.ConsumeStream_pass false
          (server.Consume None (Err (ErrOffsetOutOfRange off))) send off
        = Ok server.SleepAndRetry).
Proof.
  intros H err. rewrite (Log_Read_out_of_range Unmarshal l off H).
  split; [reflexivity|]. split; [intros e; discriminate|].
  split; intros send; reflexivity.
Qed.

(** One record at offset 0, then a read at offset 1. *)
Lemma Log_Read_out_of_range_ends_ConsumeStream_witness :
  let l := (Log_Append wire_Marshal (NewLog ∅ (mkConfig 0 0 0)).2
              (mkRecord [104; 105] 0 0 0)).1.2 in
  let err := Errorf "offset out of range: 1" in
  Log_Read wire_Unmarshal l 1 = (Err err, l)
  /\ (forall e, err <> ErrOffsetOutOfRange e)
  /\ (forall send,
        server.ConsumeStream_pass false
          (server.Consume None (Log_Read wire_Unmarshal l 1).1) send 1
        = Ok (server.Return (Some err)))
  /\ (forall send,
        server.ConsumeStream_pass false
          (server.Consume None (Err (ErrOffsetOutOfRange 1))) send 1
        = Ok server.SleepAndRetry).
Proof.
  intros l err.
  apply (Log_Read_out_of_range_ends_ConsumeStream wire_Unmarshal l 1).
  intros p Hp. vm_compute in Hp.
  apply list_elem_of_singleton in Hp. subst p.
  eexists. split; [vm_compute; reflexivity|]. vm_compute. intros [_ H]. discriminate H.
Defined.

(** ** Truncate *)

Lemma segment_Remove_spec (s : segment) (dir : directory) :
  0 <= index_size (seg_index s) < 2 ^ 63 ->
  exists s' dir',
    segment_Remove s dir = (Ok tt, s', dir')
    /\ baseOffset s' = baseOffset s /\ nextOffset s' = nextOffset s
    /\ seg_index s' = seg_index s
    /\ store_Name (seg_store s') = store_Name (seg_store s)
    /\ (forall n, dir' !! n
                  = if decide (n = store_Name (seg_store s)
                               \/ n = index_Name (seg_index s))
                    then None else dir !! n).
Proof.
  intros Hsize. unfold segment_Remove, segment_Close, index_Close.
  rewrite (int64_small _ Hsize).
  destruct (Z.ltb_spec (index_size (seg_index s)) 0) as [?|_]; [lia|].
  cbn. eexists _, _. split; [reflexivity|]. cbn.
  do 4 (split; [reflexivity|]). intros n.
  destruct (decide _) as [[->| ->]|Hn].
  - apply lookup_delete_eq.
  - destruct (decide (index_Name (seg_index s) = store_Name (seg_store s))) as [->|Hne].
    + apply lookup_delete_eq.
    + rewrite lookup_delete_ne by congruence. apply lookup_delete_eq.
  - assert (n <> store_Name (seg_store s)) by (intros ->; apply Hn; left; reflexivity).
    assert (n <> index_Name (seg_index s)) by (intros ->; apply Hn; right; reflexivity).
    rewrite !lookup_delete_ne, !lookup_insert_ne by congruence. reflexivity.
Qed.

Lemma truncate_keeps_insert heap bound p s s' q :
  heap !! p = Some s -> nextOffset s' = nextOffset s ->
  truncate_keeps (<[p := s']> heap) bound q = truncate_keeps heap bound q.
Proof.
  intros Hs Hn. unfold truncate_keeps.
  destruct (decide (q = p)) as [->|Hne].
  - rewrite list_lookup_insert_eq by (apply lookup_lt_Some in Hs; exact Hs).
    rewrite Hs, Hn. reflexivity.
  - rewrite list_lookup_insert_ne by congruence. reflexivity.
Qed.

(** The loop of [Truncate] on segments that can be closed: the addresses
    kept, the objects kept and the files removed. *)
Lemma truncate_loop_spec bound ptrs : forall heap dir kept,
  (forall p, p ∈ ptrs ->
     exists s, heap !! p = Some s /\ 0 <= index_size (seg_index s) < 2 ^ 63) ->
  exists heap' dir',
    truncate_loop heap dir ptrs bound kept
    = (Ok (kept ++ List.filter (truncate_keeps heap bound) ptrs), heap', dir')
    /\ (forall p, truncate_keeps heap bound p = true -> heap' !! p = heap !! p)
    /\ (forall n, dir !! n = None -> dir' !! n = None)
    /\ (forall p s, p ∈ ptrs -> heap !! p = Some s ->
          truncate_keeps heap bound p = false ->
          dir' !! store_Name (seg_store s) = None
          /\ dir' !! index_Name (seg_index s) = None).
Proof.
  induction ptrs as [|p0 ptrs IH]; intros heap dir kept Hptrs.
  - exists heap, dir. cbn. rewrite app_nil_r.
    split; [reflexivity|]. split; [reflexivity|]. split; [tauto|].
    intros p s Hp. apply elem_of_nil in Hp. destruct Hp.
  - destruct (Hptrs p0) as (s0 & Hs0 & Hsize0); [left|].
    assert (Hrest : forall p, p ∈ ptrs -> exists s, heap !! p = Some s
                       /\ 0 <= index_size (seg_index s) < 2 ^ 63)
      by (intros p Hp; apply Hptrs; right; exact Hp).
    cbn [truncate_loop List.filter]. unfold truncate_keeps at 1. rewrite Hs0.
    destruct (Z.leb_spec (nextOffset s0) bound) as [Hle|Hgt].
    + destruct (Z.ltb_spec bound (nextOffset s0)) as [?|_]; [lia|].
      destruct (segment_Remove_spec s0 dir Hsize0)
        as (s0' & dir1 & -> & Hb & Hn & Hi & Hname & Hdir1).
      destruct (IH (<[p0 := s0']> heap) dir1 kept) as (heap' & dir' & -> & Hkept & Hnone & Hgone).
      { intros p Hp. destruct (decide (p = p0)) as [->|Hne].
        - exists s0'. rewrite list_lookup_insert_eq by (apply lookup_lt_Some in Hs0; exact Hs0).
          split; [reflexivity|]. rewrite Hi. exact Hsize0.
        - rewrite list_lookup_insert_ne by congruence. apply Hrest, Hp. }
      exists heap', dir'. split.
      { rewrite (List.filter_ext (truncate_keeps (<[p0 := s0']> heap) bound)
                   (truncate_keeps heap bound)); [reflexivity|]. intros q.
        apply (truncate_keeps_insert heap bound p0 s0 s0' q Hs0 Hn). }
      split.
      { intros p Hp. rewrite Hkept
          by (rewrite (truncate_keeps_insert heap bound p0 s0 s0' p Hs0 Hn); exact Hp).
        apply list_lookup_insert_ne. intros ->.
        unfold truncate_keeps in Hp. rewrite Hs0 in Hp.
        apply Z.ltb_lt in Hp. lia. }
      split.
      { intros n Hn0. apply Hnone. rewrite Hdir1.
        destruct (decide _); [reflexivity|exact Hn0]. }
      intros p s Hp Hs Hk.
      assert (Hs0gone : dir' !! store_Name (seg_store s0) = None
                        /\ dir' !! index_Name (seg_index s0) = None).
      { split; apply Hnone; rewrite Hdir1; destruct (decide _) as [_|Hno];
          try reflexivity; exfalso; apply Hno; [left|right]; reflexivity. }
      destruct (decide (p = p0)) as [->|Hne].
      * rewrite Hs0 in Hs. injection Hs as <-. exact Hs0gone.
      * apply elem_of_cons in Hp as [->|Hp]; [congruence|].
        apply (Hgone p s Hp).
        -- rewrite list_lookup_insert_ne by congruence. exact Hs.
        -- rewrite (truncate_keeps_insert heap bound p0 s0 s0' p Hs0 Hn). exact Hk.
    + destruct (Z.ltb_spec bound (nextOffset s0)) as [_|?]; [|lia].
      destruct (IH heap dir (kept ++ [p0]) Hrest) as (heap' & dir' & -> & Hkept & Hnone & Hgone).
      exists heap', dir'. split; [rewrite <- app_assoc; reflexivity|].
      split; [exact Hkept|]. split; [exact Hnone|].
      intros p s Hp Hs Hk. apply elem_of_cons in Hp as [->|Hp].
      * unfold truncate_keeps in Hk. rewrite Hs0 in Hk.
        apply Z.ltb_ge in Hk. lia.
      * apply (Hgone p s Hp Hs Hk).
Qed.




Example Log_Truncate_second_segment_left :
  let l := (Log_Appends wire_Marshal (NewLog ∅ (mkConfig 0 36 0)).2
              ((fun v => mkRecord [v] 0 0 0) <$> [1; 2; 3; 4; 5])).2 in
  let files := ["0.store"; "0.index"; "3.store"; "3.index"] in
  (fun n => bool_decide (is_Some (Log_Dir l !! n))) <$> files
  = [true; true; true; true]
  /\ Log_LowestOffset (Log_Truncate l 2).2 = Ok 3
  /\ (fun n => bool_decide (is_Some (Log_Dir (Log_Truncate l 2).2 !! n))) <$> files
     = [false; false; true; true]
  /\ Log_LowestOffset (Log_Truncate l 4).2 = Panic index_out_of_range.
Proof. vm_compute. repeat split; reflexivity. Qed.

(** * Further properties of the code *)

(** ** Membership: the event loop *)

Lemma join_members_names local members :
  Forall (fun c => call_name c <> local) (discovery.join_members local members).
Proof.
  induction members as [|m ms IH]; [constructor|].
  cbn [discovery.join_members]. destruct (discovery.isLocal local m) eqn:E; [exact IH|].
  constructor; [|exact IH]. unfold discovery.isLocal in E.
  apply String.eqb_neq in E. intros Heq. apply E. symmetry. exact Heq.
Qed.

Lemma leave_members_names local members :
  Forall (fun c => call_name c <> local) (discovery.leave_members local members).1.
Proof.
  induction members as [|m ms IH]; [constructor|].
  cbn [discovery.leave_members]. destruct (discovery.isLocal local m) eqn:E; [constructor|].
  destruct (discovery.leave_members local ms) as [calls returned]. cbn in *.
  constructor; [|exact IH]. unfold discovery.isLocal in E.
  apply String.eqb_neq in E. intros Heq. apply E. symmetry. exact Heq.
Qed.

(** X1.  Whatever events arrive, the handler is never called for the local
    node: no [Join] and no [Leave] it receives carries the local name. *)
Theorem eventHandler_never_calls_local (local : string) (events : list discovery.Event) :
  Forall (fun c => call_name c <> local) (discovery.eventHandler local events).
Proof.
  induction events as [|e es IH]; [constructor|].
  destruct e as [ms|ms|ms|]; cbn [discovery.eventHandler].
  - apply Forall_app. split; [apply join_members_names|exact IH].
  - pose proof (leave_members_names local ms) as H.
    destruct (discovery.leave_members local ms) as [calls returned]. cbn in H.
    destruct returned; [exact H|]. apply Forall_app. split; assumption.
  - pose proof (leave_members_names local ms) as H.
    destruct (discovery.leave_members local ms) as [calls returned]. cbn in H.
    destruct returned; [exact H|]. apply Forall_app. split; assumption.
  - exact IH.
Qed.

Lemma leave_members_others local members :
  Forall (fun m => discovery.isLocal local m = false) members ->
  discovery.leave_members local members
  = (discovery.handleLeave <$> filter (fun m => discovery.isLocal local m = false) members,
     false).
Proof.
  intros H. rewrite (leave_members_no_local local members H). f_equal. f_equal.
  induction H as [|m ms Hm _ IH]; [reflexivity|].
  rewrite filter_cons, decide_True by exact Hm. f_equal. exact IH.
Qed.

(** X2.  As long as no leave or failed event lists the local node, the
    handler receives one call per member other than the local node, for
    every event, in the order of the events and of their members: [Join]
    with the member's name and ["rpc_addr"] tag for a join event, [Leave]
    with its name for a leave or failed event, nothing for another event. *)
Theorem eventHandler_dispatches_in_order
    (local : string) (events : list discovery.Event) :
  local_stays local events ->
  discovery.eventHandler local events = concat (dispatch local <$> events).
Proof.
  induction 1 as [|e es He _ IH]; [reflexivity|].
  rewrite fmap_cons. cbn [concat discovery.eventHandler].
  destruct e as [ms|ms|ms|].
  - rewrite join_members_spec, IH. reflexivity.
  - rewrite (leave_members_others local ms He), IH. reflexivity.
  - rewrite (leave_members_others local ms He), IH. reflexivity.
  - exact IH.
Qed.

(** Node "0" sees itself and node "1" join, then "2", then "1" fail. *)
Lemma eventHandler_dispatches_in_order_witness :
  let member name := discovery.mkMember name {[ "rpc_addr" := "127.0.0.1:" +:+ name ]} in
  let events := [discovery.EventMemberJoin [member "0"; member "1"];
                 discovery.EventOther;
                 discovery.EventMemberJoin [member "2"];
                 discovery.EventMemberFailed [member "1"]] in
  discovery.eventHandler "0" events = concat (dispatch "0" <$> events).
Proof.
  intros member events. apply (eventHandler_dispatches_in_order "0" events).
  repeat constructor.
Defined.

(** ** Picker: Build and the rotation over the followers *)

Lemma Build_loop_spec ready : forall leader followers,
  Forall (fun x => is_Some x.2) ready ->
  loadbalance.Build_loop ready leader followers
  = Ok (default leader (last (fst <$> filter (fun x => x.2 = Some true) ready)),
        followers ++ (fst <$> filter (fun x => x.2 = Some false) ready)).
Proof.
  induction ready as [|[sc [[|]|]] ready IH]; intros leader followers H.
  - cbn. rewrite app_nil_r. reflexivity.
  - apply Forall_cons in H as [_ H]. cbn [loadbalance.Build_loop].
    rewrite (IH sc followers H).
    rewrite filter_cons, decide_True by reflexivity.
    rewrite (filter_cons _ (sc, Some true)), decide_False by discriminate.
    rewrite fmap_cons. cbn [fst].
    destruct (filter _ ready) as [|x xs]; [reflexivity|].
    rewrite fmap_cons. rewrite !last_cons.
    destruct (last (fst <$> xs)); reflexivity.
  - apply Forall_cons in H as [_ H]. cbn [loadbalance.Build_loop].
    rewrite (IH leader (followers ++ [sc]) H).
    rewrite filter_cons, decide_False by discriminate.
    rewrite (filter_cons _ (sc, Some false)), decide_True by reflexivity.
    rewrite fmap_cons, <- app_assoc. reflexivity.
  - apply Forall_cons in H as [[b Hb] _]. discriminate Hb.
Qed.

Lemma Build_loop_panics ready : forall leader followers,
  Exists (fun x => x.2 = None) ready ->
  loadbalance.Build_loop ready leader followers = Panic "interface conversion".
Proof.
  induction ready as [|[sc [[|]|]] ready IH]; intros leader followers H.
  - apply Exists_nil in H. destruct H.
  - apply Exists_cons in H as [H|H]; [discriminate H|]. apply (IH _ _ H).
  - apply Exists_cons in H as [H|H]; [discriminate H|]. apply (IH _ _ H).
  - reflexivity.
Qed.

(** X3.  [Build] splits the ready sub-connections by their ["is_leader"]
    attribute: the followers are the ones marked [false], in the order of
    the iteration; the leader is the last one marked [true], and when none
    is marked the picker keeps the leader it had; the round-robin counter is
    not reset.  A ready sub-connection without a boolean ["is_leader"]
    attribute makes [Build] panic on the type assertion. *)
Theorem Build_splits_leader_and_followers
    (p : loadbalance.Picker) (ready : list (loadbalance.SubConn * option bool)) :
  (Forall (fun x => is_Some x.2) ready ->
   loadbalance.Build p ready
   = Ok (loadbalance.mkPicker
           (default (loadbalance.leader p)
                    (last (fst <$> filter (fun x => x.2 = Some true) ready)))
           (fst <$> filter (fun x => x.2 = Some false) ready)
           (loadbalance.current p)))
  /\ (Exists (fun x => x.2 = None) ready ->
      loadbalance.Build p ready = Panic "interface conversion").
Proof.
  unfold loadbalance.Build. split; intros H.
  - rewrite (Build_loop_spec ready _ _ H). reflexivity.
  - rewrite (Build_loop_panics ready _ _ H). reflexivity.
Qed.

Lemma Pick_consume (p : loadbalance.Picker) (name : string) :
  consume_only name ->
  0 < len (loadbalance.followers p) < 2 ^ 63 ->
  0 <= loadbalance.current p -> loadbalance.current p + 1 < 2 ^ 64 ->
  loadbalance.Pick p name
  = (pick_result
       (default None
          (loadbalance.followers p
           !! Z.to_nat ((loadbalance.current p + 1) mod len (loadbalance.followers p)))),
     loadbalance.mkPicker (loadbalance.leader p) (loadbalance.followers p)
                          (loadbalance.current p + 1)).
Proof.
  intros [Hp Hc] Hn H0 H1. unfold loadbalance.Pick. rewrite Hp, Hc. cbn [orb].
  destruct (Z.eqb_spec (len (loadbalance.followers p)) 0) as [?|_]; [lia|].
  unfold loadbalance.nextFollower. cbn [loadbalance.followers loadbalance.leader].
  rewrite (u64_small (loadbalance.current p + 1)) by lia.
  rewrite (u64_small (len (loadbalance.followers p))) by lia.
  destruct (Z.eqb_spec (len (loadbalance.followers p)) 0) as [?|_]; [lia|].
  pose proof (Z.mod_pos_bound (loadbalance.current p + 1)
                (len (loadbalance.followers p)) ltac:(lia)) as Hm.
  rewrite int64_small by lia.
  destruct (loadbalance.followers p !! _) as [sc|] eqn:E.
  - cbn [default]. destruct sc; reflexivity.
  - apply lookup_ge_None in E. unfold len in *. lia.
Qed.

(** X4.  Round robin.  On a picker with followers, any number of successive
    calls for methods that contain "Consume" and not "Produce" walk the
    follower list cyclically: call number [k] (from 0) gets the follower at
    index [(current + 1 + k) mod n], [n] being the number of followers, and
    the counter ends at [current] plus the number of calls; so [n]
    successive calls get every follower once, starting after the last one
    served.  The counter does not wrap around in the run. *)
Theorem Picks_round_robin (p : loadbalance.Picker) (names : list string) :
  Forall consume_only names ->
  0 < len (loadbalance.followers p) < 2 ^ 63 ->
  0 <= loadbalance.current p -> loadbalance.current p + len names < 2 ^ 64 ->
  Picks p names
  = ((fun k => pick_result
                 (default None
                    (loadbalance.followers p
                     !! Z.to_nat ((loadbalance.current p + 1 + k)
                                  mod len (loadbalance.followers p)))))
       <$> seqZ 0 (len names),
     loadbalance.mkPicker (loadbalance.leader p) (loadbalance.followers p)
                          (loadbalance.current p + len names))
  /\ (len names = len (loadbalance.followers p) ->
      (fun k => loadbalance.followers p
                !! Z.to_nat ((loadbalance.current p + 1 + k)
                             mod len (loadbalance.followers p)))
        <$> seqZ 0 (len names)
      = Some <$> rotate (Z.to_nat (loadbalance.current p + 1)) (loadbalance.followers p)).
Proof.
  intros Hnames Hn H0 Hb. split.
  - revert p Hn H0 Hb. induction Hnames as [|name names Hname _ IH]; intros p Hn H0 Hb.
    + cbn. destruct p; rewrite Z.add_0_r; reflexivity.
    + change (len (name :: names)) with (Z.of_nat (S (length names))) in *.
      rewrite Nat2Z.inj_succ in *. fold (len names) in *.
      pose proof (len_nonneg names) as Hl.
      cbn [Picks]. rewrite (Pick_consume p name Hname Hn H0) by lia.
      rewrite IH by (cbn [loadbalance.followers loadbalance.current]; lia).
      cbn [loadbalance.followers loadbalance.current loadbalance.leader].
      replace (Z.succ (len names)) with (1 + len names) by lia.
      rewrite seqZ_cons_succ by lia. rewrite fmap_cons, Z.add_0_r.
      f_equal; [|f_equal; lia]. f_equal.
      change (seqZ (0 + 1) (len names)) with (seqZ (1 + 0) (len names)).
      rewrite <- (fmap_add_seqZ 1 0 (len names)), <- list_fmap_compose.
      apply list_fmap_ext. intros _ k _. cbn.
      replace (loadbalance.current p + 1 + (1 + k)) with (loadbalance.current p + 1 + 1 + k) by lia.
      reflexivity.
  - intros Hlen. apply list_eq. intros i.
    rewrite !list_lookup_fmap. rewrite Hlen.
    destruct (decide (i < length (loadbalance.followers p))%nat) as [Hi|Hi].
    + rewrite lookup_seqZ_lt by (unfold len; lia). cbn [fmap option_fmap option_map].
      rewrite lookup_rotate_r by exact Hi. unfold rotate_nat_add.
      rewrite Z2Nat.id, Z.add_0_l by lia. fold (len (loadbalance.followers p)).
      destruct (loadbalance.followers p !! _) as [sc|] eqn:E; [reflexivity|].
      apply lookup_ge_None in E.
      pose proof (Z.mod_pos_bound (loadbalance.current p + 1 + Z.of_nat i)
                    (len (loadbalance.followers p)) ltac:(lia)).
      unfold len in *. lia.
    + rewrite lookup_seqZ_ge by (unfold len; lia).
      rewrite (proj2 (lookup_ge_None _ _)); [reflexivity|].
      rewrite length_rotate. lia.
Qed.

(** Three followers and a counter at 4. *)
Lemma Picks_round_robin_witness :
  let p := loadbalance.mkPicker (Some 0%nat) [Some 1%nat; Some 2%nat; Some 3%nat] 4 in
  let names := ["/log.v1.Log/Consume"; "/log.v1.Log/ConsumeStream";
                "/log.v1.Log/Consume"] in
  Picks p names
  = ((fun k => pick_result
                 (default None
                    (loadbalance.followers p
                     !! Z.to_nat ((loadbalance.current p + 1 + k)
                                  mod len (loadbalance.followers p)))))
       <$> seqZ 0 (len names),
     loadbalance.mkPicker (loadbalance.leader p) (loadbalance.followers p)
                          (loadbalance.current p + len names))
  /\ (len names = len (loadbalance.followers p) ->
      (fun k => loadbalance.followers p
                !! Z.to_nat ((loadbalance.current p + 1 + k)
                             mod len (loadbalance.followers p)))
        <$> seqZ 0 (len names)
      = Some <$> rotate (Z.to_nat (loadbalance.current p + 1)) (loadbalance.followers p)).
Proof.
  intros p names. apply (Picks_round_robin p names).
  - repeat constructor.
  - vm_compute. split; reflexivity.
  - vm_compute. discriminate.
  - vm_compute. reflexivity.
Defined.

Example Picks_serves_each_follower_once :
  (Picks (loadbalance.mkPicker (Some 0%nat) [Some 1%nat; Some 2%nat; Some 3%nat] 4)
         ["/log.v1.Log/Consume"; "/log.v1.Log/ConsumeStream"; "/log.v1.Log/Consume"]).1
  = [Ok (Some 3%nat, None); Ok (Some 1%nat, None); Ok (Some 2%nat, None)].
Proof. reflexivity. Qed.

(** ** Store: appends, reads and reopening *)

Lemma frames_at (ps : list (list Z)) : forall bytes i p np,
  ps !! i = Some p -> frame_results (len bytes) ps !! i = Some np ->
  np.1 = lenWidth + len p
  /\ frame_at (bytes ++ concat (frame <$> ps)) np.2 p.
Proof.
  induction ps as [|p0 ps IH]; intros bytes i p np Hp Hnp; [discriminate|].
  rewrite fmap_cons. cbn [concat frame_results] in *. destruct i as [|i].
  - cbn in Hp, Hnp. injection Hp as <-. injection Hnp as <-. cbn [fst snd].
    split; [reflexivity|]. rewrite app_assoc. apply frame_at_app, frame_at_end.
  - cbn in Hp, Hnp.
    replace (len bytes + (lenWidth + len p0)) with (len (bytes ++ frame p0)) in Hnp
      by (rewrite len_app, len_frame; reflexivity).
    rewrite app_assoc. apply (IH (bytes ++ frame p0) i p np Hp Hnp).
Qed.

Lemma len_frames ps : len (concat (frame <$> ps)) = frames_size ps.
Proof.
  induction ps as [|p ps IH]; [reflexivity|].
  rewrite fmap_cons. cbn [concat frames_size foldr]. fold (frames_size ps).
  rewrite len_app, len_frame, IH. reflexivity.
Qed.

(** X5.  Store round trip.  On a store whose [size] counts its bytes, the
    appends of any payloads [ps] return, for each payload, a position at
    which [Read] then returns that payload, whether or not the bytes were
    flushed; [ReadAt] over the appended range returns the frames (length on
    8 bytes, big endian, then the payload) one after the other; and [Read]
    at the end of the store is [io.EOF].  The file stays below [2^63]
    bytes (file offsets are [int64]). *)
Theorem store_Append_Read_roundtrip (s : store) (ps : list (list Z)) :
  store_size s = len (store_bytes s) ->
  store_size s + frames_size ps < 2 ^ 63 ->
  exists s',
    store_Appends s ps = (frame_results (store_size s) ps, s')
    /\ (forall i p np,
          ps !! i = Some p -> frame_results (store_size s) ps !! i = Some np ->
          store_Read s' np.2 = (Ok p, buf_Flush s'))
    /\ (store_ReadAt s' (frames_size ps) (store_size s)).1
       = Ok (concat (frame <$> ps))
    /\ (store_Read s' (store_size s')).1 = Err EOF.
Proof.
  intros Hinv Hfit. pose proof (frames_size_nonneg ps) as Hps.
  pose proof (len_nonneg (store_bytes s)) as Hs.
  destruct (store_Appends_all ps s Hinv ltac:(lia)) as (s' & Happ & Hsize & Hinv' & Hbytes).
  exists s'. split; [exact Happ|]. split; [|split].
  - intros i p np Hp Hnp. rewrite Hinv in Hnp.
    destruct (frames_at ps (store_bytes s) i p np Hp Hnp) as [_ Hf].
    apply store_Read_frame; [rewrite Hbytes; exact Hf|lia].
  - unfold store_ReadAt, File_ReadAt. cbn [buf_Flush store_File fst].
    fold (store_bytes s'). rewrite Hbytes, Hinv.
    destruct (Z.ltb_spec (len (store_bytes s)) 0) as [?|_]; [lia|].
    assert (Hd : drop (Z.to_nat (len (store_bytes s)))
                   (store_bytes s ++ concat (frame <$> ps)) = concat (frame <$> ps))
      by (unfold len; rewrite Nat2Z.id; apply drop_app_length).
    rewrite Hd, <- len_frames.
    assert (Ht : take (Z.to_nat (len (concat (frame <$> ps)))) (concat (frame <$> ps))
                 = concat (frame <$> ps))
      by (unfold len; rewrite Nat2Z.id; apply firstn_all).
    rewrite Ht.
    destruct (Z.ltb_spec (len (concat (frame <$> ps))) (len (concat (frame <$> ps))));
      [lia|reflexivity].
  - unfold store_Read, File_ReadAt. cbn [buf_Flush store_File fst].
    fold (store_bytes s'). rewrite int64_small by lia.
    destruct (Z.ltb_spec (store_size s') 0) as [?|_]; [lia|].
    rewrite Hinv'.
    assert (Hd : drop (Z.to_nat (len (store_bytes s'))) (store_bytes s') = [])
      by (unfold len; rewrite Nat2Z.id; apply drop_all).
    rewrite Hd. reflexivity.
Qed.

(** A store opened on an empty file, three payloads, one of them empty. *)
Lemma store_Append_Read_roundtrip_witness :
  let s := newStore "0.store" [] in
  let ps := [[104; 105]; []; [1; 2; 3]] in
  exists s',
    store_Appends s ps = (frame_results (store_size s) ps, s')
    /\ (forall i p np,
          ps !! i = Some p -> frame_results (store_size s) ps !! i = Some np ->
          store_Read s' np.2 = (Ok p, buf_Flush s'))
    /\ (store_ReadAt s' (frames_size ps) (store_size s)).1
       = Ok (concat (frame <$> ps))
    /\ (store_Read s' (store_size s')).1 = Err EOF.
Proof.
  intros s ps. apply (store_Append_Read_roundtrip s ps); vm_compute; reflexivity.
Defined.

(** X6.  Store reopening.  [Close] leaves on disk every byte the store
    held, buffered or not; a store made by [newStore] on that file has the
    same [size], and [Read] returns from it what it returned from the
    store that was closed, at every position. *)
Theorem store_Close_newStore (s : store) (name : string) :
  store_size s = len (store_bytes s) ->
  len (store_bytes s) < 2 ^ 64 ->
  (store_Close s).1 = store_bytes s
  /\ store_size (newStore name (store_Close s).1) = store_size s
  /\ store_bytes (newStore name (store_Close s).1) = store_bytes s
  /\ forall pos,
       (store_Read (newStore name (store_Close s).1) pos).1 = (store_Read s pos).1.
Proof.
  intros Hinv Hlen. pose proof (len_nonneg (store_bytes s)) as H0.
  assert (Hc : (store_Close s).1 = store_bytes s) by reflexivity.
  rewrite Hc. split; [reflexivity|]. split; [|split].
  - cbn. rewrite u64_small by lia. symmetry. exact Hinv.
  - unfold store_bytes at 1. cbn. apply app_nil_r.
  - intros pos. unfold store_Read. cbn [buf_Flush newStore store_File store_buf].
    rewrite app_nil_r. fold (store_bytes s).
    destruct (File_ReadAt (store_bytes s) lenWidth (int64 pos)) as [size| |]; try reflexivity.
    destruct (2 ^ 63 <=? BigEndian.Uint64 size); [reflexivity|].
    destruct (File_ReadAt _ _ _); reflexivity.
Qed.

(** A store with one frame on disk and one in the buffer. *)
Lemma store_Close_newStore_witness :
  let s := (store_Appends (newStore "0.store" (frame [104; 105])) [[1; 2; 3]]).2 in
  (store_Close s).1 = store_bytes s
  /\ store_size (newStore "0.store" (store_Close s).1) = store_size s
  /\ store_bytes (newStore "0.store" (store_Close s).1) = store_bytes s
  /\ forall pos,
       (store_Read (newStore "0.store" (store_Close s).1) pos).1 = (store_Read s pos).1.
Proof.
  intros s. apply (store_Close_newStore s "0.store"); vm_compute; reflexivity.
Defined.

(** ** Index: closing and reopening *)

Lemma index_rep_nonneg (i : index) es :
  index_rep i es -> 0 <= index_size i < 2 ^ 63.
Proof.
  intros (Hsize & Hle & Hm & _). pose proof (len_nonneg es). unfold entWidth, offWidth, posWidth in *. lia.
Qed.

(** What [Close] leaves of an index that holds [es], and the index
    [newIndex] makes of that file. *)
Lemma index_rep_reopen (i : index) es name c :
  index_rep i es ->
  index_size i <= MaxIndexBytes c -> 0 < MaxIndexBytes c < 2 ^ 63 ->
  exists content,
    index_Close i = Ok content
    /\ len content = entWidth * len es
    /\ newIndex name content c
       = (Ok (mkIndex name (truncate_to (MaxIndexBytes c) content) (entWidth * len es)),
          truncate_to (MaxIndexBytes c) content)
    /\ index_rep (mkIndex name (truncate_to (MaxIndexBytes c) content) (entWidth * len es)) es.
Proof.
  intros Hrep HM HM0. pose proof (index_rep_nonneg i es Hrep) as Hn.
  destruct Hrep as (Hsize & Hle & Hm & Hfits & Hent).
  exists (truncate_to (index_size i) (index_mmap i)).
  assert (Hlen : len (truncate_to (index_size i) (index_mmap i)) = entWidth * len es)
    by (rewrite len_truncate_to by lia; exact Hsize).
  split.
  { unfold index_Close. cbv zeta. rewrite int64_small by exact Hn.
    destruct (Z.ltb_spec (index_size i) 0) as [?|_]; [lia|reflexivity]. }
  split; [exact Hlen|]. split.
  { unfold newIndex. cbv zeta. rewrite Hlen, int64_small by lia.
    destruct (Z.ltb_spec (MaxIndexBytes c) 0) as [?|_]; [lia|].
    destruct (Z.eqb_spec (MaxIndexBytes c) 0) as [?|_]; [lia|].
    rewrite u64_small by lia. reflexivity. }
  unfold index_rep. cbn [index_size index_mmap].
  rewrite len_truncate_to by lia.
  split; [reflexivity|]. split; [lia|]. split; [lia|]. split; [exact Hfits|].
  intros k e He. destruct (Hent k e He) as [H1 H2].
  assert (Hk : Z.of_nat k < len es) by (apply lookup_lt_Some in He; unfold len; lia).
  unfold entry_at, entWidth, offWidth, posWidth in *.
  rewrite !slice_truncate_to by lia. split; assumption.
Qed.

Lemma index_Read_ext (i j : index) es in_ :
  index_rep i es -> index_rep j es -> len es <= 2 ^ 32 -> -1 <= in_ < 2 ^ 32 ->
  index_Read j in_ = index_Read i in_.
Proof.
  intros Hi Hj Hn Hin.
  rewrite (index_Read_rep i es in_ Hi Hn Hin), (index_Read_rep j es in_ Hj Hn Hin).
  reflexivity.
Qed.

(** X7.  Index reopening.  [Close] cuts the index file back to the entries
    written, 12 bytes each; [newIndex] on that file, with room for them
    all, gives an index of the same [size] from which [Read] returns, for
    every entry number (and for -1), what it returned before the index was
    closed. *)
Theorem index_Close_newIndex
    (name : string) (m : list Z) (es : list (Z * Z)) (i : index) (c : Config) :
  len m < 2 ^ 63 -> Forall entry_fits es -> len es <= 2 ^ 32 ->
  index_Writes (mkIndex name m 0) es = (Ok tt, i) ->
  entWidth * len es <= MaxIndexBytes c -> 0 < MaxIndexBytes c < 2 ^ 63 ->
  exists content i',
    index_Close i = Ok content
    /\ len content = entWidth * len es
    /\ (newIndex name content c).1 = Ok i'
    /\ index_size i' = index_size i
    /\ len (index_mmap i') = MaxIndexBytes c
    /\ forall in_, -1 <= in_ < 2 ^ 32 -> index_Read i' in_ = index_Read i in_.
Proof.
  intros Hm Hfits Hn HW HM HM0.
  destruct (index_Writes_rep es _ _ [] (index_rep_empty name m Hm) Hfits HW)
    as (Hrep & _ & _).
  cbn [app] in Hrep.
  assert (Hsize : index_size i = entWidth * len es) by apply Hrep.
  destruct (index_rep_reopen i es name c Hrep ltac:(lia) HM0)
    as (content & HC & Hlen & HN & Hrep').
  eexists content, _. split; [exact HC|]. split; [exact Hlen|].
  split; [rewrite HN; reflexivity|]. cbn [index_size index_mmap].
  split; [symmetry; exact Hsize|]. split; [apply len_truncate_to; lia|].
  intros in_ Hin. apply (index_Read_ext i _ es in_ Hrep Hrep' Hn Hin).
Qed.

(** Two entries in a mapping of 36 bytes, reopened with room for 1024. *)
Lemma index_Close_newIndex_witness :
  let es := [(0, 0); (1, 23)] in
  let i := (index_Writes (mkIndex "16.index" (replicate 36 0) 0) es).2 in
  let c := mkConfig 1024 1024 0 in
  exists content i',
    index_Close i = Ok content
    /\ len content = entWidth * len es
    /\ (newIndex "16.index" content c).1 = Ok i'
    /\ index_size i' = index_size i
    /\ len (index_mmap i') = MaxIndexBytes c
    /\ forall in_, -1 <= in_ < 2 ^ 32 -> index_Read i' in_ = index_Read i in_.
Proof.
  intros es i c.
  apply (index_Close_newIndex "16.index" (replicate 36 0) es i c).
  - vm_compute. reflexivity.
  - repeat constructor; vm_compute; try reflexivity; intros H; discriminate H.
  - vm_compute. intros H; discriminate H.
  - vm_compute. reflexivity.
  - vm_compute. intros H; discriminate H.
  - vm_compute. split; reflexivity.
Defined.

(** ** Logs: the range of offsets *)

Lemma stamp_cons first r rs :
  stamp first (r :: rs) = set_Offset r first :: stamp (first + 1) rs.
Proof.
  unfold stamp. change (len (r :: rs)) with (Z.of_nat (S (length rs))).
  rewrite Nat2Z.inj_succ, <- Z.add_1_l. fold (len rs).
  rewrite seqZ_cons_succ by apply len_nonneg. reflexivity.
Qed.

Lemma len_stamp first records : len (stamp first records) = len records.
Proof.
  unfold stamp, len. rewrite length_zip_with, length_seqZ. unfold len. lia.
Qed.

Lemma stamp_lookup first records k r :
  records !! k = Some r ->
  stamp first records !! k = Some (set_Offset r (first + Z.of_nat k)).
Proof.
  intros Hr. unfold stamp. rewrite lookup_zip_with, Hr. cbn.
  rewrite lookup_seqZ_lt by (apply lookup_lt_Some in Hr; unfold len; lia).
  reflexivity.
Qed.

Section log_more.

Variable Marshal : api_Record -> result (list Z).
Variable Unmarshal : list Z -> api_Record.
Hypothesis Unmarshal_Marshal : forall r p, Marshal r = Ok p -> Unmarshal p = r.

(** Appends that all marshal: the log afterwards holds the records it had
    and the new ones, stamped with their offsets. *)
Lemma Log_Appends_all records : forall l first chunks,
  Log_rep Marshal l first chunks -> store_fits Marshal (Log_Config l) ->
  0 <= first -> first + len (concat chunks) + len records < 2 ^ 64 ->
  marshals Marshal records ->
  exists l' chunks',
    Log_Appends Marshal l records
    = (Ok <$> seqZ (first + len (concat chunks)) (len records), l')
    /\ Log_rep Marshal l' first chunks'
    /\ concat chunks' = concat chunks ++ stamp (first + len (concat chunks)) records
    /\ Log_Config l' = Log_Config l.
Proof.
  induction records as [|r rs IH]; intros l first chunks Hrep Hfits H0 Hbound Hall.
  { exists l, chunks. cbn. rewrite app_nil_r. auto. }
  pose proof (len_nonneg (concat chunks)) as Hcc.
  change (len (r :: rs)) with (Z.of_nat (S (length rs))) in *.
  rewrite Nat2Z.inj_succ in *. fold (len rs) in *. pose proof (len_nonneg rs) as Hrs.
  pose proof (Log_Append_cases Marshal l first chunks r Hrep Hfits) as Hcase.
  cbv zeta in Hcase. cbn [Log_Appends].
  set (next := first + len (concat chunks)) in *.
  pose proof (Hall r next ltac:(left) ltac:(unfold next; lia)) as Hok.
  destruct (Marshal (set_Offset r next)) as [p|e|m] eqn:HM; try (exfalso; exact Hok).
  destruct Hcase as (l1 & HA & Hnext). rewrite HA.
  destruct (Hnext ltac:(lia)) as (chunks1 & Hrep1 & Hcat1 & Hc1).
  destruct (IH l1 first chunks1 Hrep1) as (l' & chunks' & HAs & Hrep' & Hcat' & Hc').
  { rewrite Hc1. exact Hfits. }
  { exact H0. }
  { rewrite Hcat1, len_app. change (len [set_Offset r next]) with 1. lia. }
  { intros r' off Hr'. apply Hall. right. exact Hr'. }
  rewrite Hcat1, len_app in HAs, Hcat'. change (len [set_Offset r next]) with 1 in HAs, Hcat'.
  replace (first + (len (concat chunks) + 1)) with (next + 1) in HAs, Hcat'
    by (unfold next; lia).
  rewrite HAs. exists l', chunks'.
  split.
  { rewrite <- Z.add_1_l, seqZ_cons_succ by lia. reflexivity. }
  split; [exact Hrep'|]. split; [|congruence].
  rewrite Hcat', stamp_cons, <- app_assoc. reflexivity.
Qed.

Lemma Log_LowestOffset_rep l first chunks :
  Log_rep Marshal l first chunks -> Log_LowestOffset l = Ok first.
Proof.
  intros Hrep. pose proof Hrep as (_ & _ & Hne & _).
  unfold Log_LowestOffset. destruct (Log_segments l) as [|p ps] eqn:Hs; [congruence|].
  destruct (Log_rep_lookup Marshal l first chunks 0 p Hrep) as (recs & s & _ & Hh & _ & Hb).
  { rewrite Hs. reflexivity. }
  rewrite Hh, Hb. unfold chunk_base. rewrite take_0.
  change (len (concat (@nil (list api_Record)))) with 0. f_equal. lia.
Qed.

Lemma Log_rep_first_nonneg l first chunks :
  Log_rep Marshal l first chunks -> 0 <= first.
Proof.
  intros Hrep. pose proof Hrep as (_ & _ & Hne & _).
  destruct (Log_segments l) as [|p ps] eqn:Hs; [congruence|].
  destruct (Log_rep_lookup Marshal l first chunks 0 p Hrep) as (recs & s & _ & _ & Hsr & Hb).
  { rewrite Hs. reflexivity. }
  destruct Hsr as (_ & Hb0 & _). rewrite Hb in Hb0. unfold chunk_base in Hb0.
  rewrite take_0 in Hb0. change (len (concat (@nil (list api_Record)))) with 0 in Hb0. lia.
Qed.

(** [Read] on a log that holds the records of [chunks]. *)
Lemma Log_Read_answer l first chunks off :
  Log_rep Marshal l first chunks ->
  exists l',
    Log_Read Unmarshal l off = (read_answer first (concat chunks) off, l')
    /\ Log_rep Marshal l' first chunks
    /\ Log_Config l' = Log_Config l.
Proof.
  intros Hrep. unfold read_answer.
  destruct (Z.leb_spec first off) as [Hlo|Hlo];
    [destruct (Z.ltb_spec off (first + len (concat chunks))) as [Hhi|Hhi]|]; cbn [andb].
  - destruct (lookup_lt_is_Some_2 (concat chunks) (Z.to_nat (off - first))) as [r Hr];
      [unfold len in *; lia|].
    destruct (Log_Read_rep Marshal Unmarshal Unmarshal_Marshal l first chunks _ r Hrep Hr)
      as (l' & HR & Hrep' & Hc).
    replace (first + Z.of_nat (Z.to_nat (off - first))) with off in HR by lia.
    exists l'. rewrite Hr. auto.
  - exists l. split; [|auto]. apply Log_Read_out_of_range. intros p Hp.
    apply list_elem_of_lookup in Hp as [i Hi].
    destruct (Log_rep_lookup Marshal l first chunks i p Hrep Hi) as (recs & s & Hr & Hs & Hsr & Hb).
    exists s. split; [exact Hs|]. intros Hoff.
    pose proof (Log_rep_covers Marshal l first chunks p s off Hrep
                  ltac:(eapply list_elem_of_lookup_2, Hi) Hs Hoff). lia.
  - exists l. split; [|auto]. apply Log_Read_out_of_range. intros p Hp.
    apply list_elem_of_lookup in Hp as [i Hi].
    destruct (Log_rep_lookup Marshal l first chunks i p Hrep Hi) as (recs & s & Hr & Hs & Hsr & Hb).
    exists s. split; [exact Hs|]. intros Hoff.
    pose proof (Log_rep_covers Marshal l first chunks p s off Hrep
                  ltac:(eapply list_elem_of_lookup_2, Hi) Hs Hoff). lia.
Qed.

(** X8.  The offsets of a log, below the wrap-around.  After [N] records
    were appended to a log made on an empty directory, [LowestOffset] is
    the initial offset and [HighestOffset] is the initial offset plus
    [N - 1]; on a log without records [HighestOffset] is the initial offset
    minus 1, and 0 when the initial offset is 0.  [Read(off)] returns
    record number [off - initial], with its [Offset] field set to [off],
    for every offset from the initial one to the highest, and the
    out-of-range error that names [off] for every other offset.
    Conditions: the initial offset plus [N] is below [2^64], so that no
    offset assigned is the last [uint64] and no [nextOffset] wraps to 0;
    every record can be marshalled with a [uint64] offset and the codec
    unmarshals what it marshalled; after the defaulting of [NewLog] the
    index of a segment has room for 1 to [2^32] entries, and a store file
    stays below [2^63] bytes. *)
Theorem Log_offsets_after_appends (c : Config) (records : list api_Record) :
  config_ok (defaulted c) -> store_fits Marshal (defaulted c) ->
  0 <= InitialOffset c -> InitialOffset c + len records < 2 ^ 64 ->
  marshals Marshal records ->
  exists l0 l,
    NewLog ∅ c = (Ok tt, l0)
    /\ Log_Appends Marshal l0 records
       = (Ok <$> seqZ (InitialOffset c) (len records), l)
    /\ Log_LowestOffset l = Ok (InitialOffset c)
    /\ Log_HighestOffset l
       = Ok (if InitialOffset c + len records =? 0 then 0
             else InitialOffset c + len records - 1)
    /\ forall off,
         (Log_Read Unmarshal l off).1
         = read_answer (InitialOffset c) (stamp (InitialOffset c) records) off.
Proof.
  intros Hcfg Hfits Hinit Hbound Hall. pose proof (len_nonneg records) as Hn.
  destruct (NewLog_fresh Marshal c Hcfg ltac:(lia)) as (l0 & HN & Hrep0 & Hc0).
  destruct (Log_Appends_all records l0 (InitialOffset c) [[]] Hrep0)
    as (l & chunks & HA & Hrep & Hcat & Hc).
  { rewrite Hc0. exact Hfits. }
  { exact Hinit. }
  { cbn. change (len (@nil api_Record)) with 0. lia. }
  { exact Hall. }
  cbn [concat app] in HA, Hcat. change (len (@nil api_Record)) with 0 in HA, Hcat.
  rewrite Z.add_0_r in HA, Hcat.
  exists l0, l. split; [exact HN|]. split; [exact HA|].
  split; [apply (Log_LowestOffset_rep l _ chunks Hrep)|]. split.
  - unfold Log_HighestOffset.
    rewrite (Log_highestOffset_rep Marshal l _ chunks Hrep), Hcat, len_stamp.
    destruct (Z.eqb_spec (InitialOffset c + len records) 0); [reflexivity|].
    rewrite u64_small by lia. reflexivity.
  - intros off. destruct (Log_Read_answer l _ chunks off Hrep) as (l' & HR & _).
    rewrite HR, Hcat. reflexivity.
Qed.


(** ** Logs: reads after Truncate *)

Lemma least_true (f : nat -> bool) : forall n,
  f n = true ->
  exists j, (j <= n)%nat /\ f j = true /\ forall i, (i < j)%nat -> f i = false.
Proof.
  intros n. revert f. induction n as [|n IH]; intros f H.
  - exists 0%nat. split; [lia|]. split; [exact H|]. intros i Hi. lia.
  - destruct (f 0%nat) eqn:E0.
    + exists 0%nat. split; [lia|]. split; [exact E0|]. intros i Hi. lia.
    + destruct (IH (fun i => f (S i)) H) as (j & Hj & Hfj & Hlt).
      exists (S j). split; [lia|]. split; [exact Hfj|].
      intros [|i] Hi; [exact E0|]. apply Hlt. lia.
Qed.

Lemma filter_from {A} (P : A -> bool) (l : list A) : forall j,
  (forall i x, l !! i = Some x -> P x = true <-> (j <= i)%nat) ->
  List.filter P l = drop j l.
Proof.
  induction l as [|x l IH]; intros j H; [rewrite drop_nil; reflexivity|].
  cbn [List.filter]. destruct j as [|j].
  - rewrite (proj2 (H 0%nat x eq_refl)) by lia. rewrite drop_0. f_equal.
    rewrite (IH 0%nat); [apply drop_0|].
    intros i y Hy. rewrite (H (S i) y Hy). lia.
  - destruct (P x) eqn:E.
    + apply (H 0%nat x eq_refl) in E. lia.
    + cbn [drop]. apply IH. intros i y Hy. rewrite (H (S i) y Hy). lia.
Qed.

Lemma Log_rep_next l first chunks i p :
  Log_rep Marshal l first chunks -> Log_segments l !! i = Some p ->
  exists s, Log_heap l !! p = Some s
    /\ nextOffset s = chunk_base first chunks (S i)
    /\ 0 <= index_size (seg_index s) < 2 ^ 63.
Proof.
  intros Hrep Hi.
  destruct (Log_rep_lookup Marshal l first chunks i p Hrep Hi) as (recs & s & Hr & Hs & Hsr & Hb).
  exists s. split; [exact Hs|].
  destruct Hsr as (_ & _ & Hn & _ & _ & _ & _ & _ & es & _ & Hirep & _).
  split; [|apply (index_rep_nonneg _ es Hirep)].
  rewrite (chunk_base_S first chunks i recs Hr). lia.
Qed.

(** [Truncate] on a log that holds the records of [chunks], when the last
    segment stays: a prefix of the segments goes. *)
Lemma Log_rep_Truncate l first chunks lowest :
  Log_rep Marshal l first chunks ->
  0 <= lowest -> lowest + 1 < first + len (concat chunks) ->
  first + len (concat chunks) <= 2 ^ 64 ->
  exists j l',
    (j < length chunks)%nat
    /\ Log_Truncate l lowest = (Ok tt, l')
    /\ Log_rep Marshal l' (chunk_base first chunks j) (drop j chunks)
    /\ (j = 0%nat \/ chunk_base first chunks j <= lowest + 1)
    /\ lowest + 1 < chunk_base first chunks (S j)
    /\ Log_Config l' = Log_Config l.
Proof.
  intros Hrep H0 Hlast H64.
  pose proof Hrep as (Hcfg & Hnd & Hne & Hact & Hlen & Hseg & Hdir).
  assert (Hbound : u64 (lowest + 1) = lowest + 1).
  { pose proof (len_nonneg (concat chunks)). apply u64_small. lia. }
  set (f := fun i => lowest + 1 <? chunk_base first chunks (S i)).
  assert (Hn : (0 < length chunks)%nat).
  { rewrite Hlen. destruct (Log_segments l); [congruence|cbn; lia]. }
  destruct (least_true f (pred (length chunks))) as (j & Hj & Hfj & Hlt).
  { unfold f. apply Z.ltb_lt.
    rewrite (chunk_base_all first chunks (S (pred (length chunks)))) by lia. exact Hlast. }
  unfold f in Hfj, Hlt. apply Z.ltb_lt in Hfj.
  assert (Hkeep : forall i p, Log_segments l !! i = Some p ->
            truncate_keeps (Log_heap l) (lowest + 1) p = true <-> (j <= i)%nat).
  { intros i p Hi.
    destruct (Log_rep_next l first chunks i p Hrep Hi) as (s & Hs & Hnx & _).
    unfold truncate_keeps. rewrite Hs, Hnx, Z.ltb_lt. split.
    - intros Hk. destruct (decide (j <= i)%nat) as [?|Hni]; [assumption|].
      specialize (Hlt i ltac:(lia)). apply Z.ltb_ge in Hlt. lia.
    - intros Hji. pose proof (chunk_base_mono first chunks (S j) (S i) ltac:(lia)). lia. }
  destruct (truncate_loop_spec (lowest + 1) (Log_segments l) (Log_heap l) (Log_Dir l) [])
    as (heap' & dir' & Hloop & Hkept & Hnone & _).
  { intros p Hp. apply list_elem_of_lookup in Hp as [i Hi].
    destruct (Log_rep_next l first chunks i p Hrep Hi) as (s & Hs & _ & Hsz). eauto. }
  rewrite (filter_from _ _ j Hkeep) in Hloop. cbn [app] in Hloop.
  exists j. eexists. split; [lia|]. split.
  { unfold Log_Truncate. rewrite Hbound, Hloop. reflexivity. }
  split; [|split; [|split; [exact Hfj|reflexivity]]].
  - unfold Log_rep. cbn [Log_Config Log_segments Log_activeSegment Log_heap Log_Dir].
    assert (Hdne : drop j (Log_segments l) <> []).
    { intros E. apply (f_equal length) in E. rewrite length_drop in E. cbn in E. lia. }
    split; [exact Hcfg|]. split.
    { eapply sublist_NoDup; [exact Hnd|apply sublist_drop]. }
    split; [exact Hdne|]. split.
    { rewrite Hact, !last_lookup, lookup_drop, length_drop. f_equal. lia. }
    split; [rewrite !length_drop; lia|]. split.
    + intros i p recs Hp Hr. rewrite lookup_drop in Hp. rewrite lookup_drop in Hr.
      destruct (Hseg (j + i)%nat p recs Hp Hr) as (s & Hs & Hsr & Hb).
      exists s. split.
      { rewrite Hkept; [exact Hs|]. apply (Hkeep (j + i)%nat p Hp). lia. }
      split; [exact Hsr|]. rewrite Hb. unfold chunk_base.
      rewrite <- (take_take_drop chunks j i), concat_app, len_app. lia.
    + intros name Hsome. destruct (Hdir name) as (b & ext & -> & Hext & Hb).
      { destruct (Log_Dir l !! name) eqn:E; [eauto|].
        rewrite (Hnone name E) in Hsome. destruct Hsome as [? ?]; discriminate. }
      exists b, ext. split; [reflexivity|]. split; [exact Hext|].
      replace (chunk_base first chunks j
               + len (concat (take (pred (length (drop j chunks))) (drop j chunks))))
        with (first + len (concat (take (pred (length chunks)) chunks))); [exact Hb|].
      unfold chunk_base. rewrite length_drop.
      replace (pred (length chunks)) with (j + pred (length chunks - j))%nat by lia.
      rewrite <- (take_take_drop chunks j (pred (length chunks - j))), concat_app, len_app.
      lia.
  - destruct j as [|j]; [left; reflexivity|right].
    specialize (Hlt j ltac:(lia)). apply Z.ltb_ge in Hlt. exact Hlt.
Qed.

Lemma read_answer_suffix first (old kept : list api_Record) off :
  first + len old <= off ->
  read_answer (first + len old) kept off = read_answer first (old ++ kept) off.
Proof.
  intros Hoff. pose proof (len_nonneg old) as Ho. unfold read_answer.
  rewrite len_app.
  replace (first + len old <=? off) with true by (symmetry; apply Z.leb_le; lia).
  replace (first <=? off) with true by (symmetry; apply Z.leb_le; lia).
  replace (first + (len old + len kept)) with (first + len old + len kept) by lia.
  destruct (off <? first + len old + len kept); cbn [andb]; [|reflexivity].
  rewrite lookup_app_r by (unfold len in *; lia).
  replace (Z.to_nat (off - first) - length old)%nat
    with (Z.to_nat (off - (first + len old))) by (unfold len in *; lia).
  reflexivity.
Qed.

Lemma read_answer_below first stored off :
  off < first ->
  read_answer first stored off = Err (Errorf ("offset out of range: " +:+ pretty off)).
Proof.
  intros Hoff. unfold read_answer.
  destruct (Z.leb_spec first off); [lia|reflexivity].
Qed.

(** X9.  Reads and appends after [Truncate], below the wrap-around.  On a
    log made on an empty directory that holds [N] appended records,
    [Truncate(lowest)] with [lowest] below the highest offset never loses a
    record above [lowest]: afterwards [LowestOffset] is at most
    [lowest + 1] (or still the initial offset), [HighestOffset] is what it
    was, [Read] answers as before for every offset from [LowestOffset] on
    and with the out-of-range error below it, and the next [Append] gets
    the offset it would have got without the call.
    Conditions: the initial offset plus [N] is below [2^64], so that no
    offset assigned is the last [uint64] and no [nextOffset] wraps to 0;
    every record can be marshalled with a [uint64] offset and the codec
    unmarshals what it marshalled; after the defaulting of [NewLog] the
    index of a segment has room for 1 to [2^32] entries, and a store file
    stays below [2^63] bytes. *)
Theorem Log_Truncate_keeps_later_records
    (c : Config) (records : list api_Record) (lowest : Z) :
  config_ok (defaulted c) -> store_fits Marshal (defaulted c) ->
  0 <= InitialOffset c -> InitialOffset c + len records < 2 ^ 64 ->
  marshals Marshal records ->
  0 <= lowest -> lowest + 1 < InitialOffset c + len records ->
  exists l l' low,
    Log_Appends Marshal (NewLog ∅ c).2 records
    = (Ok <$> seqZ (InitialOffset c) (len records), l)
    /\ Log_Truncate l lowest = (Ok tt, l')
    /\ Log_LowestOffset l' = Ok low
    /\ InitialOffset c <= low
    /\ (low = InitialOffset c \/ low <= lowest + 1)
    /\ Log_HighestOffset l' = Log_HighestOffset l
    /\ (forall off, low <= off ->
          (Log_Read Unmarshal l' off).1 = (Log_Read Unmarshal l off).1)
    /\ (forall off, off < low ->
          (Log_Read Unmarshal l' off).1
          = Err (Errorf ("offset out of range: " +:+ pretty off)))
    /\ (forall r, marshals Marshal [r] ->
          (Log_Append Marshal l' r).1.1 = Ok (InitialOffset c + len records)).
Proof.
  intros Hcfg Hfits Hinit Hbound Hall H0 Hlow. pose proof (len_nonneg records) as Hn.
  destruct (NewLog_fresh Marshal c Hcfg ltac:(lia)) as (l0 & HN & Hrep0 & Hc0).
  destruct (Log_Appends_all records l0 (InitialOffset c) [[]] Hrep0)
    as (l & chunks & HA & Hrep & Hcat & Hc).
  { rewrite Hc0. exact Hfits. }
  { exact Hinit. }
  { cbn. change (len (@nil api_Record)) with 0. lia. }
  { exact Hall. }
  cbn [concat app] in HA, Hcat. change (len (@nil api_Record)) with 0 in HA, Hcat.
  rewrite Z.add_0_r in HA, Hcat.
  assert (Hlen : len (concat chunks) = len records) by (rewrite Hcat; apply len_stamp).
  destruct (Log_rep_Truncate l (InitialOffset c) chunks lowest Hrep H0)
    as (j & l' & Hj & HT & Hrep' & Hjlow & _ & Hc'); [lia|lia|].
  set (low := chunk_base (InitialOffset c) chunks j) in *.
  assert (Hsplit : concat chunks = concat (take j chunks) ++ concat (drop j chunks))
    by (rewrite <- concat_app, take_drop; reflexivity).
  assert (Hlowdef : low = InitialOffset c + len (concat (take j chunks))) by reflexivity.
  pose proof (len_nonneg (concat (take j chunks))) as Hpre.
  assert (Hnext : low + len (concat (drop j chunks)) = InitialOffset c + len records).
  { rewrite <- Hlen, Hsplit, len_app. lia. }
  exists l, l', low. rewrite HN. split; [exact HA|]. split; [exact HT|].
  split; [apply (Log_LowestOffset_rep l' low _ Hrep')|]. split; [lia|]. split.
  { destruct Hjlow as [->|Hle]; [left|right; exact Hle].
    unfold low, chunk_base. rewrite take_0.
    change (len (concat (@nil (list api_Record)))) with 0. lia. }
  split.
  { unfold Log_HighestOffset.
    rewrite (Log_highestOffset_rep Marshal l' low _ Hrep').
    rewrite (Log_highestOffset_rep Marshal l _ chunks Hrep).
    rewrite Hnext, Hlen. reflexivity. }
  split; [|split].
  - intros off Hoff.
    destruct (Log_Read_answer l' low _ off Hrep') as (l1 & HR1 & _).
    destruct (Log_Read_answer l _ chunks off Hrep) as (l2 & HR2 & _).
    rewrite HR1, HR2. cbn [fst]. rewrite Hsplit, Hlowdef.
    apply read_answer_suffix. lia.
  - intros off Hoff.
    destruct (Log_Read_answer l' low _ off Hrep') as (l1 & HR1 & _).
    rewrite HR1. cbn [fst]. apply read_answer_below. exact Hoff.
  - intros r Hr.
    pose proof (Log_Append_cases Marshal l' low _ r Hrep') as Hcase.
    rewrite Hc', Hc, Hc0 in Hcase. specialize (Hcase Hfits). cbv zeta in Hcase.
    rewrite Hnext in Hcase.
    pose proof (Hr r (InitialOffset c + len records) ltac:(left) ltac:(lia)) as Hok.
    destruct (Marshal (set_Offset r (InitialOffset c + len records))); try (exfalso; exact Hok).
    destruct Hcase as (l2 & -> & _). reflexivity.
Qed.

(** ** The RPC handlers over a log *)

Lemma ProduceStream_Appends recv_err rs : forall l offs l',
  Log_Appends Marshal l rs = (Ok <$> offs, l') ->
  grpcServer_ProduceStream Marshal None (fun _ => None) recv_err l rs
  = (offs, Ok recv_err, l').
Proof.
  induction rs as [|r rs IH]; intros l offs l' H.
  - cbn in H. injection H as Ho <-. destruct offs; [reflexivity|discriminate].
  - cbn [Log_Appends] in H. cbn [grpcServer_ProduceStream grpcServer_Produce].
    destruct (Log_Append Marshal l r) as [[res l1] r'].
    destruct (Log_Appends Marshal l1 rs) as [results l2] eqn:HA.
    destruct res as [o|e|m].
    + injection H as Ho <-. destruct offs as [|o' offs]; [discriminate|].
      rewrite fmap_cons in Ho. injection Ho as <- Ho. subst results.
      rewrite (IH l1 offs l2 HA). reflexivity.
    + injection H as Ho _. destruct offs; discriminate.
    + injection H as Ho _. destruct offs as [|o' offs]; discriminate.
Qed.

(** X10.  [ProduceStream], below the wrap-around.  On a log made on an
    empty directory, [ProduceStream] answers the [N] requests of a stream
    in their order with the offsets [initial], [initial + 1], ..., and
    returns with the error that ended [Recv]; afterwards [Consume] returns,
    for each of these offsets, the record of the request it answered.  A
    stream whose subject the authorizer refuses gets no response: it ends
    at its first request with the authorizer's error, and the log is not
    touched.  The authorizer accepts the subject of the first stream and
    [Send] succeeds.
    Conditions: the initial offset plus [N] is below [2^64], so that no
    offset assigned is the last [uint64] and no [nextOffset] wraps to 0;
    every record can be marshalled with a [uint64] offset and the codec
    unmarshals what it marshalled; after the defaulting of [NewLog] the
    index of a segment has room for 1 to [2^32] entries, and a store file
    stays below [2^63] bytes. *)
Theorem ProduceStream_answers_in_order
    (c : Config) (records : list api_Record) (recv_err : error) :
  config_ok (defaulted c) -> store_fits Marshal (defaulted c) ->
  0 <= InitialOffset c -> InitialOffset c + len records < 2 ^ 64 ->
  marshals Marshal records ->
  (exists l,
     grpcServer_ProduceStream Marshal None (fun _ => None) recv_err
       (NewLog ∅ c).2 records
     = (seqZ (InitialOffset c) (len records), Ok recv_err, l)
     /\ forall off,
          (grpcServer_Consume Unmarshal None l off).1
          = read_answer (InitialOffset c) (stamp (InitialOffset c) records) off)
  /\ (forall e send r rs,
        grpcServer_ProduceStream Marshal (Some e) send recv_err (NewLog ∅ c).2 (r :: rs)
        = ([], Ok e, (NewLog ∅ c).2)).
Proof.
  intros Hcfg Hfits Hinit Hbound Hall. split; [|reflexivity].
  pose proof (len_nonneg records) as Hn.
  destruct (NewLog_fresh Marshal c Hcfg ltac:(lia)) as (l0 & HN & Hrep0 & Hc0).
  destruct (Log_Appends_all records l0 (InitialOffset c) [[]] Hrep0)
    as (l & chunks & HA & Hrep & Hcat & Hc).
  { rewrite Hc0. exact Hfits. }
  { exact Hinit. }
  { cbn. change (len (@nil api_Record)) with 0. pose proof (len_nonneg records). lia. }
  { exact Hall. }
  cbn [concat app] in HA, Hcat. change (len (@nil api_Record)) with 0 in HA, Hcat.
  rewrite Z.add_0_r in HA, Hcat.
  exists l. rewrite HN. split; [apply ProduceStream_Appends, HA|].
  intros off. cbn [grpcServer_Consume].
  destruct (Log_Read_answer l _ chunks off Hrep) as (l' & HR & _).
  rewrite HR, Hcat. reflexivity.
Qed.

Lemma ConsumeStream_rep passes : forall l first chunks start,
  Log_rep Marshal l first chunks ->
  first <= start -> start + Z.of_nat passes <= first + len (concat chunks) ->
  first + len (concat chunks) < 2 ^ 64 ->
  exists l',
    grpcServer_ConsumeStream Unmarshal passes None (fun _ => false) (fun _ => None) l start
    = (take passes (drop (Z.to_nat (start - first)) (concat chunks)), None,
       start + Z.of_nat passes, l')
    /\ Log_rep Marshal l' first chunks.
Proof.
  induction passes as [|k IH]; intros l first chunks start Hrep Hlo Hhi H64.
  - exists l. cbn. rewrite Z.add_0_r. auto.
  - pose proof (Log_rep_first_nonneg l first chunks Hrep) as Hf.
    destruct (lookup_lt_is_Some_2 (concat chunks) (Z.to_nat (start - first))) as [r Hr];
      [unfold len in *; lia|].
    destruct (Log_Read_rep Marshal Unmarshal Unmarshal_Marshal l first chunks _ r Hrep Hr)
      as (l1 & HR & Hrep1 & _).
    replace (first + Z.of_nat (Z.to_nat (start - first))) with start in HR by lia.
    destruct (IH l1 first chunks (start + 1) Hrep1) as (l' & HC & Hrep'); [lia|lia|lia|].
    exists l'. split; [|exact Hrep'].
    cbn [grpcServer_ConsumeStream grpcServer_Consume]. rewrite HR.
    unfold server.ConsumeStream_pass. rewrite u64_small by lia. rewrite HC.
    replace (Z.to_nat (start + 1 - first)) with (S (Z.to_nat (start - first))) by lia.
    rewrite (drop_S _ r _ Hr). cbn [take].
    replace (start + Z.of_nat (S k)) with (start + 1 + Z.of_nat k) by lia. reflexivity.
Qed.

(** X11.  [ConsumeStream] on a log that holds [N] records sends them in
    the order of their offsets, each one once: from [req.Offset = start],
    the first [k] turns of its loop send the records of the offsets [start]
    to [start + k - 1] as [Read] returns them, and leave [req.Offset] at
    [start + k].  The context is not done and [Send] succeeds. *)
Theorem ConsumeStream_sends_in_order
    (c : Config) (records : list api_Record) (start : Z) (k : nat) :
  config_ok (defaulted c) -> store_fits Marshal (defaulted c) ->
  0 <= InitialOffset c -> InitialOffset c + len records < 2 ^ 64 ->
  marshals Marshal records ->
  InitialOffset c <= start -> start + Z.of_nat k <= InitialOffset c + len records ->
  exists l l',
    Log_Appends Marshal (NewLog ∅ c).2 records
    = (Ok <$> seqZ (InitialOffset c) (len records), l)
    /\ grpcServer_ConsumeStream Unmarshal k None (fun _ => false) (fun _ => None) l start
       = (take k (drop (Z.to_nat (start - InitialOffset c))
                       (stamp (InitialOffset c) records)),
          None, start + Z.of_nat k, l').
Proof.
  intros Hcfg Hfits Hinit Hbound Hall Hlo Hhi.
  destruct (NewLog_fresh Marshal c Hcfg ltac:(pose proof (len_nonneg records); lia))
    as (l0 & HN & Hrep0 & Hc0).
  destruct (Log_Appends_all records l0 (InitialOffset c) [[]] Hrep0)
    as (l & chunks & HA & Hrep & Hcat & Hc).
  { rewrite Hc0. exact Hfits. }
  { exact Hinit. }
  { cbn. change (len (@nil api_Record)) with 0. pose proof (len_nonneg records). lia. }
  { exact Hall. }
  cbn [concat app] in HA, Hcat. change (len (@nil api_Record)) with 0 in HA, Hcat.
  rewrite Z.add_0_r in HA, Hcat.
  assert (Hlen : len (concat chunks) = len records) by (rewrite Hcat; apply len_stamp).
  destruct (ConsumeStream_rep k l (InitialOffset c) chunks start Hrep Hlo)
    as (l' & HC & _); [lia|lia|].
  exists l, l'. rewrite HN. split; [exact HA|]. rewrite HC, Hcat. reflexivity.
Qed.

(** ** The Raft log store *)

Lemma StoreLogs_Appends records : forall l offs l',
  Log_Appends Marshal l (record_of <$> records) = (Ok <$> offs, l') ->
  logStore_StoreLogs Marshal l records = (Ok tt, l').
Proof.
  induction records as [|r rs IH]; intros l offs l' H.
  - cbn in H. injection H as _ <-. reflexivity.
  - rewrite fmap_cons in H. cbn [Log_Appends] in H. cbn [logStore_StoreLogs].
    destruct (Log_Append Marshal l (record_of r)) as [[res l1] r'].
    destruct (Log_Appends Marshal l1 (record_of <$> rs)) as [results l2] eqn:HA.
    destruct res as [o|e|m].
    + injection H as Ho <-. destruct offs as [|o' offs]; [discriminate|].
      rewrite fmap_cons in Ho. injection Ho as _ Ho. subst results.
      apply (IH l1 offs l2 HA).
    + injection H as Ho _. destruct offs; discriminate.
    + injection H as Ho _. destruct offs as [|o' offs]; discriminate.
Qed.

(** X12.  The Raft log store, below the wrap-around.  After [StoreLogs]
    stored [N] entries in a store made on an empty directory, [FirstIndex]
    is the initial offset, [LastIndex] the initial offset plus [N - 1] (0
    for no entry at initial offset 0), and [GetLog(initial + k)] gives
    entry number [k] back: its [Data], [Term] and [Type], with [Index] set
    to [initial + k] whatever [Index] the entry was stored with; [GetLog]
    of any other index fails and leaves [out] as it was.  Types are
    [uint8] values.
    Conditions: the initial offset plus [N] is below [2^64], so that no
    offset assigned is the last [uint64] and no [nextOffset] wraps to 0;
    every record can be marshalled with a [uint64] offset and the codec
    unmarshals what it marshalled; after the defaulting of [NewLog] the
    index of a segment has room for 1 to [2^32] entries, and a store file
    stays below [2^63] bytes. *)
Theorem logStore_StoreLogs_GetLog (c : Config) (records : list raft_Log) :
  config_ok (defaulted c) -> store_fits Marshal (defaulted c) ->
  0 <= InitialOffset c -> InitialOffset c + len records < 2 ^ 64 ->
  marshals Marshal (record_of <$> records) ->
  Forall (fun r => 0 <= raft_Type r < 2 ^ 8) records ->
  exists l,
    logStore_StoreLogs Marshal (NewLog ∅ c).2 records = (Ok tt, l)
    /\ logStore_FirstIndex l = Ok (InitialOffset c)
    /\ logStore_LastIndex l
       = Ok (if InitialOffset c + len records =? 0 then 0
             else InitialOffset c + len records - 1)
    /\ (forall k r out,
          records !! k = Some r ->
          (logStore_GetLog Unmarshal l (InitialOffset c + Z.of_nat k) out).1
          = (Ok tt, mkRaftLog (InitialOffset c + Z.of_nat k)
                              (raft_Term r) (raft_Type r) (raft_Data r)))
    /\ (forall index out,
          ~ (InitialOffset c <= index < InitialOffset c + len records) ->
          (logStore_GetLog Unmarshal l index out).1
          = (Err (Errorf ("offset out of range: " +:+ pretty index)), out)).
Proof.
  intros Hcfg Hfits Hinit Hbound Hall Htypes. pose proof (len_nonneg records) as Hn.
  assert (Hlenf : len (record_of <$> records) = len records)
    by (unfold len; rewrite length_fmap; reflexivity).
  destruct (NewLog_fresh Marshal c Hcfg ltac:(lia)) as (l0 & HN & Hrep0 & Hc0).
  destruct (Log_Appends_all (record_of <$> records) l0 (InitialOffset c) [[]] Hrep0)
    as (l & chunks & HA & Hrep & Hcat & Hc).
  { rewrite Hc0. exact Hfits. }
  { exact Hinit. }
  { cbn. change (len (@nil api_Record)) with 0. lia. }
  { exact Hall. }
  cbn [concat app] in HA, Hcat. change (len (@nil api_Record)) with 0 in HA, Hcat.
  rewrite Z.add_0_r in HA, Hcat.
  exists l. rewrite HN. split; [apply (StoreLogs_Appends records l0 _ l HA)|].
  split; [apply (Log_LowestOffset_rep l _ chunks Hrep)|]. split; [|split].
  - unfold logStore_LastIndex, Log_HighestOffset.
    rewrite (Log_highestOffset_rep Marshal l _ chunks Hrep), Hcat, len_stamp, Hlenf.
    destruct (Z.eqb_spec (InitialOffset c + len records) 0); [reflexivity|].
    rewrite u64_small by lia. reflexivity.
  - intros k r out Hk. unfold logStore_GetLog.
    destruct (Log_Read_answer l _ chunks (InitialOffset c + Z.of_nat k) Hrep) as (l' & HR & _).
    rewrite HR, Hcat. unfold read_answer. rewrite len_stamp, Hlenf.
    pose proof (lookup_lt_Some _ _ _ Hk) as Hklt.
    destruct (Z.leb_spec (InitialOffset c) (InitialOffset c + Z.of_nat k)); [|lia].
    destruct (Z.ltb_spec (InitialOffset c + Z.of_nat k) (InitialOffset c + len records));
      [|unfold len in *; lia].
    cbn [andb].
    replace (Z.to_nat (InitialOffset c + Z.of_nat k - InitialOffset c)) with k by lia.
    rewrite (stamp_lookup _ _ k (record_of r)) by (rewrite list_lookup_fmap, Hk; reflexivity).
    cbn [fst record_of set_Offset Offset Term Type_ Value].
    rewrite Forall_forall in Htypes.
    pose proof (Htypes r ltac:(eapply list_elem_of_lookup_2, Hk)) as Ht.
    rewrite u32_small by lia. unfold u8. rewrite Z.mod_small by lia. reflexivity.
  - intros index out Hout. unfold logStore_GetLog.
    destruct (Log_Read_answer l _ chunks index Hrep) as (l' & HR & _).
    rewrite HR, Hcat. unfold read_answer. rewrite len_stamp, Hlenf.
    destruct (Z.leb_spec (InitialOffset c) index);
      [destruct (Z.ltb_spec index (InitialOffset c + len records)); [lia|]|];
      reflexivity.
Qed.
End log_more.


(** Four records from offset 7, three index entries per segment. *)
Lemma Log_offsets_after_appends_witness :
  let c := mkConfig 0 36 7 in
  let records := (fun v => mkRecord [v] 0 0 0) <$> [1; 2; 3; 4] in
  exists l0 l,
    NewLog ∅ c = (Ok tt, l0)
    /\ Log_Appends wire_Marshal l0 records
       = (Ok <$> seqZ (InitialOffset c) (len records), l)
    /\ Log_LowestOffset l = Ok (InitialOffset c)
    /\ Log_HighestOffset l
       = Ok (if InitialOffset c + len records =? 0 then 0
             else InitialOffset c + len records - 1)
    /\ forall off,
         (Log_Read wire_Unmarshal l off).1
         = read_answer (InitialOffset c) (stamp (InitialOffset c) records) off.
Proof.
  intros c records.
  apply (Log_offsets_after_appends wire_Marshal wire_Unmarshal wire_Unmarshal_Marshal
           c records).
  - unfold config_ok. vm_compute. repeat split; discriminate.
  - apply wire_store_fits. vm_compute. discriminate.
  - vm_compute. discriminate.
  - vm_compute. reflexivity.
  - apply wire_marshals. repeat constructor.
Defined.

(** Five records with three index entries per segment, then
    [Truncate(2)]: the segment of the offsets 0 to 2 goes. *)
Lemma Log_Truncate_keeps_later_records_witness :
  let c := mkConfig 0 36 0 in
  let records := (fun v => mkRecord [v] 0 0 0) <$> [1; 2; 3; 4; 5] in
  exists l l' low,
    Log_Appends wire_Marshal (NewLog ∅ c).2 records
    = (Ok <$> seqZ (InitialOffset c) (len records), l)
    /\ Log_Truncate l 2 = (Ok tt, l')
    /\ Log_LowestOffset l' = Ok low
    /\ InitialOffset c <= low
    /\ (low = InitialOffset c \/ low <= 2 + 1)
    /\ Log_HighestOffset l' = Log_HighestOffset l
    /\ (forall off, low <= off ->
          (Log_Read wire_Unmarshal l' off).1 = (Log_Read wire_Unmarshal l off).1)
    /\ (forall off, off < low ->
          (Log_Read wire_Unmarshal l' off).1
          = Err (Errorf ("offset out of range: " +:+ pretty off)))
    /\ (forall r, marshals wire_Marshal [r] ->
          (Log_Append wire_Marshal l' r).1.1 = Ok (InitialOffset c + len records)).
Proof.
  intros c records.
  apply (Log_Truncate_keeps_later_records wire_Marshal wire_Unmarshal
           wire_Unmarshal_Marshal c records 2).
  - unfold config_ok. vm_compute. repeat split; discriminate.
  - apply wire_store_fits. vm_compute. discriminate.
  - vm_compute. discriminate.
  - vm_compute. reflexivity.
  - apply wire_marshals. repeat constructor.
  - vm_compute. discriminate.
  - vm_compute. reflexivity.
Defined.

(** Four requests on a log of three index entries per segment. *)
Lemma ProduceStream_answers_in_order_witness :
  let c := mkConfig 0 36 0 in
  let records := (fun v => mkRecord [v] 0 0 0) <$> [1; 2; 3; 4] in
  (exists l,
     grpcServer_ProduceStream wire_Marshal None (fun _ => None) EOF
       (NewLog ∅ c).2 records
     = (seqZ (InitialOffset c) (len records), Ok EOF, l)
     /\ forall off,
          (grpcServer_Consume wire_Unmarshal None l off).1
          = read_answer (InitialOffset c) (stamp (InitialOffset c) records) off)
  /\ (forall e send r rs,
        grpcServer_ProduceStream wire_Marshal (Some e) send EOF (NewLog ∅ c).2 (r :: rs)
        = ([], Ok e, (NewLog ∅ c).2)).
Proof.
  intros c records.
  apply (ProduceStream_answers_in_order wire_Marshal wire_Unmarshal
           wire_Unmarshal_Marshal c records EOF).
  - unfold config_ok. vm_compute. repeat split; discriminate.
  - apply wire_store_fits. vm_compute. discriminate.
  - vm_compute. discriminate.
  - vm_compute. reflexivity.
  - apply wire_marshals. repeat constructor.
Defined.

(** Four records; the stream starts at offset 1 and makes three turns. *)
Lemma ConsumeStream_sends_in_order_witness :
  let c := mkConfig 0 36 0 in
  let records := (fun v => mkRecord [v] 0 0 0) <$> [1; 2; 3; 4] in
  exists l l',
    Log_Appends wire_Marshal (NewLog ∅ c).2 records
    = (Ok <$> seqZ (InitialOffset c) (len records), l)
    /\ grpcServer_ConsumeStream wire_Unmarshal 3 None (fun _ => false) (fun _ => None) l 1
       = (take 3 (drop (Z.to_nat (1 - InitialOffset c))
                       (stamp (InitialOffset c) records)),
          None, 1 + Z.of_nat 3, l').
Proof.
  intros c records.
  apply (ConsumeStream_sends_in_order wire_Marshal wire_Unmarshal
           wire_Unmarshal_Marshal c records 1 3).
  - unfold config_ok. vm_compute. repeat split; discriminate.
  - apply wire_store_fits. vm_compute. discriminate.
  - vm_compute. discriminate.
  - vm_compute. reflexivity.
  - apply wire_marshals. repeat constructor.
  - vm_compute. discriminate.
  - vm_compute. discriminate.
Defined.

(** Three entries stored from index 1, as the Raft setup configures the
    store, with indices that the store does not look at. *)
Lemma logStore_StoreLogs_GetLog_witness :
  let c := mkConfig 0 36 1 in
  let records := [mkRaftLog 1 1 0 [104]; mkRaftLog 2 1 1 []; mkRaftLog 9 2 0 [105]] in
  exists l,
    logStore_StoreLogs wire_Marshal (NewLog ∅ c).2 records = (Ok tt, l)
    /\ logStore_FirstIndex l = Ok (InitialOffset c)
    /\ logStore_LastIndex l
       = Ok (if InitialOffset c + len records =? 0 then 0
             else InitialOffset c + len records - 1)
    /\ (forall k r out,
          records !! k = Some r ->
          (logStore_GetLog wire_Unmarshal l (InitialOffset c + Z.of_nat k) out).1
          = (Ok tt, mkRaftLog (InitialOffset c + Z.of_nat k)
                              (raft_Term r) (raft_Type r) (raft_Data r)))
    /\ (forall index out,
          ~ (InitialOffset c <= index < InitialOffset c + len records) ->
          (logStore_GetLog wire_Unmarshal l index out).1
          = (Err (Errorf ("offset out of range: " +:+ pretty index)), out)).
Proof.
  intros c records.
  apply (logStore_StoreLogs_GetLog wire_Marshal wire_Unmarshal
           wire_Unmarshal_Marshal c records).
  - unfold config_ok. vm_compute. repeat split; discriminate.
  - apply wire_store_fits. vm_compute. discriminate.
  - vm_compute. discriminate.
  - vm_compute. reflexivity.
  - apply wire_marshals. repeat constructor.
  - repeat constructor; vm_compute; try reflexivity; intros H; discriminate H.
Defined.

(** ** Replicator: the servers being replicated *)

Lemma Replicator_init_ok (r : Replicator) :
  Replicator_ok r ->
  Replicator_ok (Replicator_init r)
  /\ is_Some (servers (Replicator_init r))
  /\ is_Some (close (Replicator_init r))
  /\ closed (Replicator_init r) = closed r
  /\ goroutines (Replicator_init r) = goroutines r.
Proof.
  intros Hok. pose proof Hok as (H1 & H2 & H3 & H4). unfold Replicator_init.
  destruct r as [sv cl c chs gs]. cbn [servers closed close chans goroutines] in *.
  assert (Hsv : forall m name ch,
            match sv with None => Some ∅ | Some _ => sv end = Some m ->
            m !! name = Some ch -> sv = Some m).
  { intros m name ch Hm Hn. destruct sv as [m0|]; [exact Hm|].
    injection Hm as <-. rewrite lookup_empty in Hn. discriminate. }
  assert (Hsome : is_Some (match sv with None => Some (∅ : gmap string nat) | Some _ => sv end))
    by (destruct sv; eauto).
  destruct c as [c|].
  - assert (Hgoal : Replicator_ok
              (mkReplicator (match sv with None => Some ∅ | Some _ => sv end) cl
                            (Some c) chs gs)).
    { split; [|split; [|split]]; cbn [servers closed close chans goroutines].
      - intros m name ch Hm Hn. pose proof (Hsv m name ch Hm Hn) as Hm'.
        apply (H1 m name ch Hm' Hn).
      - exact H2.
      - exact H3.
      - exact H4. }
    destruct sv as [m0|]; cbn [servers closed close chans goroutines] in *;
      (split; [exact Hgoal|]); (split; [exact Hsome|]); (split; [eauto|]);
      split; reflexivity.
  - assert (Hcl : cl = false) by (apply H3; reflexivity). subst cl.
    assert (Hgoal : Replicator_ok
              (mkReplicator (match sv with None => Some ∅ | Some _ => sv end) false
                            (Some (length chs)) (chs ++ [false]) gs)).
    { split; [|split; [|split]]; cbn [servers closed close chans goroutines].
      - intros m name ch Hm Hn. pose proof (Hsv m name ch Hm Hn) as Hm'.
        destruct (H1 m name ch Hm' Hn) as (Ha & Hb & Hc & Hd).
        pose proof (lookup_lt_Some _ _ _ Ha) as Hlt.
        split; [rewrite lookup_app_l by exact Hlt; exact Ha|].
        split; [intros [= E]; lia|]. split; [exact Hc|exact Hd].
      - intros ch [= <-]. rewrite lookup_app_r by lia.
        rewrite Nat.sub_diag. reflexivity.
      - discriminate.
      - intros g Hg. rewrite length_app. specialize (H4 g Hg). cbn. lia. }
    destruct sv as [m0|]; cbn [servers closed close chans goroutines] in *;
      (split; [exact Hgoal|]); (split; [exact Hsome|]); (split; [eauto|]);
      split; reflexivity.
Qed.

Lemma started_for_snoc_other (gs : list (string * nat)) (addr : string) (ch ch0 : nat) :
  ch <> ch0 ->
  List.filter (fun g : string * nat => Nat.eqb g.2 ch0) (gs ++ [(addr, ch)])
  = List.filter (fun g : string * nat => Nat.eqb g.2 ch0) gs.
Proof.
  intros Hne. rewrite List.filter_app. cbn [List.filter snd].
  destruct (Nat.eqb_spec ch ch0); [congruence|]. apply app_nil_r.
Qed.

Lemma started_for_fresh gs ch :
  (forall g : string * nat, g ∈ gs -> (g.2 < ch)%nat) ->
  List.filter (fun g : string * nat => Nat.eqb g.2 ch) gs = [].
Proof.
  induction gs as [|g gs IH]; intros H; [reflexivity|].
  cbn [List.filter]. destruct (Nat.eqb_spec g.2 ch) as [E|_].
  - specialize (H g ltac:(left)). lia.
  - apply IH. intros g' Hg'. apply H. right. exact Hg'.
Qed.

(** One call on a replicator that is in order: it does not panic, leaves
    the replicator in order, and starts no goroutine once the replicator
    is closed. *)
Lemma Replicator_step_ok (r : Replicator) (op : Replicator_op) :
  Replicator_ok r ->
  exists r',
    Replicator_step r op = (Ok tt, r')
    /\ Replicator_ok r'
    /\ (closed r = true -> closed r' = true /\ goroutines r' = goroutines r)
    /\ (op = RClose -> closed r' = true)
    /\ (op <> RClose -> closed r' = closed r).
Proof.
  intros Hok.
  destruct (Replicator_init_ok r Hok) as (Hok1 & [m Hm] & [c Hc] & Hcl & Hgs).
  pose proof Hok1 as (H1 & H2 & H3 & H4).
  destruct op as [name addr|name|]; cbn [Replicator_step].
  - unfold Replicator_Join. rewrite Hcl.
    destruct (closed r) eqn:Ecl.
    { eexists. split; [reflexivity|]. split; [exact Hok1|].
      split; [auto|]. split; [discriminate|]. intros _. first [exact Hcl|reflexivity]. }
    rewrite Hm. destruct (m !! name) as [ch0|] eqn:En.
    { eexists. split; [reflexivity|]. split; [exact Hok1|].
      split; [discriminate|]. split; [discriminate|]. intros _. first [exact Hcl|reflexivity]. }
    eexists. split; [reflexivity|]. cbn [closed goroutines].
    split; [|split; [discriminate|split; [discriminate|intros _; first [exact Hcl|reflexivity]]]].
    set (ch := length (chans (Replicator_init r))).
    split; [|split; [|split]]; cbn [servers closed close chans goroutines].
    + intros m' name0 ch0 [= <-] Hn0.
      destruct (decide (name0 = name)) as [->|Hne].
      * rewrite lookup_insert_eq in Hn0. injection Hn0 as <-.
        split; [rewrite lookup_app_r by (unfold ch; lia); unfold ch;
                rewrite Nat.sub_diag; reflexivity|].
        split.
        { rewrite Hc. intros [= E]. pose proof (H2 c Hc) as Hlk.
          apply lookup_lt_Some in Hlk. unfold ch in E. lia. }
        split.
        { unfold started_for. cbn [goroutines]. rewrite List.filter_app.
          rewrite (started_for_fresh _ ch) by exact H4.
          cbn [List.filter snd app]. rewrite Nat.eqb_refl. reflexivity. }
        intros name' Hn'. destruct (decide (name' = name)) as [->|Hne']; [reflexivity|].
        rewrite lookup_insert_ne in Hn' by congruence.
        destruct (H1 m name' ch Hm Hn') as (Ha & _).
        apply lookup_lt_Some in Ha. unfold ch in Ha. lia.
      * rewrite lookup_insert_ne in Hn0 by congruence.
        destruct (H1 m name0 ch0 Hm Hn0) as (Ha & Hb & Hcnt & Hinj).
        pose proof (lookup_lt_Some _ _ _ Ha) as Hlt.
        split; [rewrite lookup_app_l by exact Hlt; exact Ha|].
        split; [exact Hb|]. split.
        { unfold started_for in *. cbn [goroutines].
          rewrite started_for_snoc_other by (unfold ch; lia). exact Hcnt. }
        intros name' Hn'. destruct (decide (name' = name)) as [->|Hne'].
        { rewrite lookup_insert_eq in Hn'. injection Hn' as E. unfold ch in E. lia. }
        rewrite lookup_insert_ne in Hn' by congruence. apply (Hinj name' Hn').
    + intros ch0 Hch0. pose proof (H2 ch0 Hch0) as Hlk.
      rewrite lookup_app_l by (apply lookup_lt_Some in Hlk; exact Hlk).
      rewrite Hlk. congruence.
    + rewrite Hc. discriminate.
    + intros g Hg. rewrite length_app. cbn. apply elem_of_app in Hg as [Hg|Hg].
      * specialize (H4 g Hg). lia.
      * apply list_elem_of_singleton in Hg. subst g. cbn. unfold ch. lia.
  - unfold Replicator_Leave. rewrite Hm. cbn [mbind option_bind].
    destruct (m !! name) as [ch|] eqn:En.
    2:{ eexists. split; [reflexivity|]. split; [exact Hok1|].
        split; [intros E; split; [congruence|exact Hgs]|].
        split; [discriminate|]. intros _. first [exact Hcl|reflexivity]. }
    destruct (H1 m name ch Hm En) as (Ha & Hb & Hcnt & Hinj).
    unfold close_chan. rewrite Ha.
    eexists. split; [reflexivity|]. cbn [closed goroutines].
    split; [|split; [intros E; split; [congruence|exact Hgs]|
                     split; [discriminate|intros _; first [exact Hcl|reflexivity]]]].
    split; [|split; [|split]]; cbn [servers closed close chans goroutines fmap option_fmap option_map].
    + intros m' name0 ch0 [= <-] Hn0.
      apply lookup_delete_Some in Hn0 as [Hne Hn0].
      destruct (H1 m name0 ch0 Hm Hn0) as (Ha0 & Hb0 & Hcnt0 & Hinj0).
      assert (ch0 <> ch) by (intros ->; apply Hne; symmetry; apply (Hinj name0 Hn0)).
      split; [rewrite list_lookup_insert_ne by congruence; exact Ha0|].
      split; [exact Hb0|]. split; [exact Hcnt0|].
      intros name' Hn'. apply lookup_delete_Some in Hn' as [_ Hn']. apply (Hinj0 name' Hn').
    + intros ch0 Hch0. rewrite list_lookup_insert_ne by (intros ->; apply Hb; exact Hch0).
      apply (H2 ch0 Hch0).
    + rewrite Hc. discriminate.
    + intros g Hg. rewrite length_insert. apply (H4 g Hg).
  - unfold Replicator_Close. rewrite Hcl.
    destruct (closed r) eqn:Ecl.
    { eexists. split; [reflexivity|]. split; [exact Hok1|].
      split; [intros E; split; [congruence|exact Hgs]|].
      split; [intros _; congruence|]. intros _. first [exact Hcl|reflexivity]. }
    cbn [close chans]. rewrite Hc. unfold close_chan.
    pose proof (H2 c Hc) as Hlk. rewrite Hcl in Hlk. rewrite Hlk.
    eexists. split; [reflexivity|]. cbn [closed goroutines].
    split; [|split; [discriminate|split; [reflexivity|congruence]]].
    split; [|split; [|split]]; cbn [servers closed close chans goroutines].
    + intros m' name0 ch0 Hm' Hn0. rewrite Hm in Hm'. injection Hm' as <-.
      destruct (H1 m name0 ch0 Hm Hn0) as (Ha0 & Hb0 & Hcnt0 & Hinj0).
      split; [rewrite list_lookup_insert_ne by congruence; exact Ha0|].
      split; [congruence|]. split; [exact Hcnt0|exact Hinj0].
    + intros ch0 Hch0. injection Hch0 as <-.
      apply list_lookup_insert_eq. apply lookup_lt_Some in Hlk. exact Hlk.
    + discriminate.
    + intros g Hg. rewrite length_insert. apply (H4 g Hg).
Qed.

Lemma Replicator_zero_ok : Replicator_ok Replicator_zero.
Proof.
  split; [|split; [|split]]; cbn.
  - intros m name ch Hm. discriminate.
  - intros ch Hch. discriminate.
  - reflexivity.
  - intros g Hg. apply elem_of_nil in Hg. destruct Hg.
Qed.

Lemma Replicator_run_from (ops : list Replicator_op) : forall r,
  Replicator_ok r ->
  exists r',
    Replicator_run r ops = Some r'
    /\ Replicator_ok r'
    /\ (closed r = true -> closed r' = true /\ goroutines r' = goroutines r)
    /\ (closed r' = true <-> closed r = true \/ RClose ∈ ops).
Proof.
  induction ops as [|op ops IH]; intros r Hok.
  - exists r. cbn. split; [reflexivity|]. split; [exact Hok|]. split; [auto|].
    split; [auto|]. intros [H|H]; [exact H|]. apply elem_of_nil in H. destruct H.
  - destruct (Replicator_step_ok r op Hok) as (r1 & Hs & Hok1 & Hcl1 & Hc1 & Hn1).
    destruct (IH r1 Hok1) as (r' & Hrun & Hok' & Hcl' & Hiff).
    exists r'. cbn [Replicator_run]. rewrite Hs. split; [exact Hrun|].
    split; [exact Hok'|]. split.
    + intros Hc. destruct (Hcl1 Hc) as [Hc' Hg]. destruct (Hcl' Hc') as [Hc'' Hg'].
      split; [exact Hc''|congruence].
    + rewrite Hiff. split.
      * intros [H|H]; [|right; right; exact H].
        destruct op as [n a|n|]; [| |right; left];
          left; rewrite <- Hn1 by discriminate; exact H.
      * intros [H|H]; [left; apply Hcl1, H|].
        apply elem_of_cons in H as [<-|H]; [left; apply Hc1; reflexivity|right; exact H].
Qed.

Lemma Replicator_run_app (a b : list Replicator_op) : forall r,
  Replicator_run r (a ++ b) = Replicator_run r a ≫= fun r1 => Replicator_run r1 b.
Proof.
  induction a as [|op a IH]; intros r; [reflexivity|].
  cbn [app Replicator_run]. destruct (Replicator_step r op) as [[u| |] r1]; [apply IH|reflexivity..].
Qed.

(** X13.  The replicator, from its zero value and through any calls of
    [Join], [Leave] and [Close]: no call panics (no channel is closed
    twice, no entry is assigned in a nil map); every server being
    replicated has a channel of its own, still open, that was given to
    exactly one [replicate] goroutine, so no server is replicated twice;
    the replicator is closed exactly when [Close] was called; and once it
    is closed no call starts a goroutine. *)
Theorem Replicator_run_ok (ops ops' : list Replicator_op) :
  exists r r',
    Replicator_run Replicator_zero ops = Some r
    /\ Replicator_ok r
    /\ (closed r = true <-> RClose ∈ ops)
    /\ Replicator_run r (RClose :: ops') = Some r'
    /\ goroutines r' = goroutines r.
Proof.
  destruct (Replicator_run_from ops Replicator_zero Replicator_zero_ok)
    as (r & Hrun & Hok & _ & Hiff).
  destruct (Replicator_step_ok r RClose Hok) as (r1 & Hs & Hok1 & Hcl1 & Hc1 & _).
  destruct (Replicator_run_from ops' r1 Hok1) as (r' & Hrun' & _ & Hcl' & _).
  exists r, r'. split; [exact Hrun|]. split; [exact Hok|]. split.
  { rewrite Hiff. cbn. split; [intros [H|H]; [discriminate|exact H]|auto]. }
  split; [cbn [Replicator_run]; rewrite Hs; exact Hrun'|].
  destruct (Hcl' (Hc1 eq_refl)) as [_ Hg]. rewrite Hg.
  clear - Hs. cbn in Hs. unfold Replicator_Close in Hs.
  destruct (closed (Replicator_init r));
    [injection Hs as <-|].
  - unfold Replicator_init. destruct (servers r), (close r); reflexivity.
  - cbn [close chans] in Hs.
    destruct (close (Replicator_init r)) as [c|] eqn:Ec; [|discriminate].
    destruct (close_chan _ _); try discriminate. injection Hs as <-. cbn.
    unfold Replicator_init. destruct (servers r), (close r); reflexivity.
Qed.

Example Replicator_joins_once :
  (fun r => (goroutines r, chans r, servers r ≫= (.!! "1")))
    <$> Replicator_run Replicator_zero
          [RJoin "1" "127.0.0.1:8401"; RJoin "1" "127.0.0.1:8401";
           RJoin "2" "127.0.0.1:8402"; RLeave "1"; RLeave "1"; RClose;
           RJoin "3" "127.0.0.1:8403"; RClose]
  = Some ([("127.0.0.1:8401", 1%nat); ("127.0.0.1:8402", 2%nat)],
          [true; true; false], None).
Proof. vm_compute. reflexivity. Qed.

(** ** File names: from the name back to the base offset *)

Lemma string_length_app (s t : string) :
  String.length (s +:+ t) = (String.length s + String.length t)%nat.
Proof. induction s as [|c s IH]; simpl; [reflexivity|]. f_equal. exact IH. Qed.

Lemma substring_app_r (s t : string) :
  String.substring (String.length s) (String.length t) (s +:+ t) = t.
Proof.
  induction s as [|c s IH]; simpl; [|exact IH].
  induction t as [|d t IHt]; simpl; [reflexivity|].
  destruct t; simpl in *; f_equal; exact IHt.
Qed.

Lemma substring_app_l (s t : string) :
  String.substring 0 (String.length s) (s +:+ t) = s.
Proof.
  induction s as [|c s IH]; simpl.
  - destruct t; reflexivity.
  - f_equal. exact IH.
Qed.

Lemma TrimSuffix_app (s suffix : string) : TrimSuffix (s +:+ suffix) suffix = s.
Proof.
  unfold TrimSuffix. rewrite string_length_app.
  replace (String.length s + String.length suffix - String.length suffix)%nat
    with (String.length s) by lia.
  rewrite substring_app_r, String.eqb_refl, substring_app_l.
  destruct (_ <=? _)%nat eqn:E; [reflexivity|].
  apply Nat.leb_gt in E. lia.
Qed.

Lemma has_dot_or_slash_app (s t : string) :
  has_dot_or_slash t = true -> has_dot_or_slash (s +:+ t) = true.
Proof.
  intros H. induction s as [|c s IH]; simpl; [exact H|].
  rewrite IH. apply orb_true_r.
Qed.

Lemma Ext_app (s ext : string) :
  (ext = ".store" \/ ext = ".index") -> Ext (s +:+ ext) = ext.
Proof.
  intros Hext. induction s as [|c s IH]; simpl.
  - destruct Hext as [->| ->]; reflexivity.
  - rewrite has_dot_or_slash_app; [exact IH|]. destruct Hext as [->| ->]; reflexivity.
Qed.

Lemma digit_pretty_N_char (x : N) :
  (x < 10)%N -> digit (pretty_N_char x) = Some (Z.of_N x).
Proof.
  intros H.
  assert (x = 0 \/ x = 1 \/ x = 2 \/ x = 3 \/ x = 4 \/ x = 5 \/ x = 6 \/ x = 7
          \/ x = 8 \/ x = 9)%N as Hx by lia.
  repeat (destruct Hx as [->|Hx]; [reflexivity|]). subst x. reflexivity.
Qed.

(** Parsing the digits that [pretty_N_go] puts in front of [s], from the
    accumulator [n]: the digits of [x] are appended to those of [n]. *)
Lemma ParseUint_from_pretty_N_go (x : N) : forall s,
  exists k, 0 < k
    /\ forall n, 0 <= n -> n * k + Z.of_N x < 2 ^ 64 ->
         ParseUint_from (pretty_N_go x s) n = ParseUint_from s (n * k + Z.of_N x).
Proof.
  induction (N.lt_wf_0 x) as [x _ IH]. intros s.
  destruct (decide (x = 0%N)) as [->|Hx].
  - exists 1. split; [lia|]. intros n Hn Hb. rewrite pretty_N_go_0. f_equal. lia.
  - rewrite pretty_N_go_step by lia.
    destruct (IH (x `div` 10)%N ltac:(apply N.div_lt; lia)
                 (String (pretty_N_char (x `mod` 10)) s)) as (k & Hk & Hparse).
    exists (k * 10). split; [lia|]. intros n Hn Hb.
    assert (Hdm : Z.of_N x = Z.of_N (x `div` 10) * 10 + Z.of_N (x `mod` 10)).
    { rewrite N2Z.inj_div, N2Z.inj_mod. change (Z.of_N 10) with 10.
      pose proof (Z.div_mod (Z.of_N x) 10 ltac:(lia)). lia. }
    assert (Hm : 0 <= Z.of_N (x `mod` 10) < 10).
    { pose proof (N.mod_lt x 10 ltac:(discriminate)) as H. apply N2Z.inj_lt in H.
      change (Z.of_N 10) with 10 in H. split; [apply N2Z.is_nonneg|exact H]. }
    assert (Hx0 : 0 <= Z.of_N (x `div` 10)) by apply N2Z.is_nonneg.
    rewrite Hparse by nia.
    cbn [ParseUint_from]. rewrite digit_pretty_N_char by (apply N.mod_lt; discriminate).
    replace ((n * k + Z.of_N (x `div` 10)) * 10 + Z.of_N (x `mod` 10))
      with (n * (k * 10) + Z.of_N x) by lia.
    destruct (Z.leb_spec (2 ^ 64) (n * (k * 10) + Z.of_N x)); [lia|reflexivity].
Qed.

Lemma ParseUint_pretty (b : Z) : 0 <= b < 2 ^ 64 -> ParseUint (pretty b) = b.
Proof.
  intros Hb. unfold ParseUint. destruct b as [|p|p]; [reflexivity| |lia].
  change (pretty (Z.pos p)) with (pretty (N.pos p)).
  unfold pretty, pretty_N. rewrite decide_False by discriminate.
  destruct (ParseUint_from_pretty_N_go (N.pos p) "") as (k & Hk & Hparse).
  rewrite Hparse by (cbn; lia). reflexivity.
Qed.

(** What [setup] computes from the name of a segment file. *)
Lemma base_of_file_name (b : Z) (ext : string) :
  0 <= b < 2 ^ 64 -> (ext = ".store" \/ ext = ".index") ->
  ParseUint (TrimSuffix (file_name b ext) (Ext (file_name b ext))) = b.
Proof.
  intros Hb Hext. unfold file_name.
  rewrite (Ext_app _ _ Hext), TrimSuffix_app. apply ParseUint_pretty, Hb.
Qed.

(** ** Logs: closing and opening again *)

Section log_reopen.

Variable Marshal : api_Record -> result (list Z).
Variable Unmarshal : list Z -> api_Record.
Hypothesis Unmarshal_Marshal : forall r p, Marshal r = Ok p -> Unmarshal p = r.

Lemma index_Write_Name (i : index) off pos :
  index_Name (index_Write i off pos).2 = index_Name i.
Proof.
  unfold index_Write. destruct (index_isMaxed i); [reflexivity|].
  destruct (slice_put _ _ _ _); [|reflexivity].
  destruct (slice_put _ _ _ _); reflexivity.
Qed.

Lemma segment_Append_frame (s : segment) (r : api_Record) :
  let s' := (segment_Append Marshal s r).1.2 in
  baseOffset s' = baseOffset s
  /\ store_Name (seg_store s') = store_Name (seg_store s)
  /\ index_Name (seg_index s') = index_Name (seg_index s).
Proof.
  unfold segment_Append. destruct (Marshal _) as [p| |]; cbn; auto.
  pose proof (index_Write_Name (seg_index s)
                (u32 (u64 (nextOffset s - baseOffset s))) (store_size (seg_store s))) as HN.
  destruct (index_Write _ _ _) as [[u|e|m] ix]; cbn in *; auto.
Qed.

Lemma newSegment_files (dir : directory) base c s dir' :
  newSegment dir base c = (Ok s, dir') -> segment_files s /\ baseOffset s = base.
Proof.
  unfold newSegment, newIndex. cbv zeta.
  destruct (int64 (MaxIndexBytes c) <? 0); [discriminate|].
  destruct (int64 (MaxIndexBytes c) =? 0); [discriminate|].
  destruct (index_Read _ _) as [[off pos]|e|m]; intros [= <- _]; repeat split.
Qed.

Lemma bases_of_snoc first chunks recs :
  bases_of first (chunks ++ [recs])
  = bases_of first chunks ++ [first + len (concat chunks)].
Proof.
  unfold bases_of. rewrite length_app. cbn [length].
  rewrite Nat.add_1_r, seq_S, fmap_app. cbn [fmap list_fmap].
  f_equal.
  - apply list_fmap_ext. intros j i Hi. apply lookup_seq in Hi as [-> Hi]. cbn.
    unfold chunk_base. rewrite take_app_le by lia. reflexivity.
  - cbn [Nat.add]. unfold chunk_base. rewrite take_app_length. reflexivity.
Qed.

Lemma bases_of_snoc_same first pre recs recs' :
  bases_of first (pre ++ [recs']) = bases_of first (pre ++ [recs]).
Proof. rewrite !bases_of_snoc. reflexivity. Qed.

Lemma files_of_app a b : files_of (a ++ b) = files_of a ++ files_of b.
Proof. unfold files_of. apply bind_app. Qed.

Lemma elem_of_files_of name bases :
  name ∈ files_of bases
  <-> exists b ext, b ∈ bases /\ (ext = ".store" \/ ext = ".index")
                    /\ name = file_name b ext.
Proof.
  unfold files_of. rewrite list_elem_of_bind. split.
  - intros (b & Hn & Hb). apply elem_of_cons in Hn as [->|Hn].
    + exists b, ".store". auto.
    + apply list_elem_of_singleton in Hn as ->. exists b, ".index". auto.
  - intros (b & ext & Hb & [->| ->] & ->); exists b; (split; [|exact Hb]).
    + left.
    + right. left.
Qed.


(** Replacing a segment of the log by one of the same base and files. *)
Lemma Log_files_update l p s s' :
  Log_files l -> NoDup (Log_segments l) ->
  Log_heap l !! p = Some s ->
  baseOffset s' = baseOffset s -> segment_files s' ->
  (forall i, (S i < length (Log_segments l))%nat -> Log_segments l !! i = Some p ->
     baseOffset s' < nextOffset s') ->
  Log_files (mkLog (Log_Dir l) (Log_Config l) (<[p := s']> (Log_heap l))
                   (Log_segments l) (Log_activeSegment l)).
Proof.
  intros (Hn & Hd & Hl) Hnd Hs Hb Hf Hnext.
  pose proof (lookup_lt_Some _ _ _ Hs) as Hp.
  split; [|split]; cbn [Log_Dir Log_heap Log_segments].
  - intros q t Hq Ht. destruct (decide (q = p)) as [->|Hne].
    + rewrite list_lookup_insert_eq in Ht by exact Hp. injection Ht as <-. exact Hf.
    + rewrite list_lookup_insert_ne in Ht by congruence. apply (Hn q t Hq Ht).
  - intros name. rewrite Hd. split.
    + intros (q & t & ext & Hq & Ht & Hext & ->).
      destruct (decide (q = p)) as [->|Hne].
      * exists p, s', ext. rewrite list_lookup_insert_eq by exact Hp.
        rewrite Hs in Ht. injection Ht as <-. rewrite Hb. auto.
      * exists q, t, ext. rewrite list_lookup_insert_ne by congruence. auto.
    + intros (q & t & ext & Hq & Ht & Hext & ->).
      destruct (decide (q = p)) as [->|Hne].
      * rewrite list_lookup_insert_eq in Ht by exact Hp. injection Ht as <-.
        exists p, s, ext. rewrite Hb. auto.
      * rewrite list_lookup_insert_ne in Ht by congruence. exists q, t, ext. auto.
  - intros i q t Hi Hq Ht. destruct (decide (q = p)) as [->|Hne].
    + rewrite list_lookup_insert_eq in Ht by exact Hp. injection Ht as <-.
      apply (Hnext i Hi Hq).
    + rewrite list_lookup_insert_ne in Ht by congruence. apply (Hl i q t Hi Hq Ht).
Qed.


Lemma Log_rep_valid l first chunks q :
  Log_rep Marshal l first chunks -> q ∈ Log_segments l ->
  (q < length (Log_heap l))%nat.
Proof.
  intros Hrep Hq. apply list_elem_of_lookup in Hq as [j Hj].
  destruct (Log_rep_lookup Marshal l first chunks j q Hrep Hj) as (_ & t & _ & Ht & _).
  eapply lookup_lt_Some, Ht.
Qed.

(** The new segment that [Append] makes when the active one is full. *)
Lemma Log_files_rotate l first chunks recs l1 :
  Log_rep Marshal l first chunks -> Log_files l ->
  last chunks = Some recs -> recs <> [] ->
  first + len (concat chunks) < 2 ^ 64 ->
  Log_newSegment l (first + len (concat chunks)) = (Ok tt, l1) ->
  Log_files l1.
Proof.
  intros Hrep (Hn & Hd & Hl) Hlast Hne Hnext HN.
  destruct (Log_rep_active Marshal l first chunks Hrep)
    as (ptrs & pa & pre & recs' & a & Eseg & -> & Hlp & Hact & Ha & Har & Hab & Han).
  rewrite last_snoc in Hlast. injection Hlast as ->.
  pose proof Hrep as (Hcfg & Hnd & Hsne & Hact' & Hlen & Hseg & Hdir).
  rewrite length_app in Hdir. cbn [length] in Hdir.
  replace (pred (length pre + 1)) with (length pre) in Hdir by lia.
  rewrite take_app_length in Hdir.
  assert (Hrecs : 0 < len recs) by (unfold len; destruct recs; [contradiction|cbn; lia]).
  assert (Hbase : 0 <= first + len (concat pre)) by (destruct Har as (_ & H0 & _); lia).
  set (next := first + len (concat (pre ++ [recs]))) in *.
  assert (Hnx : next = first + len (concat pre) + len recs).
  { unfold next. rewrite concat_app, len_app. cbn [concat]. rewrite app_nil_r. lia. }
  destruct (newSegment_fresh Marshal (Log_Dir l) next (Log_Config l) Hcfg) as (s & HS & Hsr & Hsb).
  { lia. }
  { eapply dir_below_fresh; [exact Hdir|lia|left; reflexivity]. }
  { eapply dir_below_fresh; [exact Hdir|lia|right; reflexivity]. }
  destruct (newSegment_files _ _ _ _ _ HS) as [Hsf _].
  unfold Log_newSegment in HN. rewrite HS in HN. injection HN as <-.
  assert (Hold : forall q, q ∈ Log_segments l ->
            (Log_heap l ++ [s]) !! q = Log_heap l !! q).
  { intros q Hq. apply lookup_app_l. apply (Log_rep_valid l first _ q Hrep Hq). }
  assert (Hnew : (Log_heap l ++ [s]) !! length (Log_heap l) = Some s)
    by (apply list_lookup_middle; reflexivity).
  split; [|split]; cbn [Log_Dir Log_heap Log_segments].
  - intros q t Hq Ht. apply elem_of_app in Hq as [Hq|Hq].
    + rewrite (Hold q Hq) in Ht. apply (Hn q t Hq Ht).
    + apply list_elem_of_singleton in Hq. subst q. rewrite Hnew in Ht.
      injection Ht as <-. exact Hsf.
  - intros name. split.
    + intros Hsome.
      destruct (decide (name = file_name next ".index")) as [->|Hni].
      { exists (length (Log_heap l)), s, ".index". rewrite Hnew, Hsb.
        split; [apply elem_of_app; right; left|]. auto. }
      rewrite lookup_insert_ne in Hsome by congruence.
      destruct (decide (name = file_name next ".store")) as [->|Hns].
      { exists (length (Log_heap l)), s, ".store". rewrite Hnew, Hsb.
        split; [apply elem_of_app; right; left|]. auto. }
      rewrite lookup_insert_ne in Hsome by congruence.
      apply Hd in Hsome as (q & t & ext & Hq & Ht & Hext & ->).
      exists q, t, ext. rewrite (Hold q Hq).
      split; [apply elem_of_app; left; exact Hq|]. auto.
    + intros (q & t & ext & Hq & Ht & Hext & ->).
      apply elem_of_app in Hq as [Hq|Hq].
      * rewrite (Hold q Hq) in Ht.
        assert (Hin : is_Some (Log_Dir l !! file_name (baseOffset t) ext))
          by (apply Hd; exists q, t, ext; auto).
        destruct (decide (file_name (baseOffset t) ext = file_name next ".index")) as [->|Hni];
          [rewrite lookup_insert_eq; eauto|].
        rewrite lookup_insert_ne by congruence.
        destruct (decide (file_name (baseOffset t) ext = file_name next ".store")) as [->|Hns];
          [rewrite lookup_insert_eq; eauto|].
        rewrite lookup_insert_ne by congruence. exact Hin.
      * apply list_elem_of_singleton in Hq. subst q. rewrite Hnew in Ht.
        injection Ht as <-. rewrite Hsb.
        destruct Hext as [->| ->].
        -- rewrite lookup_insert_ne by (intros E; symmetry in E;
             apply store_index_names_differ in E; exact E).
           rewrite lookup_insert_eq. eauto.
        -- rewrite lookup_insert_eq. eauto.
  - intros i q t Hi Hq Ht. rewrite length_app in Hi. cbn [length] in Hi.
    assert (Hilt : (i < length (Log_segments l))%nat) by lia.
    rewrite lookup_app_l in Hq by exact Hilt.
    rewrite (Hold q ltac:(eapply list_elem_of_lookup_2, Hq)) in Ht.
    destruct (decide (S i < length (Log_segments l))%nat) as [Hlt|Hge].
    + apply (Hl i q t Hlt Hq Ht).
    + assert (i = length ptrs) by (rewrite Eseg, length_app in *; cbn in *; lia). subst i.
      rewrite Eseg, list_lookup_middle in Hq by reflexivity. injection Hq as <-.
      rewrite Ha in Ht. injection Ht as <-.
      destruct Har as (_ & _ & Hna & _). lia.
Qed.

Lemma Log_Append_files l first chunks record :
  Log_rep Marshal l first chunks -> Log_files l ->
  Log_files (Log_Append Marshal l record).1.2.
Proof.
  intros Hrep Hfiles.
  pose proof (Log_highestOffset_rep Marshal l first chunks Hrep) as Hhi.
  destruct (Log_rep_active Marshal l first chunks Hrep)
    as (ptrs & pa & pre & recs & a & Eseg & Echunks & Hlp & Hact & Ha & Har & Hab & Han).
  pose proof Hrep as (Hcfg & Hnd & _).
  set (next := first + len (concat chunks)) in *.
  assert (Hn64 : next < 2 ^ 64) by (destruct Har as (_ & _ & _ & H & _); lia).
  assert (Hupd : forall l1 p s,
            Log_files l1 -> NoDup (Log_segments l1) ->
            last (Log_segments l1) = Some p ->
            Log_heap l1 !! p = Some s ->
            Log_files
              (let '(r, s', record') := segment_Append Marshal s record in
               (r, mkLog (Log_Dir l1) (Log_Config l1) (<[p := s']> (Log_heap l1))
                         (Log_segments l1) (Log_activeSegment l1), record')).1.2).
  { intros l1 p s Hf1 Hnd1 Hlast1 Hs1.
    pose proof (segment_Append_frame s record) as Hfr. cbv zeta in Hfr.
    destruct (segment_Append Marshal s record) as [[r s'] record']. cbn [fst snd] in *.
    destruct Hfr as (Hb & Hsn & Hin).
    pose proof Hf1 as (Hn1 & _).
    assert (Hp1 : p ∈ Log_segments l1).
    { rewrite last_lookup in Hlast1. eapply list_elem_of_lookup_2, Hlast1. }
    apply (Log_files_update l1 p s s' Hf1 Hnd1 Hs1 Hb).
    - destruct (Hn1 p s Hp1 Hs1) as [H1 H2]. split; congruence.
    - intros i Hi Hq. exfalso. rewrite last_lookup in Hlast1.
      pose proof (NoDup_lookup _ _ _ _ Hnd1 Hq Hlast1). lia. }
  unfold Log_Append. rewrite Hhi, Hact. cbn [mbind option_bind]. rewrite Ha.
  destruct (segment_isMaxed a) eqn:Emax.
  - assert (Hne : recs <> []).
    { intros ->. rewrite (segment_isMaxed_empty Marshal _ _ Hcfg Har) in Emax. discriminate. }
    assert (Hpos : 1 <= next).
    { destruct Har as (_ & H0 & Hn & _). rewrite Han in Hn.
      assert (0 < len recs) by (unfold len; destruct recs; [contradiction|cbn; lia]).
      lia. }
    destruct (Z.eqb_spec next 0); [lia|].
    rewrite (u64_small (next - 1)) by lia.
    replace (next - 1 + 1) with next by lia. rewrite (u64_small next) by lia.
    destruct (Log_rep_rotate Marshal l first chunks recs Hrep) as (l1 & HN & Hrep1 & Hc1);
      [rewrite Echunks; apply last_snoc|exact Hne|fold next; lia|].
    fold next in HN. rewrite HN.
    assert (Hf1 : Log_files l1).
    { apply (Log_files_rotate l first chunks recs l1 Hrep Hfiles);
        [rewrite Echunks; apply last_snoc|exact Hne|fold next; lia|exact HN]. }
    destruct (Log_rep_active Marshal l1 first _ Hrep1)
      as (ptrs1 & pa1 & pre1 & recs1 & a1 & Eseg1 & Ech1 & Hlp1 & Hact1 & Ha1 & _).
    pose proof Hrep1 as (_ & Hnd1 & _).
    rewrite Hact1, Ha1. cbv iota. rewrite <- Hact1.
    apply (Hupd l1 pa1 a1 Hf1 Hnd1); [rewrite Eseg1; apply last_snoc|exact Ha1].
  - rewrite Hact, Ha. cbv iota. rewrite <- Hact.
    apply (Hupd l pa a Hfiles Hnd); [rewrite Eseg; apply last_snoc|exact Ha].
Qed.


Lemma NewLog_fresh_files c :
  config_ok (defaulted c) -> 0 <= InitialOffset c < 2 ^ 64 ->
  Log_files (NewLog ∅ c).2.
Proof.
  intros Hcfg Hinit.
  change (NewLog ∅ c) with (setup (mkLog ∅ (defaulted c) [] [] None)).
  unfold setup. cbn [Log_Dir]. rewrite map_to_list_empty.
  cbn [fmap list_fmap]. change (merge_sort Z.le []) with (@nil Z).
  cbn [setup_loop Log_segments Log_Config]. rewrite InitialOffset_defaulted.
  destruct (newSegment_fresh Marshal ∅ (InitialOffset c) (defaulted c) Hcfg Hinit)
    as (s & HN & Hsr & Hsb); [apply lookup_empty..|].
  destruct (newSegment_files _ _ _ _ _ HN) as [Hsf _].
  unfold Log_newSegment. cbn [Log_Dir Log_Config Log_heap Log_segments]. rewrite HN.
  cbn [snd app length].
  split; [|split]; cbn [Log_Dir Log_heap Log_segments].
  - intros q t Hq Ht. apply list_elem_of_singleton in Hq. subst q.
    cbn in Ht. injection Ht as <-. exact Hsf.
  - intros name. split.
    + intros Hsome.
      destruct (decide (name = file_name (InitialOffset c) ".index")) as [->|Hni].
      { exists 0%nat, s, ".index". rewrite Hsb. split; [left|]. auto. }
      rewrite lookup_insert_ne in Hsome by congruence.
      destruct (decide (name = file_name (InitialOffset c) ".store")) as [->|Hns].
      { exists 0%nat, s, ".store". rewrite Hsb. split; [left|]. auto. }
      rewrite lookup_insert_ne, lookup_empty in Hsome by congruence.
      destruct Hsome as [? [=]].
    + intros (q & t & ext & Hq & Ht & Hext & ->).
      apply list_elem_of_singleton in Hq. subst q. cbn in Ht. injection Ht as <-.
      rewrite Hsb. destruct Hext as [->| ->].
      * rewrite lookup_insert_ne by (intros E; symmetry in E;
          apply store_index_names_differ in E; exact E).
        rewrite lookup_insert_eq. eauto.
      * rewrite lookup_insert_eq. eauto.
  - intros i q t Hi. cbn in Hi. lia.
Qed.

Lemma Log_Appends_files records : forall l first chunks,
  Log_rep Marshal l first chunks -> Log_files l ->
  store_fits Marshal (Log_Config l) ->
  0 <= first -> first + len (concat chunks) + len records < 2 ^ 64 ->
  marshals Marshal records ->
  Log_files (Log_Appends Marshal l records).2.
Proof.
  induction records as [|r rs IH]; intros l first chunks Hrep Hfiles Hfits H0 Hbound Hall.
  { exact Hfiles. }
  change (len (r :: rs)) with (Z.of_nat (S (length rs))) in *.
  rewrite Nat2Z.inj_succ in *. fold (len rs) in *. pose proof (len_nonneg rs) as Hrs.
  pose proof (len_nonneg (concat chunks)) as Hcc.
  pose proof (Log_Append_cases Marshal l first chunks r Hrep Hfits) as Hcase.
  pose proof (Log_Append_files l first chunks r Hrep Hfiles) as Hf1.
  cbv zeta in Hcase. cbn [Log_Appends].
  set (next := first + len (concat chunks)) in *.
  pose proof (Hall r next ltac:(left) ltac:(unfold next; lia)) as Hok.
  destruct (Marshal (set_Offset r next)) as [p|e|m] eqn:HM; try (exfalso; exact Hok).
  destruct Hcase as (l1 & HA & Hnext). rewrite HA in Hf1 |- *. cbn [fst snd] in Hf1.
  destruct (Hnext ltac:(lia)) as (chunks1 & Hrep1 & Hcat1 & Hc1).
  specialize (IH l1 first chunks1 Hrep1 Hf1).
  destruct (Log_Appends Marshal l1 rs) as [results l2]. cbn [snd] in *.
  apply IH.
  - rewrite Hc1. exact Hfits.
  - exact H0.
  - rewrite Hcat1, len_app. change (len [set_Offset r next]) with 1. lia.
  - intros r' off Hr'. apply Hall. right. exact Hr'.
Qed.


(** [newSegment] on the files that [Close] left of a segment that held
    [recs]. *)
Lemma segment_reopen c (dir : directory) s recs b :
  config_ok c -> segment_rep Marshal c s recs -> baseOffset s = b ->
  dir !! file_name b ".store" = Some (store_bytes (seg_store s)) ->
  dir !! file_name b ".index"
  = Some (truncate_to (index_size (seg_index s)) (index_mmap (seg_index s))) ->
  exists s' content,
    newSegment dir b c
    = (Ok s', <[file_name b ".index" := content]>
                (<[file_name b ".store" := store_bytes (seg_store s)]> dir))
    /\ segment_rep Marshal c s' recs /\ baseOffset s' = b.
Proof.
  intros [Hst Hix] Hrep Hb Hds Hdi.
  destruct Hrep as (Hc & Hb0 & Hn & Hn64 & Hsz & Hsz63 & Hemp & Hmm & es & Hes & Hirep & Hk).
  pose proof (index_rep_nonneg _ _ Hirep) as Hisz.
  assert (HM : 0 < MaxIndexBytes c < 2 ^ 63)
    by (unfold entWidth, offWidth, posWidth in *; lia).
  pose proof Hirep as (Hisize & Hile & _).
  destruct (index_rep_reopen (seg_index s) es (file_name b ".index") c Hirep)
    as (content & HC & Hlenc & HN & Hirep'); [lia|exact HM|].
  assert (Hcontent : content = truncate_to (index_size (seg_index s)) (index_mmap (seg_index s))).
  { unfold index_Close in HC. cbv zeta in HC. rewrite int64_small in HC by exact Hisz.
    destruct (_ <? 0); congruence. }
  assert (Hlen : len es = len recs) by (unfold len; lia).
  pose proof (len_nonneg recs) as Hr.
  pose proof (len_nonneg (store_bytes (seg_store s))) as Hbytes.
  unfold newSegment. rewrite Hds. cbn [default from_option id].
  rewrite lookup_insert_ne by apply store_index_names_differ.
  rewrite Hdi. cbn [default from_option id]. rewrite <- Hcontent, HN.
  set (ix := mkIndex (file_name b ".index") (truncate_to (MaxIndexBytes c) content)
                     (entWidth * len es)) in *.
  assert (Hcap : len es <= 2 ^ 32)
    by (rewrite Hisize, Hmm in Hile; unfold entWidth, offWidth, posWidth in *; lia).
  rewrite (index_Read_rep ix es (-1) Hirep' Hcap) by lia.
  change (-1 =? -1) with true. cbv iota.
  assert (Hstore : segment_rep Marshal c
            (mkSegment (newStore (file_name b ".store") (store_bytes (seg_store s))) ix b
                       (b + len recs) c) recs).
  { unfold segment_rep, newStore, store_bytes.
    cbn [seg_config baseOffset nextOffset seg_store seg_index store_size store_File
         store_buf index_mmap]. fold (store_bytes (seg_store s)).
    rewrite app_nil_r, u64_small by lia.
    split; [reflexivity|]. split; [lia|]. split; [reflexivity|]. split; [lia|].
    split; [reflexivity|]. split; [lia|]. split.
    { intros Hnil. rewrite <- Hsz. apply Hemp, Hnil. }
    split; [unfold ix; cbn; apply len_truncate_to; lia|].
    exists es. split; [exact Hes|]. split; [exact Hirep'|].
    intros k r e Hkr Hke. destruct (Hk k r e Hkr Hke) as (H1 & H2 & p & Hp & Hfr).
    split; [exact H1|]. split; [lia|]. exists p. split; [exact Hp|exact Hfr]. }
  destruct (es !! Z.to_nat (len es - 1)) as [[off pos]|] eqn:Elast.
  - pose proof (lookup_lt_Some _ _ _ Elast) as Hlt.
    destruct (lookup_lt_is_Some_2 recs (Z.to_nat (len es - 1))) as [r Hr'];
      [unfold len in *; lia|].
    destruct (Hk _ r _ Hr' Elast) as (H1 & _). cbn [fst] in H1.
    eexists _, _. split; [reflexivity|]. split; [|reflexivity].
    replace (u64 (u64 (b + u64 off) + 1)) with (b + len recs); [exact Hstore|].
    rewrite H1. rewrite (u64_small (Z.of_nat _)) by (unfold len in *; lia).
    rewrite (u64_small (b + _)) by (unfold len in *; lia).
    rewrite u64_small by (unfold len in *; lia). unfold len in *. lia.
  - apply lookup_ge_None in Elast.
    assert (recs = []) as ->.
    { destruct recs; [reflexivity|]. unfold len in *. cbn in *. lia. }
    eexists _, _. split; [reflexivity|]. split; [|reflexivity].
    change (len (@nil api_Record)) with 0 in Hstore. rewrite Z.add_0_r in Hstore.
    exact Hstore.
Qed.


Lemma segment_Close_spec (s : segment) (dir : directory) :
  0 <= index_size (seg_index s) < 2 ^ 63 -> segment_files s ->
  exists s',
    segment_Close s dir
    = (Ok tt, s',
       <[file_name (baseOffset s) ".store" := store_bytes (seg_store s)]>
         (<[file_name (baseOffset s) ".index"
            := truncate_to (index_size (seg_index s)) (index_mmap (seg_index s))]> dir)).
Proof.
  intros Hsize [Hsn Hin]. unfold segment_Close, index_Close. cbv zeta.
  rewrite (int64_small _ Hsize).
  destruct (Z.ltb_spec (index_size (seg_index s)) 0) as [?|_]; [lia|].
  cbn. rewrite Hsn, Hin. eexists. reflexivity.
Qed.

(** The loop of [Close] over segments of different base offsets. *)
Lemma close_loop_spec ptrs : forall heap (dir : directory),
  NoDup ptrs ->
  (forall p, p ∈ ptrs ->
     exists s, heap !! p = Some s
       /\ 0 <= index_size (seg_index s) < 2 ^ 63 /\ segment_files s) ->
  (forall p q s t, p ∈ ptrs -> q ∈ ptrs -> heap !! p = Some s -> heap !! q = Some t ->
     baseOffset s = baseOffset t -> p = q) ->
  exists heap' dir',
    close_loop heap dir ptrs = (Ok tt, heap', dir')
    /\ (forall p s, p ∈ ptrs -> heap !! p = Some s -> closed_files dir' s)
    /\ (forall name,
          (forall p s ext, p ∈ ptrs -> heap !! p = Some s ->
             ext = ".store" \/ ext = ".index" -> name <> file_name (baseOffset s) ext) ->
          dir' !! name = dir !! name).
Proof.
  induction ptrs as [|p0 ptrs IH]; intros heap dir Hnd Hptrs Hbases.
  - exists heap, dir. split; [reflexivity|]. split; [|reflexivity].
    intros p s Hp. apply elem_of_nil in Hp. destruct Hp.
  - apply NoDup_cons in Hnd as [Hp0 Hnd].
    destruct (Hptrs p0) as (s0 & Hs0 & Hsize0 & Hf0); [left|].
    destruct (segment_Close_spec s0 dir Hsize0 Hf0) as (s0' & HC).
    set (dir1 := <[file_name (baseOffset s0) ".store" := store_bytes (seg_store s0)]>
                   (<[file_name (baseOffset s0) ".index"
                      := truncate_to (index_size (seg_index s0))
                                     (index_mmap (seg_index s0))]> dir)) in *.
    assert (Hsame : forall q, q ∈ ptrs -> <[p0 := s0']> heap !! q = heap !! q).
    { intros q Hq. apply list_lookup_insert_ne. intros ->. contradiction. }
    destruct (IH (<[p0 := s0']> heap) dir1 Hnd) as (heap' & dir' & HL & Hclosed & Hframe).
    { intros q Hq. rewrite (Hsame q Hq). apply Hptrs. right. exact Hq. }
    { intros p q s t Hp Hq Hs Ht. rewrite (Hsame p Hp) in Hs. rewrite (Hsame q Hq) in Ht.
      apply (Hbases p q s t); [right; exact Hp|right; exact Hq|exact Hs|exact Ht]. }
    exists heap', dir'. cbn [close_loop]. rewrite Hs0, HC. split; [exact HL|].
    assert (Hother : forall q t ext ext0, q ∈ ptrs -> heap !! q = Some t ->
              ext = ".store" \/ ext = ".index" -> ext0 = ".store" \/ ext0 = ".index" ->
              file_name (baseOffset s0) ext0 <> file_name (baseOffset t) ext).
    { intros q t ext ext0 Hq Ht Hext Hext0 E.
      apply file_name_inj in E; [|assumption..].
      assert (p0 = q) by (apply (Hbases p0 q s0 t); [left|right; exact Hq|exact Hs0|exact Ht|exact E]).
      subst q. contradiction. }
    split.
    + intros p s Hp Hs. apply elem_of_cons in Hp as [->|Hp].
      * rewrite Hs0 in Hs. injection Hs as <-. split.
        -- rewrite Hframe.
           ++ unfold dir1. apply lookup_insert_eq.
           ++ intros q t ext Hq Ht Hext. rewrite (Hsame q Hq) in Ht.
              apply (Hother q t ext ".store" Hq Ht Hext). left. reflexivity.
        -- rewrite Hframe.
           ++ unfold dir1. rewrite lookup_insert_ne by apply store_index_names_differ.
              apply lookup_insert_eq.
           ++ intros q t ext Hq Ht Hext. rewrite (Hsame q Hq) in Ht.
              apply (Hother q t ext ".index" Hq Ht Hext). right. reflexivity.
      * apply (Hclosed p s Hp). rewrite (Hsame p Hp). exact Hs.
    + intros name Hname. rewrite Hframe.
      * unfold dir1. rewrite !lookup_insert_ne; [reflexivity| |].
        -- intros E. apply (Hname p0 s0 ".index"); [left|exact Hs0|right; reflexivity|].
           symmetry. exact E.
        -- intros E. apply (Hname p0 s0 ".store"); [left|exact Hs0|left; reflexivity|].
           symmetry. exact E.
      * intros q t ext Hq Ht Hext. rewrite (Hsame q Hq) in Ht.
        apply (Hname q t ext); [right; exact Hq|exact Ht|exact Hext].
Qed.


(** The segments [setup] makes, one per base offset, from the files that
    [Close] left: [done] are the chunks of the segments made so far, [todo]
    those whose files are still to be opened. *)
Lemma setup_loop_reopen c first (all : list (list api_Record)) :
  config_ok c ->
  (forall i j, (i < j < length all)%nat ->
     chunk_base first all i < chunk_base first all j) ->
  forall todo done L,
    all = done ++ todo ->
    Log_Config L = c ->
    Log_segments L = seq 0 (length done) ->
    length (Log_heap L) = length done ->
    Log_activeSegment L = last (Log_segments L) ->
    (forall i recs, done !! i = Some recs ->
       exists s, Log_heap L !! i = Some s /\ segment_rep Marshal c s recs
                 /\ baseOffset s = chunk_base first all i) ->
    (forall i recs, todo !! i = Some recs ->
       exists s, segment_rep Marshal c s recs
                 /\ baseOffset s = chunk_base first all (length done + i)
                 /\ closed_files (Log_Dir L) s) ->
    (forall name, is_Some (Log_Dir L !! name) -> name ∈ files_of (bases_of first all)) ->
    exists L',
      setup_loop L (twice ((fun i => chunk_base first all (length done + i))
                             <$> seq 0 (length todo)))
      = (Ok tt, L')
      /\ Log_Config L' = c
      /\ Log_segments L' = seq 0 (length all)
      /\ Log_activeSegment L' = last (Log_segments L')
      /\ (forall i recs, all !! i = Some recs ->
            exists s, Log_heap L' !! i = Some s /\ segment_rep Marshal c s recs
                      /\ baseOffset s = chunk_base first all i)
      /\ (forall name, is_Some (Log_Dir L' !! name) ->
            name ∈ files_of (bases_of first all)).
Proof.
  intros Hcfg Hstrict todo.
  induction todo as [|recs rest IH]; intros done L Hall HC Hsegs Hheap Hact Hdone Htodo Hdom.
  - exists L. rewrite app_nil_r in Hall. subst done. cbn. auto 10.
  - set (b := chunk_base first all (length done)).
    assert (Hlen : length all = (length done + S (length rest))%nat)
      by (rewrite Hall, length_app; reflexivity).
    destruct (Htodo 0%nat recs eq_refl) as (s0 & Hrep0 & Hb0 & [Hst0 Hix0]).
    rewrite Nat.add_0_r in Hb0. fold b in Hb0. rewrite Hb0 in Hst0, Hix0.
    destruct (segment_reopen c (Log_Dir L) s0 recs b Hcfg Hrep0 Hb0 Hst0 Hix0)
      as (s' & content & HN & Hrep' & Hb').
    set (dir1 := <[file_name b ".index" := content]>
                   (<[file_name b ".store" := store_bytes (seg_store s0)]> (Log_Dir L))) in *.
    set (L1 := mkLog dir1 c (Log_heap L ++ [s']) (Log_segments L ++ [length (Log_heap L)])
                     (Some (length (Log_heap L)))).
    destruct (IH (done ++ [recs]) L1) as (L' & HL & Hrest).
    + rewrite <- app_assoc. exact Hall.
    + reflexivity.
    + unfold L1. cbn [Log_segments]. rewrite Hsegs, Hheap, length_app. cbn [length].
      rewrite Nat.add_1_r, seq_S. reflexivity.
    + unfold L1. cbn [Log_heap]. rewrite !length_app. cbn. lia.
    + unfold L1. cbn [Log_activeSegment Log_segments]. rewrite last_snoc. reflexivity.
    + intros i r Hr. unfold L1. cbn [Log_heap].
      apply lookup_app_Some in Hr as [Hr|[Hge Hr]].
      * destruct (Hdone i r Hr) as (s & Hs & Hsr & Hsb).
        exists s. split; [apply lookup_app_l_Some, Hs|]. auto.
      * apply list_lookup_singleton_Some in Hr as [Hi <-].
        assert (i = length done) by lia. subst i.
        exists s'. split; [rewrite <- Hheap; apply list_lookup_middle; reflexivity|].
        split; [exact Hrep'|exact Hb'].
    + intros i r Hr. destruct (Htodo (S i) r Hr) as (s & Hsr & Hsb & [Hst Hix]).
      exists s. split; [exact Hsr|]. split.
      { rewrite Hsb, length_app. cbn [length]. f_equal. lia. }
      assert (Hne : baseOffset s <> b).
      { rewrite Hsb. unfold b.
        pose proof (Hstrict (length done) (length done + S i)%nat) as Hlt.
        apply lookup_lt_Some in Hr. cbn [length] in Hr.
        specialize (Hlt ltac:(lia)). lia. }
      unfold L1, closed_files. cbn [Log_Dir]. unfold dir1.
      rewrite !lookup_insert_ne.
      * split; assumption.
      * intros E. apply file_name_inj in E; auto.
      * intros E. apply file_name_inj in E; auto.
      * intros E. apply file_name_inj in E; auto.
      * intros E. apply file_name_inj in E; auto.
    + intros name Hname. unfold L1 in Hname. cbn [Log_Dir] in Hname. unfold dir1 in Hname.
      assert (Hb_in : b ∈ bases_of first all).
      { unfold bases_of, b. apply list_elem_of_fmap. exists (length done).
        split; [reflexivity|]. apply elem_of_seq. lia. }
      destruct (decide (name = file_name b ".index")) as [->|Hni].
      { apply elem_of_files_of. exists b, ".index". auto. }
      rewrite lookup_insert_ne in Hname by congruence.
      destruct (decide (name = file_name b ".store")) as [->|Hns].
      { apply elem_of_files_of. exists b, ".store". auto. }
      rewrite lookup_insert_ne in Hname by congruence. apply Hdom, Hname.
    + exists L'. split; [|exact Hrest].
      cbn [length]. rewrite <- cons_seq, fmap_cons. unfold twice in *.
      rewrite bind_cons. cbn [app]. rewrite Nat.add_0_r. fold b.
      cbn [setup_loop]. unfold Log_newSegment. rewrite HC, HN. fold L1.
      rewrite <- HL. f_equal. f_equal. rewrite <- fmap_S_seq, <- list_fmap_compose.
      apply list_fmap_ext. intros _ i _. cbn. rewrite length_app. cbn [length].
      f_equal. lia.
Qed.


(** *** The base offsets that [setup] reads from the directory *)

Lemma fmap_seq_sorted (f : nat -> Z) n : forall k,
  (forall i j, (k <= i < j)%nat -> (j < k + n)%nat -> f i < f j) ->
  StronglySorted Z.lt (f <$> seq k n).
Proof.
  induction n as [|n IH]; intros k H; [constructor|].
  cbn [seq fmap list_fmap]. constructor.
  - apply IH. intros i j Hij Hj. apply H; lia.
  - apply Forall_fmap, Forall_forall. intros j Hj. apply elem_of_seq in Hj.
    cbn. apply H; lia.
Qed.

Lemma elem_of_twice b bases : b ∈ twice bases <-> b ∈ bases.
Proof.
  unfold twice. rewrite list_elem_of_bind. split.
  - intros (b' & Hb & Hb'). apply elem_of_cons in Hb as [->|Hb]; [exact Hb'|].
    apply list_elem_of_singleton in Hb as ->. exact Hb'.
  - intros Hb. exists b. split; [left|exact Hb].
Qed.

Lemma twice_sorted bases :
  StronglySorted Z.lt bases -> StronglySorted Z.le (twice bases).
Proof.
  induction 1 as [|b bs Hbs IH Hall]; [constructor|].
  change (twice (b :: bs)) with (b :: b :: twice bs).
  assert (Hle : Forall (Z.le b) (twice bs)).
  { apply Forall_forall. intros x Hx. apply (proj1 (elem_of_twice _ _)) in Hx.
    rewrite Forall_forall in Hall. specialize (Hall x Hx). lia. }
  constructor; [constructor; assumption|].
  constructor; [lia|exact Hle].
Qed.

Lemma sorted_NoDup bases : StronglySorted Z.lt bases -> NoDup bases.
Proof.
  induction 1 as [|b bs Hbs IH Hall]; constructor; [|exact IH].
  intros Hb. rewrite Forall_forall in Hall. specialize (Hall b Hb). lia.
Qed.

Lemma files_of_NoDup bases : NoDup bases -> NoDup (files_of bases).
Proof.
  induction 1 as [|b bs Hb Hnd IH]; [constructor|].
  change (files_of (b :: bs))
    with (file_name b ".store" :: file_name b ".index" :: files_of bs).
  assert (Hout : forall ext, ext = ".store" \/ ext = ".index" ->
            file_name b ext ∉ files_of bs).
  { intros ext Hext Hin. apply elem_of_files_of in Hin as (b' & ext' & Hb' & Hext' & E).
    apply file_name_inj in E; [|assumption..]. subst b'. contradiction. }
  constructor.
  - intros Hin. apply elem_of_cons in Hin as [E|Hin].
    + apply store_index_names_differ in E. exact E.
    + apply (Hout ".store"); [left; reflexivity|exact Hin].
  - constructor; [apply Hout; right; reflexivity|exact IH].
Qed.

Lemma parse_files_of bases :
  Forall (fun b => 0 <= b < 2 ^ 64) bases ->
  (fun name => ParseUint (TrimSuffix name (Ext name))) <$> files_of bases = twice bases.
Proof.
  induction 1 as [|b bs Hb _ IH]; [reflexivity|].
  change (files_of (b :: bs))
    with (file_name b ".store" :: file_name b ".index" :: files_of bs).
  change (twice (b :: bs)) with (b :: b :: twice bs).
  rewrite !fmap_cons, IH.
  rewrite !base_of_file_name by (first [exact Hb|left; reflexivity|right; reflexivity]).
  reflexivity.
Qed.

(** The sorted base offsets that [setup] works on, for a directory that
    holds the files of [bases]. *)
Lemma setup_baseOffsets (dir : directory) bases :
  StronglySorted Z.lt bases -> Forall (fun b => 0 <= b < 2 ^ 64) bases ->
  (forall name, is_Some (dir !! name) <-> name ∈ files_of bases) ->
  merge_sort Z.le ((fun name => ParseUint (TrimSuffix name (Ext name)))
                     <$> (map_to_list dir).*1)
  = twice bases.
Proof.
  intros Hsorted Hrange Hdom.
  apply (StronglySorted_unique Z.le).
  - apply StronglySorted_merge_sort; apply _.
  - apply twice_sorted, Hsorted.
  - rewrite merge_sort_Permutation, <- (parse_files_of bases Hrange).
    apply fmap_Permutation. apply NoDup_Permutation.
    + apply NoDup_fst_map_to_list.
    + apply files_of_NoDup, sorted_NoDup, Hsorted.
    + intros name. rewrite <- Hdom. rewrite list_elem_of_fmap. split.
      * intros ([n v] & -> & Hin). apply elem_of_map_to_list in Hin. cbn. eauto.
      * intros [v Hv]. exists (name, v). split; [reflexivity|].
        apply elem_of_map_to_list. exact Hv.
Qed.


(** *** Closing a log *)

(** Only the last segment may be empty: the base offsets grow strictly. *)
Lemma chunk_base_strict l first chunks i j :
  Log_rep Marshal l first chunks -> Log_files l ->
  (i < j < length chunks)%nat ->
  chunk_base first chunks i < chunk_base first chunks j.
Proof.
  intros Hrep (_ & _ & Hgrow) Hij.
  pose proof Hrep as (_ & _ & _ & _ & Hlen & _).
  destruct (lookup_lt_is_Some_2 (Log_segments l) i) as [p Hp]; [lia|].
  destruct (Log_rep_lookup Marshal l first chunks i p Hrep Hp) as (recs & s & _ & Hs & _ & Hb).
  destruct (Log_rep_next Marshal l first chunks i p Hrep Hp) as (s' & Hs' & Hn & _).
  assert (s' = s) by congruence. subst s'.
  assert (baseOffset s < nextOffset s) by (apply (Hgrow i p s); [lia|exact Hp|exact Hs]).
  pose proof (chunk_base_mono first chunks (S i) j ltac:(lia)). lia.
Qed.

Lemma chunk_base_range l first chunks i :
  Log_rep Marshal l first chunks -> 0 <= chunk_base first chunks i < 2 ^ 64.
Proof.
  intros Hrep. pose proof (Log_rep_first_nonneg Marshal l first chunks Hrep) as H0.
  destruct (Log_rep_active Marshal l first chunks Hrep)
    as (ptrs & pa & pre & recs & a & _ & _ & _ & _ & _ & Har & _ & Han).
  assert (Hn64 : first + len (concat chunks) < 2 ^ 64)
    by (destruct Har as (_ & _ & _ & H & _); lia).
  assert (len (concat chunks)
          = len (concat (take i chunks)) + len (concat (drop i chunks)))
    by (rewrite <- len_app, <- concat_app, take_drop; reflexivity).
  pose proof (len_nonneg (concat (take i chunks))).
  pose proof (len_nonneg (concat (drop i chunks))).
  unfold chunk_base. lia.
Qed.

Lemma bases_of_sorted l first chunks :
  Log_rep Marshal l first chunks -> Log_files l ->
  StronglySorted Z.lt (bases_of first chunks).
Proof.
  intros Hrep Hfiles. apply fmap_seq_sorted. intros i j Hij Hj.
  apply (chunk_base_strict l); [exact Hrep|exact Hfiles|lia].
Qed.

Lemma elem_of_bases_of b first chunks :
  b ∈ bases_of first chunks
  <-> exists i, (i < length chunks)%nat /\ b = chunk_base first chunks i.
Proof.
  unfold bases_of. rewrite list_elem_of_fmap. split.
  - intros (i & -> & Hi). apply elem_of_seq in Hi. exists i. split; [lia|reflexivity].
  - intros (i & Hi & ->). exists i. split; [reflexivity|]. apply elem_of_seq. lia.
Qed.

(** [Close] on a log succeeds and leaves, in the directory, the files of
    the segments as [Close] on a segment writes them, and no other file. *)
Lemma Log_Close_spec l first chunks :
  Log_rep Marshal l first chunks -> Log_files l ->
  exists lc,
    Log_Close l = (Ok tt, lc)
    /\ (forall i recs, chunks !! i = Some recs ->
          exists s, segment_rep Marshal (Log_Config l) s recs
            /\ baseOffset s = chunk_base first chunks i
            /\ closed_files (Log_Dir lc) s)
    /\ (forall name, is_Some (Log_Dir lc !! name)
                     <-> name ∈ files_of (bases_of first chunks)).
Proof.
  intros Hrep Hfiles.
  pose proof Hrep as (_ & Hnd & _ & _ & Hlen & _).
  pose proof Hfiles as (Hnames & Hdom & _).
  destruct (close_loop_spec (Log_segments l) (Log_heap l) (Log_Dir l) Hnd)
    as (heap' & dir' & HL & Hclosed & Hframe).
  { intros p Hp. pose proof Hp as Hp'. apply list_elem_of_lookup in Hp' as [i Hi].
    destruct (Log_rep_next Marshal l first chunks i p Hrep Hi) as (s & Hs & _ & Hsize).
    exists s. split; [exact Hs|]. split; [exact Hsize|]. apply (Hnames p s Hp Hs). }
  { intros p q s t Hp Hq Hs Ht E.
    apply list_elem_of_lookup in Hp as [i Hi]. apply list_elem_of_lookup in Hq as [j Hj].
    destruct (Log_rep_lookup Marshal l first chunks i p Hrep Hi) as (_ & s1 & _ & Hs1 & _ & Hb1).
    destruct (Log_rep_lookup Marshal l first chunks j q Hrep Hj) as (_ & t1 & _ & Ht1 & _ & Hb2).
    assert (s1 = s) by congruence. assert (t1 = t) by congruence. subst s1 t1.
    pose proof (lookup_lt_Some _ _ _ Hi). pose proof (lookup_lt_Some _ _ _ Hj).
    destruct (Nat.lt_trichotomy i j) as [Hlt|[->|Hlt]].
    - pose proof (chunk_base_strict l first chunks i j Hrep Hfiles ltac:(lia)). lia.
    - congruence.
    - pose proof (chunk_base_strict l first chunks j i Hrep Hfiles ltac:(lia)). lia. }
  exists (mkLog dir' (Log_Config l) heap' (Log_segments l) (Log_activeSegment l)).
  split; [unfold Log_Close; rewrite HL; reflexivity|].
  assert (Hseg : forall i recs, chunks !! i = Some recs ->
            exists p s, Log_segments l !! i = Some p /\ Log_heap l !! p = Some s
              /\ segment_rep Marshal (Log_Config l) s recs
              /\ baseOffset s = chunk_base first chunks i).
  { intros i recs Hr.
    destruct (lookup_lt_is_Some_2 (Log_segments l) i) as [p Hp].
    { rewrite <- Hlen. eapply lookup_lt_Some, Hr. }
    destruct (Log_rep_lookup Marshal l first chunks i p Hrep Hp)
      as (recs' & s & Hr' & Hs & Hsr & Hb).
    assert (recs' = recs) by congruence. subst recs'. eauto 6. }
  cbn [Log_Dir]. split.
  - intros i recs Hr. destruct (Hseg i recs Hr) as (p & s & Hp & Hs & Hsr & Hb).
    exists s. split; [exact Hsr|]. split; [exact Hb|].
    apply (Hclosed p s); [eapply list_elem_of_lookup_2, Hp|exact Hs].
  - assert (Hin : forall p s ext, p ∈ Log_segments l -> Log_heap l !! p = Some s ->
              ext = ".store" \/ ext = ".index" ->
              file_name (baseOffset s) ext ∈ files_of (bases_of first chunks)).
    { intros p s ext Hp Hs Hext. apply elem_of_files_of.
      exists (baseOffset s), ext. split; [|auto].
      apply list_elem_of_lookup in Hp as [i Hi].
      destruct (Log_rep_lookup Marshal l first chunks i p Hrep Hi) as (_ & s1 & _ & Hs1 & _ & Hb1).
      assert (s1 = s) by congruence. subst s1.
      apply elem_of_bases_of. exists i. split; [|exact Hb1].
      rewrite Hlen. eapply lookup_lt_Some, Hi. }
    intros name. split.
    + intros Hsome.
      destruct (decide (name ∈ files_of (bases_of first chunks))) as [Hyes|Hno]; [exact Hyes|].
      rewrite Hframe in Hsome.
      * apply Hdom in Hsome as (p & s & ext & Hp & Hs & Hext & ->).
        apply (Hin p s ext Hp Hs Hext).
      * intros p s ext Hp Hs Hext ->. apply Hno, (Hin p s ext Hp Hs Hext).
    + intros Hname. apply elem_of_files_of in Hname as (b & ext & Hb & Hext & ->).
      apply elem_of_bases_of in Hb as (i & Hi & ->).
      destruct (lookup_lt_is_Some_2 chunks i Hi) as [recs Hr].
      destruct (Hseg i recs Hr) as (p & s & Hp & Hs & _ & Hb).
      destruct (Hclosed p s) as [Hst Hix]; [eapply list_elem_of_lookup_2, Hp|exact Hs|].
      rewrite <- Hb. destruct Hext as [->| ->]; [rewrite Hst|rewrite Hix]; eauto.
Qed.


(** *** Opening the directory of a closed log *)

(** [NewLog] on a directory that holds the closed files of segments of the
    records of [chunks], and no other file, gives a log of these records. *)
Lemma NewLog_reopen (dir : directory) c first chunks :
  config_ok (defaulted c) -> chunks <> [] ->
  (forall i j, (i < j < length chunks)%nat ->
     chunk_base first chunks i < chunk_base first chunks j) ->
  (forall i, 0 <= chunk_base first chunks i < 2 ^ 64) ->
  (forall i recs, chunks !! i = Some recs ->
     exists s, segment_rep Marshal (defaulted c) s recs
       /\ baseOffset s = chunk_base first chunks i
       /\ closed_files dir s) ->
  (forall name, is_Some (dir !! name) <-> name ∈ files_of (bases_of first chunks)) ->
  exists l',
    NewLog dir c = (Ok tt, l')
    /\ Log_rep Marshal l' first chunks
    /\ Log_Config l' = defaulted c.
Proof.
  intros Hcfg Hne Hstrict Hrange Hsegs Hdom.
  change (NewLog dir c) with (setup (mkLog dir (defaulted c) [] [] None)).
  unfold setup. cbn [Log_Dir].
  rewrite (setup_baseOffsets dir (bases_of first chunks)).
  2:{ apply fmap_seq_sorted. intros i j Hij Hj. apply Hstrict. lia. }
  2:{ apply Forall_forall. intros b Hb. apply elem_of_bases_of in Hb as (i & _ & ->).
      apply Hrange. }
  2:{ exact Hdom. }
  destruct (setup_loop_reopen (defaulted c) first chunks Hcfg Hstrict chunks []
              (mkLog dir (defaulted c) [] [] None))
    as (L' & HL & Hc' & Hs' & Ha' & Hh' & Hd').
  { reflexivity. } { reflexivity. } { reflexivity. } { reflexivity. } { reflexivity. }
  { intros i recs Hi. rewrite lookup_nil in Hi. discriminate. }
  { intros i recs Hi. cbn [length Nat.add Log_Dir]. apply (Hsegs i recs Hi). }
  { intros name Hn. apply Hdom. exact Hn. }
  cbn [length Nat.add] in HL.
  change ((fun i : nat => chunk_base first chunks i) <$> seq 0 (length chunks))
    with (bases_of first chunks) in HL.
  rewrite HL, Hs'.
  assert (Hpos : (0 < length chunks)%nat) by (destruct chunks; [congruence|cbn; lia]).
  destruct (seq 0 (length chunks)) as [|p0 ps] eqn:Eseq.
  { apply (f_equal length) in Eseq. rewrite length_seq in Eseq. cbn in Eseq. lia. }
  rewrite <- Eseq in *. clear Eseq p0 ps.
  exists L'. split; [reflexivity|]. split; [|exact Hc'].
  unfold Log_rep. rewrite Hc', Hs'.
  split; [exact Hcfg|]. split; [apply NoDup_seq|].
  split; [intros E; apply (f_equal length) in E; rewrite length_seq in E; cbn in E; lia|].
  split; [rewrite Ha', Hs'; reflexivity|].
  split; [rewrite length_seq; reflexivity|]. split.
  - intros i p recs Hp Hr. apply lookup_seq in Hp as [-> _]. cbn [Nat.add].
    destruct (Hh' i recs Hr) as (s & Hs & Hsr & Hb). exists s. auto.
  - intros name Hn. apply Hd', elem_of_files_of in Hn as (b & ext & Hb & Hext & ->).
    apply elem_of_bases_of in Hb as (i & Hi & ->).
    exists (chunk_base first chunks i), ext. split; [reflexivity|]. split; [exact Hext|].
    split; [apply Hrange|].
    apply (chunk_base_mono first chunks i (pred (length chunks))). lia.
Qed.

(** [Close], then [NewLog] on the directory of the log. *)
Lemma Log_Close_NewLog_rep l c first chunks :
  Log_rep Marshal l first chunks -> Log_files l -> Log_Config l = defaulted c ->
  exists lc l',
    Log_Close l = (Ok tt, lc)
    /\ NewLog (Log_Dir lc) c = (Ok tt, l')
    /\ Log_rep Marshal l' first chunks
    /\ Log_Config l' = defaulted c.
Proof.
  intros Hrep Hfiles Hc.
  destruct (Log_Close_spec l first chunks Hrep Hfiles) as (lc & HC & Hsegs & Hdom).
  pose proof Hrep as (Hcfg & _ & Hne & _ & Hlen & _).
  destruct (NewLog_reopen (Log_Dir lc) c first chunks) as (l' & HN & Hrep' & Hc').
  - rewrite <- Hc. exact Hcfg.
  - intros ->. cbn in Hlen. destruct (Log_segments l); [congruence|discriminate].
  - intros i j Hij. apply (chunk_base_strict l); assumption.
  - intros i. apply (chunk_base_range l). exact Hrep.
  - rewrite <- Hc. exact Hsegs.
  - exact Hdom.
  - exists lc, l'. auto.
Qed.

(** X14.  Closing a log and opening its directory again, below the
    wrap-around.  After [N] records were appended to a log made on an
    empty directory, [Close] succeeds, and [NewLog] on the directory that
    [Close] leaves, with the same options, succeeds and gives a log of the
    same records: the same [LowestOffset] and [HighestOffset], for every
    offset the answer to [Read] that the log gave before it was closed
    (record number [off - initial] for the offsets from [initial] to
    [initial + N - 1], the out-of-range error for every other), and the
    next [Append], of a record that can be marshalled, returns the offset
    [initial + N].
    Conditions: the initial offset plus [N] is below [2^64], so that no
    offset assigned is the last [uint64] and no [nextOffset] wraps to 0;
    every record can be marshalled with a [uint64] offset and the codec
    unmarshals what it marshalled; after the defaulting of [NewLog] the
    index of a segment has room for 1 to [2^32] entries, and a store file
    stays below [2^63] bytes. *)
Theorem Log_Close_NewLog (c : Config) (records : list api_Record) :
  config_ok (defaulted c) -> store_fits Marshal (defaulted c) ->
  0 <= InitialOffset c -> InitialOffset c + len records < 2 ^ 64 ->
  marshals Marshal records ->
  exists l lc l',
    Log_Appends Marshal (NewLog ∅ c).2 records
    = (Ok <$> seqZ (InitialOffset c) (len records), l)
    /\ Log_Close l = (Ok tt, lc)
    /\ NewLog (Log_Dir lc) c = (Ok tt, l')
    /\ Log_LowestOffset l' = Log_LowestOffset l
    /\ Log_HighestOffset l' = Log_HighestOffset l
    /\ (forall off,
          (Log_Read Unmarshal l' off).1 = (Log_Read Unmarshal l off).1
          /\ (Log_Read Unmarshal l' off).1
             = read_answer (InitialOffset c) (stamp (InitialOffset c) records) off)
    /\ (forall r p,
          Marshal (set_Offset r (InitialOffset c + len records)) = Ok p ->
          (Log_Append Marshal l' r).1.1 = Ok (InitialOffset c + len records)).
Proof.
  intros Hcfg Hfits Hinit Hbound Hall. pose proof (len_nonneg records) as Hn.
  pose proof (NewLog_fresh_files c Hcfg ltac:(lia)) as Hfiles0.
  destruct (NewLog_fresh Marshal c Hcfg ltac:(lia)) as (l0 & HN & Hrep0 & Hc0).
  rewrite HN in Hfiles0 |- *. cbn [snd] in Hfiles0 |- *.
  assert (Hb0 : InitialOffset c + len (concat [@nil api_Record]) + len records < 2 ^ 64).
  { cbn. change (len (@nil api_Record)) with 0. lia. }
  assert (Hfits0 : store_fits Marshal (Log_Config l0)) by (rewrite Hc0; exact Hfits).
  pose proof (Log_Appends_files records l0 (InitialOffset c) [[]] Hrep0 Hfiles0
                Hfits0 Hinit Hb0 Hall) as Hfiles.
  destruct (Log_Appends_all Marshal records l0 (InitialOffset c) [[]] Hrep0 Hfits0
              Hinit Hb0 Hall) as (l & chunks & HA & Hrep & Hcat & Hc).
  rewrite HA in Hfiles. cbn [snd] in Hfiles.
  cbn [concat app] in HA, Hcat. change (len (@nil api_Record)) with 0 in HA, Hcat.
  rewrite Z.add_0_r in HA, Hcat.
  destruct (Log_Close_NewLog_rep l c (InitialOffset c) chunks Hrep Hfiles)
    as (lc & l' & HC & HN' & Hrep' & Hc'); [congruence|].
  exists l, lc, l'. split; [exact HA|]. split; [exact HC|]. split; [exact HN'|].
  split.
  { rewrite (Log_LowestOffset_rep Marshal l _ chunks Hrep).
    apply (Log_LowestOffset_rep Marshal l' _ chunks Hrep'). }
  split.
  { unfold Log_HighestOffset.
    rewrite (Log_highestOffset_rep Marshal l _ chunks Hrep).
    rewrite (Log_highestOffset_rep Marshal l' _ chunks Hrep'). reflexivity. }
  split.
  { intros off.
    destruct (Log_Read_answer Marshal Unmarshal Unmarshal_Marshal l _ chunks off Hrep)
      as (l1 & HR & _).
    destruct (Log_Read_answer Marshal Unmarshal Unmarshal_Marshal l' _ chunks off Hrep')
      as (l1' & HR' & _).
    rewrite HR, HR'. cbn [fst]. split; [reflexivity|]. rewrite Hcat. reflexivity. }
  intros r p Hp.
  pose proof (Log_Append_cases Marshal l' (InitialOffset c) chunks r Hrep') as Hcase.
  rewrite Hc' in Hcase. specialize (Hcase Hfits). cbv zeta in Hcase.
  rewrite Hcat, len_stamp in Hcase. cbn [app] in Hcase. rewrite Hp in Hcase.
  destruct Hcase as (l2 & HApp & _). rewrite HApp. reflexivity.
Qed.

End log_reopen.

(** Five records with three index entries per segment: the log is closed
    with two segments and opened again. *)
Lemma Log_Close_NewLog_witness :
  let c := mkConfig 0 36 7 in
  let records := (fun v => mkRecord [v] 0 0 0) <$> [1; 2; 3; 4; 5] in
  exists l lc l',
    Log_Appends wire_Marshal (NewLog ∅ c).2 records
    = (Ok <$> seqZ (InitialOffset c) (len records), l)
    /\ Log_Close l = (Ok tt, lc)
    /\ NewLog (Log_Dir lc) c = (Ok tt, l')
    /\ Log_LowestOffset l' = Log_LowestOffset l
    /\ Log_HighestOffset l' = Log_HighestOffset l
    /\ (forall off,
          (Log_Read wire_Unmarshal l' off).1 = (Log_Read wire_Unmarshal l off).1
          /\ (Log_Read wire_Unmarshal l' off).1
             = read_answer (InitialOffset c) (stamp (InitialOffset c) records) off)
    /\ (forall r p,
          wire_Marshal (set_Offset r (InitialOffset c + len records)) = Ok p ->
          (Log_Append wire_Marshal l' r).1.1 = Ok (InitialOffset c + len records)).
Proof.
  intros c records.
  apply (Log_Close_NewLog wire_Marshal wire_Unmarshal wire_Unmarshal_Marshal
           c records).
  - unfold config_ok. vm_compute. repeat split; discriminate.
  - apply wire_store_fits. vm_compute. discriminate.
  - vm_compute. discriminate.
  - vm_compute. reflexivity.
  - apply wire_marshals. repeat constructor.
Defined.

(** The same run, evaluated: the reopened log has the segments of base
    offsets 7 and 10, and answers [Read(11)] with the fifth record. *)
Example Log_reopen_two_segments :
  let c := mkConfig 0 36 7 in
  let records := (fun v => mkRecord [v] 0 0 0) <$> [1; 2; 3; 4; 5] in
  let l := (Log_Appends wire_Marshal (NewLog ∅ c).2 records).2 in
  let l' := (NewLog (Log_Dir (Log_Close l).2) c).2 in
  (fun p => baseOffset <$> Log_heap l' !! p) <$> Log_segments l' = [Some 7; Some 10]
  /\ (Log_Read wire_Unmarshal l' 11).1 = Ok (mkRecord [5] 11 0 0).
Proof. vm_compute. split; reflexivity. Qed.

(** ** The replicated log *)

Section distributed_proofs.

Variable Marshal : api_Record -> result (list Z).
Variable Unmarshal : list Z -> api_Record.
Variable MarshalReq : api_Record -> result (list Z).
Variable UnmarshalReq : list Z -> result api_Record.
Hypothesis Unmarshal_Marshal :
  forall r p, Marshal r = Ok p -> Unmarshal p = r.
Hypothesis UnmarshalReq_MarshalReq :
  forall r b, MarshalReq r = Ok b -> UnmarshalReq b = Ok r.

Lemma fsm_Apply_committed l record entry :
  committed_for MarshalReq record entry ->
  fsm_Apply Marshal UnmarshalReq l entry
  = (answer_of (Log_Append Marshal l record).1.1, (Log_Append Marshal l record).1.2).
Proof.
  intros (b & Hb & Hd). unfold fsm_Apply. rewrite Hd.
  change (apply_data AppendRequestType b) with (0 :: b). cbn [Z.eqb].
  unfold fsm_applyAppend. rewrite (UnmarshalReq_MarshalReq record b Hb).
  destruct (Log_Append Marshal l record) as [[[off|e|m] l1] r1]; reflexivity.
Qed.

Lemma fsm_Applies_Appends records : forall entries l,
  Forall2 (committed_for MarshalReq) records entries ->
  fsm_Applies Marshal UnmarshalReq l entries
  = (answer_of <$> (Log_Appends Marshal l records).1,
     (Log_Appends Marshal l records).2).
Proof.
  induction records as [|r rs IH]; intros entries l H.
  - apply Forall2_nil_inv_l in H as ->. reflexivity.
  - apply Forall2_cons_inv_l in H as (e & es & He & Hes & ->).
    cbn [fsm_Applies Log_Appends]. rewrite (fsm_Apply_committed l r e He).
    destruct (Log_Append Marshal l r) as [[[off|err|m] l1] r1]; cbn [fst snd answer_of].
    + rewrite (IH es l1 Hes). destruct (Log_Appends Marshal l1 rs). reflexivity.
    + rewrite (IH es l1 Hes). destruct (Log_Appends Marshal l1 rs). reflexivity.
    + reflexivity.
Qed.

(** X15.  The state machine of the replicated log, below the wrap-around.
    When [fsm.Apply] is called, in order, on the entries that raft commits
    for [DistributedLog.Append] of [N] records (the data that [apply]
    builds: the request type, then the marshalled request), on a state
    machine whose log was made on an empty directory, call [k] answers
    with the [ProduceResponse] of offset initial + [k], and afterwards
    [Read] on the log returns record number [off - initial], with its
    [Offset] set to [off], for each of these offsets and the out-of-range
    error for every other.  A marshalled request is unmarshalled to the
    request of the same record.
    Conditions: the initial offset plus [N] is below [2^64], so that no
    offset assigned is the last [uint64] and no [nextOffset] wraps to 0;
    every record can be marshalled with a [uint64] offset and the codec
    unmarshals what it marshalled; after the defaulting of [NewLog] the
    index of a segment has room for 1 to [2^32] entries, and a store file
    stays below [2^63] bytes. *)
Theorem fsm_Apply_appends_committed (c : Config) (records : list api_Record)
    (entries : list raft_Log) :
  config_ok (defaulted c) -> store_fits Marshal (defaulted c) ->
  0 <= InitialOffset c -> InitialOffset c + len records < 2 ^ 64 ->
  marshals Marshal records ->
  Forall2 (committed_for MarshalReq) records entries ->
  exists l,
    fsm_Applies Marshal UnmarshalReq (NewLog ∅ c).2 entries
    = ((fun offset => Ok (RespProduce offset))
         <$> seqZ (InitialOffset c) (len records), l)
    /\ forall off,
         (Log_Read Unmarshal l off).1
         = read_answer (InitialOffset c) (stamp (InitialOffset c) records) off.
Proof.
  intros Hcfg Hfits Hinit Hbound Hall Hent.
  destruct (NewLog_fresh Marshal c Hcfg ltac:(pose proof (len_nonneg records); lia))
    as (l0 & HN & Hrep0 & Hc0).
  rewrite HN. cbn [snd].
  destruct (Log_Appends_all Marshal records l0 (InitialOffset c) [[]] Hrep0)
    as (l & chunks & HA & Hrep & Hcat & Hc).
  { rewrite Hc0. exact Hfits. }
  { exact Hinit. }
  { cbn. change (len (@nil api_Record)) with 0. lia. }
  { exact Hall. }
  cbn [concat app] in HA, Hcat. change (len (@nil api_Record)) with 0 in HA, Hcat.
  rewrite Z.add_0_r in HA, Hcat.
  exists l. split.
  - rewrite (fsm_Applies_Appends records entries l0 Hent), HA. cbn [fst snd].
    rewrite <- list_fmap_compose. reflexivity.
  - intros off.
    destruct (Log_Read_answer Marshal Unmarshal Unmarshal_Marshal l _ chunks off Hrep)
      as (l' & HR & _).
    rewrite HR, Hcat. reflexivity.
Qed.

(** X16.  [DistributedLog.Append] and the state machine.  When the future
    of [raft.Apply] reports no error and its response is what [fsm.Apply]
    answered for an entry that carries the data [apply] built, on a state
    machine of log [l], [Append] returns what [Log.Append] of the record
    returns on [l]: the offset, or the error. *)
Theorem DistributedLog_Append_applied (raft_Apply : list Z -> ApplyFuture)
    (l : Log) (record : api_Record) (b : list Z) (entry : raft_Log) :
  MarshalReq record = Ok b ->
  raft_Data entry = apply_data AppendRequestType b ->
  future_Error (raft_Apply (apply_data AppendRequestType b)) = None ->
  (fsm_Apply Marshal UnmarshalReq l entry).1
  = Ok (future_Response (raft_Apply (apply_data AppendRequestType b))) ->
  DistributedLog_Append MarshalReq raft_Apply record
  = (Log_Append Marshal l record).1.1.
Proof.
  intros Hb Hd Herr Hresp.
  rewrite (fsm_Apply_committed l record entry) in Hresp by (exists b; auto).
  cbn [fst] in Hresp.
  unfold DistributedLog_Append, DistributedLog_apply. rewrite Hb. cbv zeta.
  rewrite Herr.
  destruct (Log_Append Marshal l record) as [[[off|e|m] l1] r1];
    cbn [fst snd answer_of] in *; [| |discriminate].
  - assert (E : future_Response (raft_Apply (apply_data AppendRequestType b))
                = RespProduce off) by congruence.
    rewrite E. reflexivity.
  - assert (E : future_Response (raft_Apply (apply_data AppendRequestType b))
                = RespError e) by congruence.
    rewrite E. reflexivity.
Qed.

(** X17.  [DistributedLog.Append] never returns an error of raft.  When
    the request can be marshalled and the future of [raft.Apply] reports an
    error, [apply] returns no response and no error, and [Append] panics
    on its type assertion, whatever the error and the response of the
    future are. *)
Theorem DistributedLog_Append_raft_error (raft_Apply : list Z -> ApplyFuture)
    (record : api_Record) (b : list Z) (e : error) :
  MarshalReq record = Ok b ->
  future_Error (raft_Apply (apply_data AppendRequestType b)) = Some e ->
  DistributedLog_apply MarshalReq raft_Apply AppendRequestType record = Ok RespNil
  /\ DistributedLog_Append MarshalReq raft_Apply record = Panic interface_is_nil.
Proof.
  intros Hb He. unfold DistributedLog_Append.
  assert (H : DistributedLog_apply MarshalReq raft_Apply AppendRequestType record
              = Ok RespNil).
  { unfold DistributedLog_apply. rewrite Hb. cbv zeta. rewrite He. reflexivity. }
  rewrite H. split; reflexivity.
Qed.

End distributed_proofs.

Lemma wire_UnmarshalReq_MarshalReq r b :
  wire_Marshal r = Ok b -> Ok (wire_Unmarshal b) = Ok r.
Proof. intros H. f_equal. apply (wire_Unmarshal_Marshal r b H). Qed.

(** Four requests on a state machine whose log takes three records per
    segment. *)
Lemma fsm_Apply_appends_committed_witness :
  let c := mkConfig 0 36 7 in
  let records := (fun v => mkRecord [v] 0 0 0) <$> [1; 2; 3; 4] in
  let entries :=
    (fun v => mkRaftLog v 1 0
                (0 :: BigEndian.put 8 0 ++ BigEndian.put 8 0 ++ BigEndian.put 4 0 ++ [v]))
      <$> [1; 2; 3; 4] in
  exists l,
    fsm_Applies wire_Marshal (fun b => Ok (wire_Unmarshal b)) (NewLog ∅ c).2 entries
    = ((fun offset => Ok (RespProduce offset))
         <$> seqZ (InitialOffset c) (len records), l)
    /\ forall off,
         (Log_Read wire_Unmarshal l off).1
         = read_answer (InitialOffset c) (stamp (InitialOffset c) records) off.
Proof.
  intros c records entries.
  apply (fsm_Apply_appends_committed wire_Marshal wire_Unmarshal wire_Marshal
           (fun b => Ok (wire_Unmarshal b))
           wire_Unmarshal_Marshal wire_UnmarshalReq_MarshalReq c records entries).
  - unfold config_ok. vm_compute. repeat split; discriminate.
  - apply wire_store_fits. vm_compute. discriminate.
  - vm_compute. discriminate.
  - vm_compute. reflexivity.
  - apply wire_marshals. repeat constructor.
  - repeat constructor; eexists; split; vm_compute; reflexivity.
Defined.

(** A raft that applies the entry on the log of the local state machine. *)
Lemma DistributedLog_Append_applied_witness :
  let l := (NewLog ∅ (mkConfig 0 36 7)).2 in
  let record := mkRecord [9] 0 0 0 in
  let raft_Apply := fun data =>
    mkFuture None
      match (fsm_Apply wire_Marshal (fun b => Ok (wire_Unmarshal b)) l
               (mkRaftLog 1 1 0 data)).1 with
      | Ok res => res
      | _ => RespNil
      end in
  DistributedLog_Append wire_Marshal raft_Apply record
  = (Log_Append wire_Marshal l record).1.1.
Proof.
  intros l record raft_Apply.
  apply (DistributedLog_Append_applied wire_Marshal wire_Marshal
           (fun b => Ok (wire_Unmarshal b)) wire_UnmarshalReq_MarshalReq
           raft_Apply l record
           (BigEndian.put 8 0 ++ BigEndian.put 8 0 ++ BigEndian.put 4 0 ++ [9])
           (mkRaftLog 1 1 0
              (0 :: BigEndian.put 8 0 ++ BigEndian.put 8 0 ++ BigEndian.put 4 0 ++ [9]))).
  - vm_compute. reflexivity.
  - vm_compute. reflexivity.
  - reflexivity.
  - vm_compute. reflexivity.
Defined.

(** A raft that is not the leader. *)
Lemma DistributedLog_Append_raft_error_witness :
  let record := mkRecord [9] 0 0 0 in
  let raft_Apply := fun _ : list Z => mkFuture (Some (ErrOther "node is not the leader")) RespNil in
  DistributedLog_apply wire_Marshal raft_Apply AppendRequestType record = Ok RespNil
  /\ DistributedLog_Append wire_Marshal raft_Apply record = Panic interface_is_nil.
Proof.
  intros record raft_Apply.
  apply (DistributedLog_Append_raft_error wire_Marshal raft_Apply record
           (BigEndian.put 8 0 ++ BigEndian.put 8 0 ++ BigEndian.put 4 0 ++ [9])
           (ErrOther "node is not the leader")).
  - vm_compute. reflexivity.
  - reflexivity.
Defined.

(** ** Segments: appends up to a full index *)

Section segment_full.

Variable Marshal : api_Record -> result (list Z).
Variable Unmarshal : list Z -> api_Record.
Hypothesis Unmarshal_Marshal : forall r p, Marshal r = Ok p -> Unmarshal p = r.

(** The store of the segment after [Append], whatever the index says. *)
Lemma segment_Append_store (s : segment) (record : api_Record) p :
  store_size (seg_store s) = len (store_bytes (seg_store s)) ->
  store_size (seg_store s) + (lenWidth + len p) < 2 ^ 64 ->
  Marshal (set_Offset record (nextOffset s)) = Ok p ->
  let s' := (segment_Append Marshal s record).1.2 in
  store_size (seg_store s') = store_size (seg_store s) + (lenWidth + len p)
  /\ store_bytes (seg_store s') = store_bytes (seg_store s) ++ frame p.
Proof.
  intros Hsz Hfit HM.
  destruct (store_Append_step (seg_store s) p Hsz Hfit) as (st' & HSA & _ & HF & HB & HS).
  assert (Hbytes : store_bytes st' = store_bytes (seg_store s) ++ frame p).
  { unfold store_bytes. rewrite HF, HB, app_assoc. reflexivity. }
  unfold segment_Append. rewrite HM, HSA.
  destruct (index_Write _ _ _) as [[u|e|m] ix]; cbn [fst snd seg_store]; auto.
Qed.

(** [Append] on a segment whose index has no room: the record is turned
    down, after its frame went to the store. *)
Lemma segment_Append_full c s recs record p :
  config_ok c -> segment_rep Marshal c s recs ->
  MaxIndexBytes c < entWidth * (len recs + 1) ->
  Marshal (set_Offset record (nextOffset s)) = Ok p ->
  store_size (seg_store s) + (lenWidth + len p) < 2 ^ 63 ->
  exists s',
    segment_Append Marshal s record = (Err EOF, s', set_Offset record (nextOffset s))
    /\ nextOffset s' = nextOffset s
    /\ baseOffset s' = baseOffset s
    /\ store_size (seg_store s') = store_size (seg_store s) + (lenWidth + len p)
    /\ segment_rep Marshal c s' recs.
Proof.
  intros [_ Hix] Hrep Hfull HM Hfit.
  destruct Hrep as (Hc & Hb & Hn & Hn64 & Hsz & Hsz63 & Hemp & Hmm & es & Hes & Hirep & Hk).
  pose proof (len_nonneg p) as Hp. pose proof (len_nonneg recs) as Hr.
  assert (Hlen : len es = len recs) by (unfold len; lia).
  destruct (store_Append_step (seg_store s) p Hsz) as (st' & HSA & _ & HF & HB & HS);
    [unfold lenWidth in *; lia|].
  assert (Hbytes : store_bytes st' = store_bytes (seg_store s) ++ frame p).
  { unfold store_bytes. rewrite HF, HB, app_assoc. reflexivity. }
  pose proof (index_rep_nonneg _ es Hirep) as Hisize.
  assert (HW : forall off pos, index_Write (seg_index s) off pos = (Err EOF, seg_index s)).
  { intros off pos. apply index_Write_maxed; [exact Hisize|].
    destruct Hirep as (Hisz & _). rewrite Hisz, Hlen, Hmm. lia. }
  eexists. unfold segment_Append. rewrite HM, HSA, HW.
  split; [reflexivity|].
  cbn [nextOffset baseOffset seg_store seg_index seg_config].
  split; [reflexivity|]. split; [reflexivity|]. split; [exact HS|].
  unfold segment_rep. cbn [nextOffset baseOffset seg_store seg_index seg_config].
  rewrite Hbytes, HS, len_app, len_frame.
  split; [exact Hc|]. split; [exact Hb|]. split; [exact Hn|]. split; [exact Hn64|].
  split; [lia|]. split; [lia|]. split.
  { intros ->. change (len (@nil api_Record)) with 0 in *. lia. }
  split; [exact Hmm|].
  exists es. split; [exact Hes|]. split; [exact Hirep|].
  intros k r e Hkr Hke. destruct (Hk k r e Hkr Hke) as (H1 & H2 & q & Hq & Hfr).
  split; [exact H1|]. split; [exact H2|].
  exists q. split; [exact Hq|]. apply frame_at_app, Hfr.
Qed.


(** Appends while the index has room and the store is below its cap. *)
Lemma segment_Appends_rep c N more : forall s recs,
  config_ok c -> store_fits Marshal c ->
  segment_rep Marshal c s recs ->
  entWidth * (len recs + len more) <= MaxIndexBytes c ->
  len recs + len more <= N ->
  nextOffset s + len more < 2 ^ 64 ->
  store_size (seg_store s) * N <= len recs * MaxStoreBytes c ->
  marshals Marshal more ->
  (forall r q, r ∈ stamp (nextOffset s) more -> Marshal r = Ok q ->
     (lenWidth + len q) * N <= MaxStoreBytes c) ->
  exists s',
    segment_Appends Marshal s more = (Ok <$> seqZ (nextOffset s) (len more), s')
    /\ segment_rep Marshal c s' (recs ++ stamp (nextOffset s) more)
    /\ baseOffset s' = baseOffset s
    /\ store_size (seg_store s') * N <= (len recs + len more) * MaxStoreBytes c.
Proof.
  induction more as [|r rs IH]; intros s recs Hcfg Hfits Hrep Hidx HN Hnext Hst Hall Hcap.
  { exists s. cbn [segment_Appends]. change (len (@nil api_Record)) with 0.
    rewrite app_nil_r, Z.add_0_r. auto. }
  change (len (r :: rs)) with (Z.of_nat (S (length rs))) in *.
  rewrite Nat2Z.inj_succ in *. fold (len rs) in *.
  pose proof (len_nonneg rs) as Hrs. pose proof (len_nonneg recs) as Hr.
  pose proof Hrep as (_ & Hb & Hn & Hn64 & Hsz & Hsz63 & _).
  pose proof Hcfg as [Hmax _].
  set (next := nextOffset s) in *.
  assert (Hmar : is_Ok (Marshal (set_Offset r next))).
  { apply Hall; [left|]. lia. }
  destruct (Marshal (set_Offset r next)) as [p| |] eqn:HM; [|destruct Hmar..].
  pose proof (len_nonneg p) as Hp.
  assert (Hframe : (lenWidth + len p) * N <= MaxStoreBytes c).
  { apply (Hcap (set_Offset r next) p); [|exact HM]. rewrite stamp_cons. left. }
  assert (Hbelow : store_size (seg_store s) < MaxStoreBytes c).
  { pose proof (len_nonneg (store_bytes (seg_store s))). nia. }
  assert (Hnm : segment_isMaxed s = false).
  { apply (segment_isMaxed_false Marshal c s recs Hcfg Hrep).
    split; [exact Hbelow|]. unfold entWidth, offWidth, posWidth in *. lia. }
  destruct (segment_Append_rep Marshal c s recs r p Hcfg Hfits Hrep Hnm HM)
    as (s1 & HA & Hb1 & Hrep1).
  specialize (Hrep1 ltac:(fold next; lia)). fold next in HA, Hrep1.
  pose proof (Hfits _ _ HM) as Hp63.
  destruct (segment_Append_store s r p Hsz ltac:(lia) HM) as [Hs1 _].
  rewrite HA in Hs1. cbn [fst snd] in Hs1.
  assert (Hn1 : nextOffset s1 = next + 1).
  { destruct Hrep1 as (_ & _ & Hn1 & _). rewrite Hn1, Hb1, len_app.
    change (len [set_Offset r next]) with 1. lia. }
  destruct (IH s1 (recs ++ [set_Offset r next]) Hcfg Hfits Hrep1)
    as (s' & HAs & Hrep' & Hb' & Hst').
  { rewrite len_app. change (len [set_Offset r next]) with 1. lia. }
  { rewrite len_app. change (len [set_Offset r next]) with 1. lia. }
  { rewrite Hn1. lia. }
  { rewrite len_app, Hs1. change (len [set_Offset r next]) with 1. nia. }
  { intros r0 off Hr0. apply Hall. right. exact Hr0. }
  { intros r0 q Hr0. apply Hcap. rewrite stamp_cons. right. rewrite <- Hn1. exact Hr0. }
  exists s'. cbn [segment_Appends]. fold next. rewrite HA, HAs.
  rewrite Hn1. replace (Z.succ (len rs)) with (1 + len rs) by lia.
  rewrite seqZ_cons_succ by exact Hrs. split; [reflexivity|].
  rewrite stamp_cons.
  rewrite Hn1, <- app_assoc in Hrep'. split; [exact Hrep'|].
  split; [congruence|].
  rewrite len_app in Hst'. change (len [set_Offset r next]) with 1 in Hst'. lia.
Qed.

(** X18.  A segment up to a full index.  On a segment made in an empty
    directory whose index has room for exactly [N] entries and whose store
    cap the records do not reach, [Append] of [N] records returns the
    offsets base, base + 1, ... and [Read] returns each record, with its
    [Offset] set, at its offset.  The segment is then maxed, and one more
    [Append] fails with [io.EOF]: the next offset stays and the [N] records
    are read as before, but the store has grown by the frame of the
    record that was turned down. *)
Theorem segment_Appends_until_full (c : Config) (base : Z)
    (records : list api_Record) (extra : api_Record) (p : list Z) :
  config_ok c -> store_fits Marshal c ->
  0 <= base -> base + len records < 2 ^ 64 ->
  marshals Marshal records ->
  entWidth * len records <= MaxIndexBytes c < entWidth * (len records + 1) ->
  (forall r q, r ∈ stamp base records -> Marshal r = Ok q ->
     (lenWidth + len q) * len records <= MaxStoreBytes c) ->
  Marshal (set_Offset extra (base + len records)) = Ok p ->
  exists s0 s s',
    (newSegment ∅ base c).1 = Ok s0
    /\ nextOffset s0 = base /\ segment_isMaxed s0 = false
    /\ segment_Appends Marshal s0 records = (Ok <$> seqZ base (len records), s)
    /\ segment_isMaxed s = true
    /\ segment_Append Marshal s extra
       = (Err EOF, s', set_Offset extra (base + len records))
    /\ nextOffset s' = base + len records
    /\ store_size (seg_store s') = store_size (seg_store s) + (lenWidth + len p)
    /\ forall k r, records !! k = Some r ->
         (segment_Read Unmarshal s (base + Z.of_nat k)).1
         = Ok (set_Offset r (base + Z.of_nat k))
         /\ (segment_Read Unmarshal s' (base + Z.of_nat k)).1
            = Ok (set_Offset r (base + Z.of_nat k)).
Proof.
  intros Hcfg Hfits Hbase Hbound Hall Hidx Hcap HM.
  pose proof (len_nonneg records) as Hn. pose proof (len_nonneg p) as Hp.
  destruct (newSegment_fresh Marshal ∅ base c Hcfg ltac:(lia))
    as (s0 & HN & Hrep0 & Hb0); [apply lookup_empty..|].
  assert (Hn0 : nextOffset s0 = base).
  { destruct Hrep0 as (_ & _ & H & _). rewrite H, Hb0.
    change (len (@nil api_Record)) with 0. lia. }
  assert (Hs0 : store_size (seg_store s0) = 0).
  { destruct Hrep0 as (_ & _ & _ & _ & _ & _ & H & _). apply H. reflexivity. }
  destruct (segment_Appends_rep c (len records) records s0 [] Hcfg Hfits Hrep0)
    as (s & HA & Hrep & Hb & Hst).
  { change (len (@nil api_Record)) with 0. lia. }
  { change (len (@nil api_Record)) with 0. lia. }
  { rewrite Hn0. exact Hbound. }
  { rewrite Hs0. change (len (@nil api_Record)) with 0. lia. }
  { exact Hall. }
  { rewrite Hn0. exact Hcap. }
  rewrite Hn0 in HA, Hrep. cbn [app] in Hrep.
  change (len (@nil api_Record)) with 0 in Hst. rewrite Z.add_0_l in Hst.
  assert (Hns : nextOffset s = base + len records).
  { destruct Hrep as (_ & _ & H & _). rewrite H, Hb, Hb0, len_stamp. reflexivity. }
  assert (Hpos : 0 < len records).
  { destruct Hcfg as [_ [Hix _]]. unfold entWidth, offWidth, posWidth in *. lia. }
  assert (Hsize : store_size (seg_store s) <= MaxStoreBytes c) by nia.
  pose proof (Hfits _ _ HM) as Hp63.
  destruct (segment_Append_full c s (stamp base records) extra p Hcfg Hrep)
    as (s' & HE & Hn' & Hb' & Hst' & Hrep').
  { rewrite len_stamp. lia. }
  { rewrite Hns. exact HM. }
  { lia. }
  exists s0, s, s'. rewrite HN. split; [reflexivity|]. split; [exact Hn0|].
  split; [apply (segment_isMaxed_empty Marshal c s0 Hcfg Hrep0)|].
  split; [exact HA|]. split.
  { destruct (segment_isMaxed s) eqn:E; [reflexivity|].
    apply (segment_isMaxed_false Marshal c s _ Hcfg Hrep) in E as [_ E].
    rewrite len_stamp in E. lia. }
  rewrite Hns in HE. split; [exact HE|]. split; [congruence|]. split; [exact Hst'|].
  intros k r Hk. pose proof (stamp_lookup base records k r Hk) as Hsk.
  assert (Ebs : baseOffset s = base) by congruence.
  assert (Ebs' : baseOffset s' = base) by congruence.
  pose proof (segment_Read_rep Marshal Unmarshal Unmarshal_Marshal c s _ k _
                Hrep Hcfg Hsk) as HR.
  pose proof (segment_Read_rep Marshal Unmarshal Unmarshal_Marshal c s' _ k _
                Hrep' Hcfg Hsk) as HR'.
  rewrite Ebs in HR. rewrite Ebs' in HR'. rewrite HR, HR'. split; reflexivity.
Qed.

End segment_full.

(** The run of the segment test of the repository: base offset 16, an
    index of three entries, a store cap of 1024 bytes. *)
Lemma segment_Appends_until_full_witness :
  let c := mkConfig 1024 36 0 in
  let want := mkRecord [104; 101; 108; 108; 111; 32; 119; 111; 114; 108; 100] 0 0 0 in
  let records := [want; want; want] in
  let p := BigEndian.put 8 19 ++ BigEndian.put 8 0 ++ BigEndian.put 4 0 ++ Value want in
  exists s0 s s',
    (newSegment ∅ 16 c).1 = Ok s0
    /\ nextOffset s0 = 16 /\ segment_isMaxed s0 = false
    /\ segment_Appends wire_Marshal s0 records = (Ok <$> seqZ 16 (len records), s)
    /\ segment_isMaxed s = true
    /\ segment_Append wire_Marshal s want
       = (Err EOF, s', set_Offset want (16 + len records))
    /\ nextOffset s' = 16 + len records
    /\ store_size (seg_store s') = store_size (seg_store s) + (lenWidth + len p)
    /\ forall k r, records !! k = Some r ->
         (segment_Read wire_Unmarshal s (16 + Z.of_nat k)).1
         = Ok (set_Offset r (16 + Z.of_nat k))
         /\ (segment_Read wire_Unmarshal s' (16 + Z.of_nat k)).1
            = Ok (set_Offset r (16 + Z.of_nat k)).
Proof.
  intros c want records p.
  apply (segment_Appends_until_full wire_Marshal wire_Unmarshal wire_Unmarshal_Marshal
           c 16 records want p).
  - unfold config_ok. vm_compute. repeat split; discriminate.
  - apply wire_store_fits. vm_compute. discriminate.
  - lia.
  - vm_compute. reflexivity.
  - apply wire_marshals. repeat constructor.
  - vm_compute. split; [discriminate|reflexivity].
  - intros r q Hr HM. vm_compute in Hr.
    repeat (apply elem_of_cons in Hr as [->|Hr]);
      [vm_compute in HM; injection HM as <-; vm_compute; discriminate..|].
    apply elem_of_nil in Hr. destruct Hr.
  - vm_compute. reflexivity.
Defined.
